(** * Craft Beer Map Spain: the KML codec and the reconciliation handlers

    A shallow embedding of [App.tsx], [components/EditModal.tsx],
    [services/geminiService.ts] and [types.ts], and the properties of the
    KML import/export and of the handlers that change the two venue
    collections (the committed [breweries] and the transient
    [foundBreweries]). *)

From Stdlib Require Import ZArith NArith Ascii Bool Lia.
From stdpp Require Import base decidable option list gmap strings pretty.

(** ** JavaScript strings

    A JavaScript string is a sequence of UTF-16 code units.  The model keeps
    the code units below 256 (Latin-1), one [ascii] each: every literal of
    the program, Spanish accents included, lives there, and on these strings
    the built-ins below are the ECMAScript ones. *)

Module Js.

(** [String.prototype.toLowerCase], one code unit at a time: [A-Z] and the
    Latin-1 capitals U+00C0..U+00DE (U+00D7, the multiplication sign, is not
    a letter). *)
Definition lowerChar (c : ascii) : ascii :=
  let n := N_of_ascii c in
  if ((65 <=? n) && (n <=? 90) || (192 <=? n) && (n <=? 222) && negb (n =? 215))%N
  then ascii_of_N (n + 32)
  else c.

Fixpoint toLowerCase (s : string) : string :=
  match s with
  | "" => ""
  | String c s' => String (lowerChar c) (toLowerCase s')
  end.

(** ECMAScript WhiteSpace and LineTerminator below 256: TAB, LF, VT, FF, CR,
    SP and NBSP.  This is what [trim] strips and what [\s] matches. *)
Definition isWhiteSpace (c : ascii) : bool :=
  let n := N_of_ascii c in
  ((9 <=? n) && (n <=? 13) || (n =? 32) || (n =? 160))%N.

Fixpoint trimStart (s : string) : string :=
  match s with
  | "" => ""
  | String c s' => if isWhiteSpace c then trimStart s' else s
  end.

Fixpoint trimEnd (s : string) : string :=
  match s with
  | "" => ""
  | String c s' =>
      match trimEnd s' with
      | "" => if isWhiteSpace c then "" else String c ""
      | r => String c r
      end
  end.

(** [String.prototype.trim]. *)
Definition trim (s : string) : string := trimEnd (trimStart s).

(** [s.startsWith(prefix)]. *)
Fixpoint startsWith (s prefix : string) {struct prefix} : bool :=
  match prefix, s with
  | "", _ => true
  | String a prefix', String b s' => Ascii.eqb a b && startsWith s' prefix'
  | String _ _, "" => false
  end.

(** [s.includes(needle)]. *)
Fixpoint includes (s needle : string) : bool :=
  startsWith s needle ||
  match s with
  | "" => false
  | String _ s' => includes s' needle
  end.

(** [s.split(sep)] for a one-character separator: never the empty array. *)
Fixpoint split (sep : ascii) (s : string) : list string :=
  match s with
  | "" => [""]
  | String c s' =>
      if Ascii.eqb c sep then "" :: split sep s'
      else match split sep s' with
           | h :: t => String c h :: t
           | [] => [String c ""]
           end
  end.

Fixpoint dropChars (n : nat) (s : string) : string :=
  match n, s with
  | S n', String _ s' => dropChars n' s'
  | _, _ => s
  end.

Fixpoint every (p : ascii -> bool) (s : string) : bool :=
  match s with
  | "" => true
  | String c s' => p c && every p s'
  end.

(** [s.replace(re, by)] for a global regular expression [re], given as the
    function [matchLength] that tells how many characters [re] matches at
    the start of a string, if it matches there (never zero for the two
    expressions of the program).  [skip] counts the characters of the
    current match still to pass. *)
Fixpoint replaceAll (matchLength : string -> option nat) (by_ : string)
    (skip : nat) (s : string) : string :=
  match s with
  | "" => ""
  | String c s' =>
      match skip with
      | S k => replaceAll matchLength by_ k s'
      | O =>
          match matchLength s with
          | Some n => by_ +:+ replaceAll matchLength by_ (pred n) s'
          | None => String c (replaceAll matchLength by_ 0 s')
          end
      end
  end.

(** Truthiness of a string: everything but the empty string. *)
Definition truthy (s : string) : bool := negb (String.eqb s "").

(** [array.includes(x)] on an array of strings. *)
Definition arrayIncludes (l : list string) (x : string) : bool :=
  existsb (String.eqb x) l.

End Js.

(** ** JavaScript numbers

    A number is NaN, an infinity, or a finite decimal [0.d1...dk * 10^point]
    with its sign, the digits [d1...dk] most significant first and without
    leading or trailing zero (zero has no digit): the [s], [k] and [n] of
    ECMAScript's Number::toString.  The value is kept as the decimal that
    was read; rounding to binary64 is not modelled. *)

Inductive number : Type :=
| NaN
| Infinity (negative : bool)
| Finite (negative : bool) (digits : list N) (point : Z).

Definition isNaN (x : number) : bool :=
  match x with NaN => true | _ => false end.

Definition isFinite (x : number) : bool :=
  match x with Finite _ _ _ => true | _ => false end.

(** *** [parseFloat]

    Leading white space is skipped, then the longest prefix that is a
    StrDecimalLiteral is read: an optional sign, then [Infinity], or digits
    with an optional fraction and an optional exponent.  No such prefix:
    NaN. *)

Definition isDigit (c : ascii) : bool :=
  let n := N_of_ascii c in ((48 <=? n) && (n <=? 57))%N.

Definition digitValue (c : ascii) : N := (N_of_ascii c - 48)%N.

Fixpoint takeDigits (s : string) : list N * string :=
  match s with
  | "" => ([], "")
  | String c s' =>
      if isDigit c
      then let '(ds, r) := takeDigits s' in (digitValue c :: ds, r)
      else ([], s)
  end.

Fixpoint stripZeros (ds : list N) (point : Z) : list N * Z :=
  match ds with
  | 0%N :: ds' => stripZeros ds' (point - 1)
  | _ => (ds, point)
  end.

Fixpoint dropTrailingZeros (ds : list N) : list N :=
  match ds with
  | [] => []
  | d :: ds' =>
      match dropTrailingZeros ds' with
      | [] => if (d =? 0)%N then [] else [d]
      | r => d :: r
      end
  end.

Definition decimalValue (ds : list N) : Z :=
  fold_left (fun acc d => (10 * acc + Z.of_N d)%Z) ds 0%Z.

(** The ExponentPart, when one is there: [e] or [E], an optional sign and
    at least one digit. *)
Definition exponentPart (s : string) : Z :=
  match s with
  | String c s' =>
      if Ascii.eqb c "e" || Ascii.eqb c "E" then
        match s' with
        | String "-" s'' =>
            match takeDigits s'' with
            | ([], _) => 0
            | (ds, _) => - decimalValue ds
            end
        | String "+" s'' => decimalValue (fst (takeDigits s''))
        | _ => decimalValue (fst (takeDigits s'))
        end%Z
      else 0%Z
  | "" => 0%Z
  end.

Definition mkFinite (negative : bool) (ds : list N) (point : Z) : number :=
  let '(ds1, point1) := stripZeros ds point in
  match dropTrailingZeros ds1 with
  | [] => Finite negative [] 0
  | ds2 => Finite negative ds2 point1
  end.

Definition unsignedLiteral (negative : bool) (s : string) : number :=
  if Js.startsWith s "Infinity" then Infinity negative
  else
    let '(intDigits, r1) := takeDigits s in
    let '(fracDigits, r2) :=
      match r1 with
      | String "." r => takeDigits r
      | _ => ([], r1)
      end in
    match intDigits ++ fracDigits with
    | [] => NaN
    | ds => mkFinite negative ds (Z.of_nat (length intDigits) + exponentPart r2)
    end.

(** [parseFloat(x)]; the argument is [None] for [undefined], whose string
    is no number. *)
Definition parseFloat (x : option string) : number :=
  match x with
  | None => NaN
  | Some s =>
      match Js.trimStart s with
      | String "-" r => unsignedLiteral true r
      | String "+" r => unsignedLiteral false r
      | r => unsignedLiteral false r
      end
  end.

(** *** Number::toString, radix 10 *)

Definition digitChar (d : N) : ascii := ascii_of_N (48 + d mod 10)%N.

Fixpoint digitString (ds : list N) : string :=
  match ds with
  | [] => ""
  | d :: ds' => String (digitChar d) (digitString ds')
  end.

Fixpoint zeros (n : nat) : string :=
  match n with
  | O => ""
  | S n' => String "0" (zeros n')
  end.

Definition numberToString (x : number) : string :=
  match x with
  | NaN => "NaN"
  | Infinity negative => (if negative then "-" else "") +:+ "Infinity"
  | Finite _ [] _ => "0"
  | Finite negative ((d :: ds') as ds) n =>
      let k := Z.of_nat (length ds) in
      (if negative then "-" else "") +:+
      (if (k <=? n)%Z && (n <=? 21)%Z then
         digitString ds +:+ zeros (Z.to_nat (n - k))
       else if (0 <? n)%Z && (n <=? 21)%Z then
         digitString (take (Z.to_nat n) ds) +:+ "." +:+ digitString (drop (Z.to_nat n) ds)
       else if (-6 <? n)%Z && (n <=? 0)%Z then
         "0." +:+ zeros (Z.to_nat (- n)) +:+ digitString ds
       else
         let e := (n - 1)%Z in
         let es := (if (e <? 0)%Z then "-" else "+") +:+ pretty (Z.abs_N e) in
         match ds' with
         | [] => String (digitChar d) ("e" +:+ es)
         | _ => String (digitChar d) ("." +:+ digitString ds' +:+ "e" +:+ es)
         end)
  end.

(** ** The browser's XML parser and DOM

    [new DOMParser().parseFromString(s, "text/xml")] and the three DOM
    queries the program makes.  The parser reads the fragment of XML 1.0
    that KML files are written in: the XML declaration and other processing
    instructions, comments, start, end and empty-element tags with quoted
    attributes, character data with the five predefined entities, and CDATA
    sections.  Line ends are normalised as XML prescribes.  Anything else
    (a DOCTYPE, a numeric character reference, a character XML forbids,
    tags that do not nest) is a parse error, for which the browser returns a
    document holding a [parsererror] element. *)

Module Dom.

Local Set Warnings "-register-all".

Inductive node : Type :=
| Element (tagName : string) (attributes : list (string * string)) (childNodes : list node)
| Text (data : string).

(** A document is the list of its child nodes. *)
Definition document : Type := list node.

Fixpoint textContent (n : node) : string :=
  match n with
  | Text d => d
  | Element _ _ cs =>
      (fix go (l : list node) : string :=
         match l with
         | [] => ""
         | c :: l' => textContent c +:+ go l'
         end) cs
  end.

Definition elementSelf (n : node) : list node :=
  match n with
  | Element _ _ _ => [n]
  | Text _ => []
  end.

(** The element descendants of a node, in document order. *)
Fixpoint descendants (n : node) : list node :=
  match n with
  | Text _ => []
  | Element _ _ cs =>
      (fix go (l : list node) : list node :=
         match l with
         | [] => []
         | c :: l' => elementSelf c ++ descendants c ++ go l'
         end) cs
  end.

Definition isNamed (tag : string) (n : node) : bool :=
  match n with
  | Element t _ _ => String.eqb t tag
  | Text _ => false
  end.

(** [element.getElementsByTagName(tag)]. *)
Definition getElementsByTagName (n : node) (tag : string) : list node :=
  List.filter (isNamed tag) (descendants n).

(** [document.getElementsByTagName(tag)]: the root element counts. *)
Definition documentElementsByTagName (d : document) (tag : string) : list node :=
  List.filter (isNamed tag) (flat_map (fun n => elementSelf n ++ descendants n) d).

(** [element.getAttribute(k)], [None] for [null]. *)
Definition getAttribute (n : node) (k : string) : option string :=
  match n with
  | Element _ attrs _ => snd <$> List.find (fun kv => String.eqb (fst kv) k) attrs
  | Text _ => None
  end.

(** *** Reading the text *)

Definition LF : ascii := "010"%char.
Definition CR : ascii := "013"%char.
Definition dquote : ascii := "034"%char.
Definition squote : ascii := "039"%char.

(** The characters XML 1.0 allows, below 256. *)
Definition isXmlChar (c : ascii) : bool :=
  let n := N_of_ascii c in ((n =? 9) || (n =? 10) || (n =? 13) || (32 <=? n))%N.

(** CR LF and a lone CR are read as LF. *)
Fixpoint normalizeLineEnds (s : string) : string :=
  match s with
  | "" => ""
  | String c s' =>
      if Ascii.eqb c CR then
        match s' with
        | String c' _ => if Ascii.eqb c' LF then normalizeLineEnds s'
                         else String LF (normalizeLineEnds s')
        | "" => String LF ""
        end
      else String c (normalizeLineEnds s')
  end.

Definition isSpace (c : ascii) : bool :=
  let n := N_of_ascii c in ((n =? 32) || (n =? 9) || (n =? 10) || (n =? 13))%N.

Definition isNameStart (c : ascii) : bool :=
  let n := N_of_ascii c in
  ((65 <=? n) && (n <=? 90) || (97 <=? n) && (n <=? 122) || (n =? 95) || (n =? 58)
   || (192 <=? n) && negb (n =? 215) && negb (n =? 247))%N.

Definition isNameChar (c : ascii) : bool :=
  let n := N_of_ascii c in
  (isNameStart c || (48 <=? n) && (n <=? 57) || (n =? 45) || (n =? 46) || (n =? 183))%N.

Definition isQuote (c : ascii) : bool := Ascii.eqb c dquote || Ascii.eqb c squote.

Inductive token : Type :=
| TOpen (name : string) (attrs : list (string * string))
| TEmpty (name : string) (attrs : list (string * string))
| TClose (name : string)
| TChars (data : string)
| TBad.

(** The text before the first [delim], when there is one. *)
Fixpoint untilSub (delim s : string) : option string :=
  if Js.startsWith s delim then Some ""
  else match s with
       | "" => None
       | String c s' => String c <$> untilSub delim s'
       end.

(** The text of a tag, up to the [>] that closes it: a [>] inside a quoted
    attribute value does not. *)
Fixpoint untilTagEnd (quote : option ascii) (s : string) : option string :=
  match s with
  | "" => None
  | String c s' =>
      match quote with
      | Some q =>
          String c <$> untilTagEnd (if Ascii.eqb c q then None else quote) s'
      | None =>
          if Ascii.eqb c ">" then Some ""
          else String c <$> untilTagEnd (if isQuote c then Some c else None) s'
      end
  end.

(** Character data runs to the next [<]. *)
Fixpoint untilLt (s : string) : string :=
  match s with
  | "" => ""
  | String c s' => if Ascii.eqb c "<" then "" else String c (untilLt s')
  end.

(** The predefined entities; [skip] counts the characters of the current
    reference still to pass. *)
Fixpoint decodeEntities (skip : nat) (s : string) : option string :=
  match s with
  | "" => Some ""
  | String c s' =>
      match skip with
      | S k => decodeEntities k s'
      | O =>
          if Ascii.eqb c "&" then
            if Js.startsWith s' "lt;" then String "<" <$> decodeEntities 3 s'
            else if Js.startsWith s' "gt;" then String ">" <$> decodeEntities 3 s'
            else if Js.startsWith s' "amp;" then String "&" <$> decodeEntities 4 s'
            else if Js.startsWith s' "quot;" then String dquote <$> decodeEntities 5 s'
            else if Js.startsWith s' "apos;" then String squote <$> decodeEntities 5 s'
            else None
          else String c <$> decodeEntities 0 s'
      end
  end.

Definition textToken (raw : string) : token :=
  match decodeEntities 0 raw with
  | Some d => TChars d
  | None => TBad
  end.

(** The inside of a start tag or of an empty-element tag. *)
Inductive tagPhase : Type :=
| PName | PGap | PKey | PAfterKey | PBeforeValue | PValue (quote : ascii)
| PAfterValue | PSlash | PBad.

Record tagState : Type := mkTagState {
  phase : tagPhase;
  tname : string;
  tattrs : list (string * string);
  tkey : string;
  tval : string
}.

Definition snoc (s : string) (c : ascii) : string := s +:+ String c "".

Definition tagStep (st : tagState) (c : ascii) : tagState :=
  let to ph := mkTagState ph (tname st) (tattrs st) (tkey st) (tval st) in
  match phase st with
  | PName =>
      if (if String.eqb (tname st) "" then isNameStart c else isNameChar c)
      then mkTagState PName (snoc (tname st) c) [] "" ""
      else if String.eqb (tname st) "" then to PBad
      else if isSpace c then to PGap
      else if Ascii.eqb c "/" then to PSlash
      else to PBad
  | PGap =>
      if isSpace c then st
      else if Ascii.eqb c "/" then to PSlash
      else if isNameStart c then mkTagState PKey (tname st) (tattrs st) (String c "") ""
      else to PBad
  | PKey =>
      if isNameChar c then mkTagState PKey (tname st) (tattrs st) (snoc (tkey st) c) ""
      else if Ascii.eqb c "=" then to PBeforeValue
      else if isSpace c then to PAfterKey
      else to PBad
  | PAfterKey =>
      if isSpace c then st
      else if Ascii.eqb c "=" then to PBeforeValue
      else to PBad
  | PBeforeValue =>
      if isSpace c then st
      else if isQuote c then to (PValue c)
      else to PBad
  | PValue q =>
      if Ascii.eqb c q then
        match decodeEntities 0 (tval st) with
        | Some v => mkTagState PAfterValue (tname st) (tattrs st ++ [(tkey st, v)]) "" ""
        | None => to PBad
        end
      else if Ascii.eqb c "<" then to PBad
      else mkTagState (PValue q) (tname st) (tattrs st) (tkey st) (snoc (tval st) c)
  | PAfterValue =>
      if isSpace c then to PGap
      else if Ascii.eqb c "/" then to PSlash
      else to PBad
  | PSlash => to PBad
  | PBad => st
  end.

Fixpoint tagRun (st : tagState) (s : string) : tagState :=
  match s with
  | "" => st
  | String c s' => tagRun (tagStep st c) s'
  end.

Definition parseTag (raw : string) : token :=
  let st := tagRun (mkTagState PName "" [] "" "") raw in
  match phase st with
  | PName => if String.eqb (tname st) "" then TBad else TOpen (tname st) (tattrs st)
  | PGap | PAfterValue => TOpen (tname st) (tattrs st)
  | PSlash => TEmpty (tname st) (tattrs st)
  | _ => TBad
  end.

(** The inside of an end tag, after its [/]. *)
Definition closeToken (raw : string) : token :=
  match parseTag raw with
  | TOpen n [] => TClose n
  | _ => TBad
  end.

(** Where the reader stands.  The text of a token is taken by looking
    ahead when the token starts; the [Skip] modes then pass over it. *)
Inductive mode : Type :=
| InText
| SkipText
| SkipCData
| SkipComment
| SkipPI
| SkipTag (quote : option ascii)
| Drop (n : nat) (next : mode).

Definition dropThen (n : nat) (next : mode) : mode :=
  match n with
  | O => next
  | S _ => Drop n next
  end.

Definition markup (s' : string) (lexIn : mode -> list token) : list token :=
  if Js.startsWith s' "![CDATA[" then
    match untilSub "]]>" (Js.dropChars 8 s') with
    | Some d => TChars d :: lexIn (Drop 8 SkipCData)
    | None => [TBad]
    end
  else if Js.startsWith s' "!--" then
    match untilSub "-->" (Js.dropChars 3 s') with
    | Some _ => lexIn (Drop 3 SkipComment)
    | None => [TBad]
    end
  else if Js.startsWith s' "!" then [TBad]
  else if Js.startsWith s' "?" then
    match untilSub "?>" s' with
    | Some _ => lexIn SkipPI
    | None => [TBad]
    end
  else if Js.startsWith s' "/" then
    match untilTagEnd None (Js.dropChars 1 s') with
    | Some raw => closeToken raw :: lexIn (SkipTag None)
    | None => [TBad]
    end
  else
    match untilTagEnd None s' with
    | Some raw => parseTag raw :: lexIn (SkipTag None)
    | None => [TBad]
    end.

Fixpoint lex (m : mode) (s : string) : list token :=
  match s with
  | "" =>
      match m with
      | InText | SkipText => []
      | _ => [TBad]
      end
  | String c s' =>
      match m with
      | Drop n next => lex (dropThen (pred n) next) s'
      | SkipCData =>
          if Js.startsWith s "]]>" then lex (Drop 2 InText) s' else lex SkipCData s'
      | SkipComment =>
          if Js.startsWith s "-->" then lex (Drop 2 InText) s' else lex SkipComment s'
      | SkipPI =>
          if Js.startsWith s "?>" then lex (Drop 1 InText) s' else lex SkipPI s'
      | SkipTag (Some q) =>
          lex (SkipTag (if Ascii.eqb c q then None else Some q)) s'
      | SkipTag None =>
          if Ascii.eqb c ">" then lex InText s'
          else lex (SkipTag (if isQuote c then Some c else None)) s'
      | InText | SkipText =>
          if Ascii.eqb c "<" then markup s' (fun m' => lex m' s')
          else
            match m with
            | InText => textToken (String c (untilLt s')) :: lex SkipText s'
            | _ => lex SkipText s'
            end
      end
  end.

(** *** Building the tree *)

(** An open element: its name, its attributes and the children read so far,
    last first. *)
Definition frame : Type := string * list (string * string) * list node.

Definition addNode (e : node) (stack : list frame) (top : list node)
  : list frame * list node :=
  match stack with
  | [] => ([], e :: top)
  | (n, a, cs) :: st => ((n, a, e :: cs) :: st, top)
  end.

Fixpoint build (ts : list token) (stack : list frame) (top : list node)
  : option (list node) :=
  match ts with
  | [] =>
      match stack with
      | [] => Some (rev top)
      | _ => None
      end
  | t :: ts' =>
      match t with
      | TBad => None
      | TChars d =>
          match stack with
          | [] => if Js.every isSpace d then build ts' [] top else None
          | _ => let '(st, tp) := addNode (Text d) stack top in build ts' st tp
          end
      | TOpen n a => build ts' ((n, a, []) :: stack) top
      | TEmpty n a => let '(st, tp) := addNode (Element n a []) stack top in build ts' st tp
      | TClose n =>
          match stack with
          | (n0, a, cs) :: st =>
              if String.eqb n n0
              then let '(st', tp) := addNode (Element n0 a (rev cs)) st top in build ts' st' tp
              else None
          | [] => None
          end
      end
  end.

Definition parsererror : document := [Element "parsererror" [] []].

(** [new DOMParser().parseFromString(s, "text/xml")]. *)
Definition parseFromString (s : string) : document :=
  if Js.every isXmlChar s then
    match build (lex InText (normalizeLineEnds s)) [] [] with
    | Some [Element n a cs] => [Element n a cs]
    | _ => parsererror
    end
  else parsererror.

End Dom.

(** ** [types.ts] *)

Inductive BreweryCategory : Type := MYTHIC | GOLD | SILVER | COMMON | TAP_ROOM.

Inductive AliveStatus : Type := active | inactive | unknown.

Record Coordinates : Type := mkCoordinates { lat : number; lng : number }.

Record Brewery : Type := mkBrewery {
  id : string;
  name : string;
  description : string;
  category : BreweryCategory;
  coordinates : Coordinates;
  address : option string;
  website : option string;
  googleMapsUri : option string;
  aliveStatus : option AliveStatus;
  lastAliveCheck : option string
}.

(** [Partial<Brewery>], the type of the edit form's data. *)
Record PartialBrewery : Type := mkPartial {
  p_id : option string;
  p_name : option string;
  p_description : option string;
  p_category : option BreweryCategory;
  p_coordinates : option Coordinates;
  p_address : option string;
  p_website : option string;
  p_googleMapsUri : option string;
  p_aliveStatus : option AliveStatus;
  p_lastAliveCheck : option string
}.

(** The string values of the enum, with U+00FA, U+00ED and U+00FA as single
    code units. *)
Definition u_acute : ascii := "250"%char.
Definition i_acute : ascii := "237"%char.

Definition categoryValue (c : BreweryCategory) : string :=
  match c with
  | MYTHIC => "L" +:+ String u_acute "pulo M" +:+ String i_acute "tico"
  | GOLD => "L" +:+ String u_acute "pulo de Oro"
  | SILVER => "L" +:+ String u_acute "pulo de Plata"
  | COMMON => "L" +:+ String u_acute "pulo Com" +:+ String u_acute "n"
  | TAP_ROOM => "Tap Room"
  end.

(** [Object.values(BreweryCategory)]: declaration order. *)
Definition allCategories : list BreweryCategory :=
  [MYTHIC; GOLD; SILVER; COMMON; TAP_ROOM].

Definition statusValue (s : AliveStatus) : string :=
  match s with
  | active => "active"
  | inactive => "inactive"
  | unknown => "unknown"
  end.

Global Instance BreweryCategory_eq_dec : EqDecision BreweryCategory.
Proof. solve_decision. Defined.

Global Instance AliveStatus_eq_dec : EqDecision AliveStatus.
Proof. solve_decision. Defined.

Global Instance number_eq_dec : EqDecision number.
Proof. solve_decision. Defined.

Global Instance Coordinates_eq_dec : EqDecision Coordinates.
Proof. solve_decision. Defined.

Global Instance Brewery_eq_dec : EqDecision Brewery.
Proof. solve_decision. Defined.



(** ** [App.tsx]: reading a KML file *)

Definition orElse (x : option string) (d : string) : string :=
  match x with
  | Some s => if Js.truthy s then s else d
  | None => d
  end.

(** [getCategoryFromFolder] of [parseKML]. *)
Definition getCategoryFromFolder (name : string) : BreweryCategory :=
  let n := Js.trim (Js.toLowerCase name) in
  if Js.includes n ("m" +:+ String i_acute "tico") || Js.includes n "mitico" then MYTHIC
  else if Js.includes n "oro" then GOLD
  else if Js.includes n "plata" then SILVER
  else if Js.includes n "tap room" || Js.includes n "taproom" then TAP_ROOM
  else COMMON.

(** [normalizeCategory] of [geminiService.ts]; [None] stands for a falsy
    argument other than the empty string. *)
Definition normalizeCategory (catStr : option string) : BreweryCategory :=
  match catStr with
  | None => COMMON
  | Some c =>
      if negb (Js.truthy c) then COMMON
      else
        let lower := Js.trim (Js.toLowerCase c) in
        if Js.includes lower ("m" +:+ String i_acute "tico") || Js.includes lower "mitico"
           || Js.includes lower "mythic" then MYTHIC
        else if Js.includes lower "oro" || Js.includes lower "gold" then GOLD
        else if Js.includes lower "plata" || Js.includes lower "silver" then SILVER
        else if Js.includes lower "tap" || Js.includes lower "room" then TAP_ROOM
        else COMMON
  end.

(** The four variables that the strategies of [parsePlacemark] fill in. *)
Record extras : Type := mkExtras {
  x_website : string;
  x_googleMapsUri : string;
  x_address : string;
  x_aliveStatus : AliveStatus
}.

Definition websiteKeys : list string := ["website"; "web"; "url"; "site"; "gx_media_links"].
Definition simpleWebsiteKeys : list string := ["website"; "web"; "url"; "site"].
Definition mapsKeys : list string :=
  ["googlemapsuri"; "google_maps_uri"; "maps_link"; "map_link"; "google_maps"].
Definition addressKeys : list string :=
  ["address"; "direccion"; "direcci" +:+ String "243"%char "n"; "location"].
Definition statusKeys : list string := ["alivestatus"; "status"; "active"].

Definition readStatus (value : string) (old : AliveStatus) : AliveStatus :=
  if String.eqb value "active" then active
  else if String.eqb value "inactive" then inactive
  else if String.eqb value "unknown" then unknown
  else old.

(** What both loops do with a name and a value, [firstWord] telling
    whether the website is cut at its first space (strategy 1) and [keys]
    being the loop's website names. *)
Definition assign (keys : list string) (firstWord : bool) (x : extras)
    (nameAttr value : option string) : extras :=
  match nameAttr, value with
  | Some n, Some v =>
      if Js.truthy n && Js.truthy v then
        if Js.arrayIncludes keys n then
          mkExtras (if firstWord then default "" (head (Js.split " " v)) else v)
                   (x_googleMapsUri x) (x_address x) (x_aliveStatus x)
        else if Js.arrayIncludes mapsKeys n then
          mkExtras (x_website x) v (x_address x) (x_aliveStatus x)
        else if Js.arrayIncludes addressKeys n then
          mkExtras (x_website x) (x_googleMapsUri x) v (x_aliveStatus x)
        else if Js.arrayIncludes statusKeys n then
          mkExtras (x_website x) (x_googleMapsUri x) (x_address x)
                   (readStatus v (x_aliveStatus x))
        else x
      else x
  | _, _ => x
  end.

(** Strategy 1, one [Data] node. *)
Definition dataStep (x : extras) (dataNode : Dom.node) : extras :=
  assign websiteKeys true x
    (Js.toLowerCase <$> Dom.getAttribute dataNode "name")
    (Js.trim <$> (Dom.textContent <$> head (Dom.getElementsByTagName dataNode "value"))).

(** Strategy 2, one [SimpleData] node. *)
Definition simpleDataStep (x : extras) (dataNode : Dom.node) : extras :=
  assign simpleWebsiteKeys false x
    (Js.toLowerCase <$> Dom.getAttribute dataNode "name")
    (Some (Js.trim (Dom.textContent dataNode))).

Definition isMapsLink (href : string) : bool :=
  Js.includes href "google.com/maps" || Js.includes href "maps.google.com"
  || Js.includes href "goo.gl/maps".

(** Strategy 3, one anchor of the description. *)
Definition linkStep (x : extras) (href : option string) : extras :=
  match href with
  | Some h =>
      if Js.truthy h then
        if isMapsLink h then
          if Js.truthy (x_googleMapsUri x) then x
          else mkExtras (x_website x) h (x_address x) (x_aliveStatus x)
        else
          if Js.truthy (x_website x) then x
          else mkExtras h (x_googleMapsUri x) (x_address x) (x_aliveStatus x)
      else x
  | None => x
  end.

(** The expression [/<br\s*\/?>/gi] at the start of a string. *)
Fixpoint countWhiteSpace (s : string) : nat :=
  match s with
  | "" => 0
  | String c s' => if Js.isWhiteSpace c then S (countWhiteSpace s') else 0
  end.

Definition brLength (s : string) : option nat :=
  match s with
  | String "<" (String b (String r rest)) =>
      if (Ascii.eqb b "b" || Ascii.eqb b "B") && (Ascii.eqb r "r" || Ascii.eqb r "R") then
        let w := countWhiteSpace rest in
        match Js.dropChars w rest with
        | String ">" _ => Some (3 + w + 1)
        | String "/" (String ">" _) => Some (3 + w + 2)
        | _ => None
        end
      else None
  | _ => None
  end.

(** The expression [/<[^>]+>/g] at the start of a string. *)
Fixpoint indexOfGt (s : string) : option nat :=
  match s with
  | "" => None
  | String c s' => if Ascii.eqb c ">" then Some 0 else S <$> indexOfGt s'
  end.

Definition tagLength (s : string) : option nat :=
  match s with
  | String "<" rest =>
      match indexOfGt rest with
      | Some (S i) => Some (S i + 2)
      | _ => None
      end
  | _ => None
  end.

Definition cleanDescription (description : string) : string :=
  Js.trim
    (Js.replaceAll tagLength "" 0
       (Js.replaceAll brLength (String Dom.LF "") 0 description)).

Section App.

(** The browser's HTML parser, as [parsePlacemark] sees it: the [href]
    attribute ([None] when there is none) of every [a] element that
    [div.innerHTML = description] creates, in document order. *)
Variable anchorHrefs : string -> list (option string).

(** [parsePlacemark]; [newId] is what [generateId()] returns if it is
    called. *)
Definition parsePlacemark (newId : string) (p : Dom.node)
    (defaultCategory : BreweryCategory) : option Brewery :=
  let name :=
    orElse (Dom.textContent <$> head (Dom.getElementsByTagName p "name")) "Unknown Location" in
  let description :=
    orElse (Dom.textContent <$> head (Dom.getElementsByTagName p "description")) "" in
  let x0 := mkExtras "" "" "" unknown in
  let x1 := fold_left dataStep (Dom.getElementsByTagName p "Data") x0 in
  let x2 := fold_left simpleDataStep (Dom.getElementsByTagName p "SimpleData") x1 in
  let x3 :=
    if negb (Js.truthy (x_website x2)) || negb (Js.truthy (x_googleMapsUri x2))
    then fold_left linkStep (anchorHrefs description) x2
    else x2 in
  let point := head (Dom.getElementsByTagName p "Point") in
  let coordinatesTag := point ≫= fun pt => head (Dom.getElementsByTagName pt "coordinates") in
  let coordsRaw := Js.trim <$> (Dom.textContent <$> coordinatesTag) in
  match coordsRaw with
  | Some raw =>
      if Js.truthy raw then
        let parts := Js.split "," raw in
        let lng := parseFloat (parts !! 0%nat) in
        let lat := parseFloat (parts !! 1%nat) in
        if negb (isNaN lat) && negb (isNaN lng) then
          Some {| id := newId;
                  name := name;
                  description := cleanDescription description;
                  category := defaultCategory;
                  coordinates := mkCoordinates lat lng;
                  address := Some (x_address x3);
                  website := if Js.truthy (x_website x3) then Some (x_website x3) else None;
                  googleMapsUri :=
                    if Js.truthy (x_googleMapsUri x3) then Some (x_googleMapsUri x3) else None;
                  aliveStatus := Some (x_aliveStatus x3);
                  lastAliveCheck := None |}
        else None
      else None
  | None => None
  end.

(** One of the loops over placemarks: [ids k] is the [k]-th identifier that
    [generateId] hands out during the import, [used] how many it has handed
    out so far.  The result is what the loop pushes on [newBreweries]. *)
Fixpoint parsePlacemarks (ids : nat -> string) (used : nat) (placemarks : list Dom.node)
    (category : BreweryCategory) : list Brewery :=
  match placemarks with
  | [] => []
  | p :: rest =>
      match parsePlacemark (ids used) p category with
      | Some b => b :: parsePlacemarks ids (S used) rest category
      | None => parsePlacemarks ids used rest category
      end
  end.

(** The loop over folders; the flag is [foundInFolders]. *)
Fixpoint parseFolders (ids : nat -> string) (used : nat) (folders : list Dom.node)
  : list Brewery * bool :=
  match folders with
  | [] => ([], false)
  | folder :: rest =>
      let folderName :=
        orElse (Dom.textContent <$> head (Dom.getElementsByTagName folder "name")) "" in
      let category := getCategoryFromFolder folderName in
      let placemarks := Dom.getElementsByTagName folder "Placemark" in
      let here := parsePlacemarks ids used placemarks category in
      let '(later, found) := parseFolders ids (used + length here) rest in
      (here ++ later, negb (length placemarks =? 0) || found)
  end.

(** The first half of [parseKML]: the array [newBreweries]. *)
Definition decodeKML (ids : nat -> string) (xmlString : string) : list Brewery :=
  let xmlDoc := Dom.parseFromString xmlString in
  let '(inFolders, foundInFolders) :=
    parseFolders ids 0 (Dom.documentElementsByTagName xmlDoc "Folder") in
  if foundInFolders then inFolders
  else inFolders ++
       parsePlacemarks ids (length inFolders)
         (Dom.documentElementsByTagName xmlDoc "Placemark") COMMON.

(** ** [App.tsx]: writing a KML file *)

Definition nl : string := String Dom.LF "".
Definition q : string := String Dom.dquote "".

(** One line of the [ExtendedData] block: the entry when the field is
    truthy, nothing otherwise. *)
Definition dataEntry (key : string) (field : option string) : string :=
  match field with
  | Some v =>
      if Js.truthy v
      then "<Data name=" +:+ q +:+ key +:+ q +:+ "><value><![CDATA[" +:+ v
           +:+ "]]></value></Data>"
      else ""
  | None => ""
  end.

Definition placemarkText (b : Brewery) : string :=
  "      <Placemark>" +:+ nl +:+
  "        <name><![CDATA[" +:+ name b +:+ "]]></name>" +:+ nl +:+
  "        <description><![CDATA[" +:+ description b +:+ "]]></description>" +:+ nl +:+
  "        <ExtendedData>" +:+ nl +:+
  "          " +:+ dataEntry "address" (address b) +:+ nl +:+
  "          " +:+ dataEntry "website" (website b) +:+ nl +:+
  "          " +:+ dataEntry "googleMapsUri" (googleMapsUri b) +:+ nl +:+
  "          " +:+ dataEntry "aliveStatus" (statusValue <$> aliveStatus b) +:+ nl +:+
  "        </ExtendedData>" +:+ nl +:+
  "        <Point>" +:+ nl +:+
  "          <coordinates>" +:+ numberToString (lng (coordinates b)) +:+ ","
    +:+ numberToString (lat (coordinates b)) +:+ ",0</coordinates>" +:+ nl +:+
  "        </Point>" +:+ nl +:+
  "      </Placemark>" +:+ nl.

Definition folderText (breweries : list Brewery) (c : BreweryCategory) : string :=
  let categoryBreweries := List.filter (fun b => bool_decide (category b = c)) breweries in
  match categoryBreweries with
  | [] => ""
  | _ =>
      "    <Folder>" +:+ nl +:+
      "      <name>" +:+ categoryValue c +:+ "</name>" +:+ nl +:+
      foldr (fun b rest => placemarkText b +:+ rest) "" categoryBreweries +:+
      "    </Folder>" +:+ nl
  end.

(** The text that [exportKML] puts in the file it offers for download. *)
Definition exportKML (breweries : list Brewery) : string :=
  "<?xml version=" +:+ q +:+ "1.0" +:+ q +:+ " encoding=" +:+ q +:+ "UTF-8" +:+ q +:+ "?>" +:+ nl +:+
  "<kml xmlns=" +:+ q +:+ "http://www.opengis.net/kml/2.2" +:+ q +:+ ">" +:+ nl +:+
  "  <Document>" +:+ nl +:+
  "    <name>Craft Beer Map Spain</name>" +:+ nl +:+
  foldr (fun c rest => folderText breweries c +:+ rest) "" allCategories +:+
  "  </Document>" +:+ nl +:+
  "</kml>".


(** ** [App.tsx]: the two collections and their handlers *)

Record AppState : Type := mkApp {
  breweries : list Brewery;
  foundBreweries : list Brewery;
  selectedBreweryId : option string;
  editModalOpen : bool;
  editingBrewery : option Brewery
}.

(** [INITIAL_BREWERIES], an empty storage and the initial values of the
    other state variables. *)
Definition initialState : AppState := mkApp [] [] None false None.

Definition setBreweries (f : list Brewery -> list Brewery) (st : AppState) : AppState :=
  mkApp (f (breweries st)) (foundBreweries st) (selectedBreweryId st)
        (editModalOpen st) (editingBrewery st).

Definition setFoundBreweries (f : list Brewery -> list Brewery) (st : AppState) : AppState :=
  mkApp (breweries st) (f (foundBreweries st)) (selectedBreweryId st)
        (editModalOpen st) (editingBrewery st).

Definition setSelectedBreweryId (i : option string) (st : AppState) : AppState :=
  mkApp (breweries st) (foundBreweries st) i (editModalOpen st) (editingBrewery st).

Definition setEditModalOpen (o : bool) (st : AppState) : AppState :=
  mkApp (breweries st) (foundBreweries st) (selectedBreweryId st) o (editingBrewery st).

Definition setEditingBrewery (b : option Brewery) (st : AppState) : AppState :=
  mkApp (breweries st) (foundBreweries st) (selectedBreweryId st) (editModalOpen st) b.

(** [b.id === i]. *)
Definition hasId (i : string) (b : Brewery) : bool := String.eqb (id b) i.

(** [new Set(prev.map(b => b.name.toLowerCase()))]. *)
Definition existingNames (prev : list Brewery) : gset string :=
  list_to_set ((fun b => Js.toLowerCase (name b)) <$> prev).

(** The update that [parseKML] hands to [setBreweries]. *)
Definition mergeImported (prev newBreweries : list Brewery) : list Brewery :=
  let names := existingNames prev in
  let uniqueNew := filter (fun b => Js.toLowerCase (name b) ∉ names) newBreweries in
  prev ++ uniqueNew.

(** [parseKML]: the new state and the text of the alert, if one is shown. *)
Definition parseKML (ids : nat -> string) (xmlString : string) (silent : bool)
    (st : AppState) : AppState * option string :=
  let newBreweries := decodeKML ids xmlString in
  if (0 <? length newBreweries)%nat then
    (setBreweries (fun prev => mergeImported prev newBreweries) st,
     if silent then None
     else Some ("Successfully imported " +:+ pretty (length newBreweries)
                +:+ " locations from KML."))
  else
    (st, if silent then None else Some "No valid locations found in KML file.").

(** [handleSearch], from the answer of the search service on: the found
    list was emptied when the search started. *)
Definition handleSearch (resultBreweries : list Brewery) (st : AppState) : AppState :=
  match resultBreweries with
  | [] => setFoundBreweries (fun _ => []) st
  | _ =>
      let names := existingNames (breweries st) in
      let newFound :=
        List.filter
          (fun b => Js.truthy (name b) && bool_decide (Js.toLowerCase (name b) ∉ names))
          resultBreweries in
      let st1 := setFoundBreweries (fun _ => newFound) st in
      match newFound with
      | b :: _ => if Js.truthy (id b) then setSelectedBreweryId (Some (id b)) st1 else st1
      | [] => st1
      end
  end.

(** [{ ...b, aliveStatus: status, lastAliveCheck: date }]. *)
Definition withHealth (status : AliveStatus) (date : string) (b : Brewery) : Brewery :=
  {| id := id b; name := name b; description := description b; category := category b;
     coordinates := coordinates b; address := address b; website := website b;
     googleMapsUri := googleMapsUri b;
     aliveStatus := Some status; lastAliveCheck := Some date |}.

Definition healthUpdate (i : string) (status : AliveStatus) (date : string)
    (prev : list Brewery) : list Brewery :=
  (fun b => if hasId i b then withHealth status date b else b) <$> prev.

(** [handleCheckStatus], [status] and [date] being the answer of
    [checkBreweryHealth]. *)
Definition handleCheckStatus (i : string) (status : AliveStatus) (date : string)
    (st : AppState) : AppState :=
  match List.find (hasId i) (breweries st) with
  | Some _ => setBreweries (healthUpdate i status date) st
  | None =>
      match List.find (hasId i) (foundBreweries st) with
      | Some _ => setFoundBreweries (healthUpdate i status date) st
      | None => st
      end
  end.

Definition handleAddToMap (brewery : Brewery) (st : AppState) : AppState :=
  setFoundBreweries (List.filter (fun b => negb (hasId (id brewery) b)))
    (setBreweries (fun prev => prev ++ [brewery]) st).

Definition handleDiscardFound (i : string) (st : AppState) : AppState :=
  setFoundBreweries (List.filter (fun b => negb (hasId i b))) st.

Definition handleEdit (i : string) (st : AppState) : AppState :=
  match List.find (hasId i) (breweries st) with
  | Some target => setEditModalOpen true (setEditingBrewery (Some target) st)
  | None => st
  end.

Definition handleEditFound (i : string) (st : AppState) : AppState :=
  match List.find (hasId i) (foundBreweries st) with
  | Some target => setEditModalOpen true (setEditingBrewery (Some target) st)
  | None => st
  end.

Definition replaceById (updated : Brewery) (prev : list Brewery) : list Brewery :=
  (fun b => if hasId (id updated) b then updated else b) <$> prev.

Definition handleSave (updated : Brewery) (st : AppState) : AppState :=
  if existsb (hasId (id updated)) (breweries st) then
    setBreweries (replaceById updated) st
  else if existsb (hasId (id updated)) (foundBreweries st) then
    setFoundBreweries (replaceById updated) st
  else st.

(** [handleDelete]; [confirmed] is the answer of [window.confirm]. *)
Definition handleDelete (i : string) (confirmed : bool) (st : AppState) : AppState :=
  if confirmed then
    let st1 := setBreweries (List.filter (fun b => negb (hasId i b))) st in
    if bool_decide (selectedBreweryId st = Some i) then setSelectedBreweryId None st1 else st1
  else st.

Definition handleClearAll (confirmed : bool) (st : AppState) : AppState :=
  if confirmed then setBreweries (fun _ => []) st else st.

(** The record that the round [+] button creates. *)
Definition newLocation (newId : string) : Brewery :=
  {| id := newId; name := "New Location"; description := "Description here";
     category := COMMON;
     coordinates := mkCoordinates (Finite false [4; 0; 4; 1; 6; 8]%N 2)
                                  (Finite true [3; 7; 0; 3; 8]%N 1);
     address := Some ""; website := None; googleMapsUri := None;
     aliveStatus := None; lastAliveCheck := None |}.

(** The click on the round [+] button: [handleEdit] runs against the list
    of the current render, where the new record is not yet. *)
Definition handleAddManual (newId : string) (st : AppState) : AppState :=
  let st1 := handleEdit newId st in
  setBreweries (fun prev => prev ++ [newLocation newId]) st1.

(** ** [components/EditModal.tsx] *)

(** What [handleChange] can receive: the name of one of the seven inputs
    and its new value. *)
Inductive Change : Type :=
| ChangeName (value : string)
| ChangeCategory (value : BreweryCategory)
| ChangeAliveStatus (value : AliveStatus)
| ChangeDescription (value : string)
| ChangeAddress (value : string)
| ChangeWebsite (value : string)
| ChangeGoogleMapsUri (value : string).

(** [setFormData(brewery)]. *)
Definition formOf (b : Brewery) : PartialBrewery :=
  {| p_id := Some (id b); p_name := Some (name b); p_description := Some (description b);
     p_category := Some (category b); p_coordinates := Some (coordinates b);
     p_address := address b; p_website := website b; p_googleMapsUri := googleMapsUri b;
     p_aliveStatus := aliveStatus b; p_lastAliveCheck := lastAliveCheck b |}.

(** [{ ...prev, [name]: value }]. *)
Definition handleChange (prev : PartialBrewery) (c : Change) : PartialBrewery :=
  let upd n d cat a w g s :=
    mkPartial (p_id prev) n d cat (p_coordinates prev) a w g s (p_lastAliveCheck prev) in
  let n := p_name prev in let d := p_description prev in let cat := p_category prev in
  let a := p_address prev in let w := p_website prev in let g := p_googleMapsUri prev in
  let s := p_aliveStatus prev in
  match c with
  | ChangeName v => upd (Some v) d cat a w g s
  | ChangeCategory v => upd n d (Some v) a w g s
  | ChangeAliveStatus v => upd n d cat a w g (Some v)
  | ChangeDescription v => upd n (Some v) cat a w g s
  | ChangeAddress v => upd n d cat (Some v) w g s
  | ChangeWebsite v => upd n d cat a (Some v) g s
  | ChangeGoogleMapsUri v => upd n d cat a w (Some v) s
  end.

Definition orField {A : Type} (x y : option A) : option A :=
  match x with
  | Some _ => x
  | None => y
  end.

(** [{ ...brewery, ...formData }]. *)
Definition overlay (brewery : Brewery) (formData : PartialBrewery) : Brewery :=
  {| id := default (id brewery) (p_id formData);
     name := default (name brewery) (p_name formData);
     description := default (description brewery) (p_description formData);
     category := default (category brewery) (p_category formData);
     coordinates := default (coordinates brewery) (p_coordinates formData);
     address := orField (p_address formData) (address brewery);
     website := orField (p_website formData) (website brewery);
     googleMapsUri := orField (p_googleMapsUri formData) (googleMapsUri brewery);
     aliveStatus := orField (p_aliveStatus formData) (aliveStatus brewery);
     lastAliveCheck := orField (p_lastAliveCheck formData) (lastAliveCheck brewery) |}.

(** The modal's [handleSave]: the record it passes to [onSave], if it
    does. *)
Definition modalSave (brewery : Brewery) (formData : PartialBrewery) : option Brewery :=
  match p_name formData, p_coordinates formData with
  | Some n, Some _ => if Js.truthy n then Some (overlay brewery formData) else None
  | _, _ => None
  end.

(** The [Save Changes] button, after the user made [changes] in the form:
    [onSave] is the app's [handleSave], [onClose] closes the modal. *)
Definition saveChanges (changes : list Change) (st : AppState) : AppState :=
  match editModalOpen st, editingBrewery st with
  | true, Some brewery =>
      match modalSave brewery (fold_left handleChange changes (formOf brewery)) with
      | Some updated => setEditModalOpen false (handleSave updated st)
      | None => st
      end
  | _, _ => st
  end.


(** ** The app as a transition system *)

Inductive Action : Type :=
| ImportKML (ids : nat -> string) (xmlString : string) (silent : bool)
| Search (resultBreweries : list Brewery)
| CheckStatus (i : string) (status : AliveStatus) (date : string)
| AddToMap (brewery : Brewery)
| DiscardFound (i : string)
| Edit (i : string)
| EditFound (i : string)
| SaveChanges (changes : list Change)
| CloseModal
| Delete (i : string) (confirmed : bool)
| ClearAll (confirmed : bool)
| AddManual (newId : string).

Definition perform (a : Action) (st : AppState) : AppState :=
  match a with
  | ImportKML ids xmlString silent => fst (parseKML ids xmlString silent st)
  | Search resultBreweries => handleSearch resultBreweries st
  | CheckStatus i status date => handleCheckStatus i status date st
  | AddToMap brewery => handleAddToMap brewery st
  | DiscardFound i => handleDiscardFound i st
  | Edit i => handleEdit i st
  | EditFound i => handleEditFound i st
  | SaveChanges changes => saveChanges changes st
  | CloseModal => setEditModalOpen false st
  | Delete i confirmed => handleDelete i confirmed st
  | ClearAll confirmed => handleClearAll confirmed st
  | AddManual newId => handleAddManual newId st
  end.

(** The interface offers [Add to Map] only on the records of the found
    list. *)
Definition offered (st : AppState) (a : Action) : Prop :=
  match a with
  | AddToMap brewery => brewery ∈ foundBreweries st
  | _ => True
  end.

Inductive reachable : AppState -> Prop :=
| reachable_initial : reachable initialState
| reachable_perform st a : reachable st -> offered st a -> reachable (perform a st).

End App.

(** ** [App.tsx] and [components/Sidebar.tsx]: the category filter *)

(** [prev.includes(category)]. *)
Definition includesCategory (prev : list BreweryCategory) (category : BreweryCategory) : bool :=
  existsb (fun c => bool_decide (c = category)) prev.

(** The update of [toggleCategory]; the sidebar's [toggleExpanded] makes
    the same one. *)
Definition toggleCategory (category : BreweryCategory) (prev : list BreweryCategory)
  : list BreweryCategory :=
  if includesCategory prev category
  then List.filter (fun c => negb (bool_decide (c = category))) prev
  else prev ++ [category].

(** [filteredBreweries], the committed records that the map shows. *)
Definition filteredBreweries (breweries : list Brewery)
    (selectedCategories : list BreweryCategory) : list Brewery :=
  List.filter (fun b => includesCategory selectedCategories (category b)) breweries.

(** The groups of the sidebar, in the order of the panel, and the records
    of one group. *)
Definition sidebarCategories : list BreweryCategory :=
  [MYTHIC; GOLD; TAP_ROOM; SILVER; COMMON].

Definition categoryItems (breweries : list Brewery) (c : BreweryCategory) : list Brewery :=
  List.filter (fun b => bool_decide (category b = c)) breweries.

(** ** [services/geminiService.ts]: the text of a response *)

(** The expression [/```json/gi] at the start of a string. *)
Definition jsonFenceLength (s : string) : option nat :=
  match s with
  | String "`" (String "`" (String "`" (String j (String s' (String o (String n _)))))) =>
      if (Ascii.eqb j "j" || Ascii.eqb j "J") && (Ascii.eqb s' "s" || Ascii.eqb s' "S")
         && (Ascii.eqb o "o" || Ascii.eqb o "O") && (Ascii.eqb n "n" || Ascii.eqb n "N")
      then Some 7 else None
  | _ => None
  end.

(** The expression [/```/g] at the start of a string. *)
Definition fenceLength (s : string) : option nat :=
  if Js.startsWith s "```" then Some 3 else None.

(** What [searchBreweriesWithGemini] and [checkBreweryHealth] hand to
    [JSON.parse]: the text of the response, [{}] when there is none, without
    Markdown code fences and trimmed. *)
Definition cleanResponse (text : option string) : string :=
  let resultText := orElse text "{}" in
  Js.trim (Js.replaceAll fenceLength "" 0 (Js.replaceAll jsonFenceLength "" 0 resultText)).

(** * Properties *)

(** ** Vocabulary

    The words of the properties, and the sample data of their instances. *)

(** *** The merge of an import *)

(** The claim's words: two names are the same case-insensitively when
    their lower-case forms are equal, a record collides when its name is
    the same as that of some existing record, and the merge keeps the
    existing records and appends the incoming ones that do not collide. *)
Definition sameNameIgnoringCase (a b : Brewery) : bool :=
  String.eqb (Js.toLowerCase (name a)) (Js.toLowerCase (name b)).

Definition collides (existing : list Brewery) (b : Brewery) : bool :=
  existsb (sameNameIgnoringCase b) existing.

Definition mergeImported_spec (existing incoming : list Brewery) : list Brewery :=
  existing ++ List.filter (fun b => negb (collides existing b)) incoming.

(** A sample record, in Madrid. *)
Definition venue (i n : string) : Brewery :=
  {| id := i; name := n; description := ""; category := COMMON;
     coordinates := mkCoordinates (Finite false [4; 0; 4; 1; 6; 8]%N 2)
                                  (Finite true [3; 7; 0; 3; 8]%N 1);
     address := None; website := None; googleMapsUri := None;
     aliveStatus := None; lastAliveCheck := None |}.

(** *** The count that an import reports *)

(** A file with two placemarks and no description, hence no anchor for the
    HTML parser to find. *)
Definition noAnchors : string -> list (option string) := fun _ => [].

Definition twoPlacemarks : string :=
  "<kml><Document>" +:+
  "<Placemark><name>ROW 44</name><Point><coordinates>-3.7,40.4,0</coordinates></Point></Placemark>" +:+
  "<Placemark><name>New Place</name><Point><coordinates>2.17,41.38,0</coordinates></Point></Placemark>" +:+
  "</Document></kml>".

Definition row44Only : AppState := mkApp [venue "1" "Row 44"] [] None false None.

(** *** Promotion from the found list *)

Definition countId (i : string) (l : list Brewery) : nat :=
  length (List.filter (hasId i) l).

(** *** The health check *)



(** *** Names in the committed collection *)

Definition lowerNames (l : list Brewery) : list string :=
  (fun b => Js.toLowerCase (name b)) <$> l.

(** No two records with names equal case-insensitively. *)
Definition uniqueNames (l : list Brewery) : Prop := NoDup (lowerNames l).

(** The record that [Save Changes] would hand to [handleSave]. *)
Definition savedRecord (changes : list Change) (st : AppState) : option Brewery :=
  match editModalOpen st, editingBrewery st with
  | true, Some brewery => modalSave brewery (fold_left handleChange changes (formOf brewery))
  | _, _ => None
  end.

(** What an action must respect for the names to stay apart, since no
    handler checks it: an import brings no name twice, a promotion or a
    manual addition brings a name that is not committed, and a saved edit
    has the id of at most one committed record and a name that no other
    committed record has. *)
Definition keepsNamesApart (anchorHrefs : string -> list (option string))
    (st : AppState) (a : Action) : Prop :=
  match a with
  | ImportKML ids xmlString _ => uniqueNames (decodeKML anchorHrefs ids xmlString)
  | AddToMap brewery => Js.toLowerCase (name brewery) ∉ lowerNames (breweries st)
  | AddManual _ => Js.toLowerCase "New Location" ∉ lowerNames (breweries st)
  | SaveChanges changes =>
      match savedRecord changes st with
      | Some updated =>
          countId (id updated) (breweries st) <= 1
          /\ forall b, b ∈ breweries st -> hasId (id updated) b = false ->
                       Js.toLowerCase (name b) <> Js.toLowerCase (name updated)
      | None => True
      end
  | _ => True
  end.

Inductive reachableApart (anchorHrefs : string -> list (option string))
  : AppState -> Prop :=
| apart_initial : reachableApart anchorHrefs initialState
| apart_perform st a :
    reachableApart anchorHrefs st -> offered st a -> keepsNamesApart anchorHrefs st a ->
    reachableApart anchorHrefs (perform anchorHrefs a st).

Definition afterImport : AppState :=
  perform noAnchors (ImportKML (fun k => pretty k) twoPlacemarks true) initialState.

Definition afterImportAndAdd : AppState :=
  perform noAnchors (Delete "0" true) (perform noAnchors (AddManual "m1") afterImport).

(** *** Placemarks without usable coordinates *)

(** The claim's words: a placemark lacks a point geometry when it has no
    [Point] element; its coordinate text is the trimmed text of the
    [coordinates] element of its first [Point]; the two axes are the first
    two comma-separated fields of that text. *)
Definition lacksPoint (p : Dom.node) : bool :=
  match Dom.getElementsByTagName p "Point" with
  | [] => true
  | _ => false
  end.

Definition coordinateText (p : Dom.node) : option string :=
  match Dom.getElementsByTagName p "Point" with
  | point :: _ =>
      match Dom.getElementsByTagName point "coordinates" with
      | c :: _ => Some (Js.trim (Dom.textContent c))
      | [] => None
      end
  | [] => None
  end.

Definition axisNaN (raw : string) : bool :=
  let fields := Js.split "," raw in
  isNaN (parseFloat (fields !! 0%nat)) || isNaN (parseFloat (fields !! 1%nat)).

Definition unusable (p : Dom.node) : bool :=
  lacksPoint p ||
  match coordinateText p with
  | Some raw => axisNaN raw
  | None => false
  end.

(** A folder with a placemark whose coordinate text is
    [notanumber,40.1] and one without a point, between two sound ones. *)
Definition mixedFolder : string :=
  "<kml><Document><Folder><name>Lupulo de Oro</name>" +:+
  "<Placemark><name>First</name><Point><coordinates>-3.7,40.4,0</coordinates></Point></Placemark>" +:+
  "<Placemark><name>Broken</name><Point><coordinates>notanumber,40.1</coordinates></Point></Placemark>" +:+
  "<Placemark><name>Pointless</name><description>no geometry</description></Placemark>" +:+
  "<Placemark><name>Last</name><Point><coordinates>2.17,41.38</coordinates></Point></Placemark>" +:+
  "</Folder></Document></kml>".

Definition farAway : string :=
  "<kml><Document>" +:+
  "<Placemark><name>Far away</name><Point><coordinates>Infinity,40.1,0</coordinates></Point></Placemark>" +:+
  "</Document></kml>".

(** *** Characters and texts *)

(** A string without the character [x]. *)
Definition without (x : ascii) (s : string) : bool :=
  Js.every (fun c => negb (Ascii.eqb c x)) s.

(** *** The file of one record *)

(** The markup between the texts of the file that [exportKML] writes for
    one record. *)
Definition upToFolderName : string :=
  "<?xml version=" +:+ q +:+ "1.0" +:+ q +:+ " encoding=" +:+ q +:+ "UTF-8" +:+ q +:+ "?>" +:+ nl +:+
  "<kml xmlns=" +:+ q +:+ "http://www.opengis.net/kml/2.2" +:+ q +:+ ">" +:+ nl +:+
  "  <Document>" +:+ nl +:+
  "    <name>Craft Beer Map Spain</name>" +:+ nl +:+
  "    <Folder>" +:+ nl +:+
  "      <name>".

Definition upToName : string :=
  "</name>" +:+ nl +:+
  "      <Placemark>" +:+ nl +:+
  "        <name>".

Definition upToDescription : string :=
  "</name>" +:+ nl +:+
  "        <description>".

Definition upToData (key : string) : string :=
  "<Data name=" +:+ q +:+ key +:+ q +:+ "><value>".

Definition upToAddress : string :=
  "</description>" +:+ nl +:+
  "        <ExtendedData>" +:+ nl +:+
  "          " +:+ upToData "address".

Definition upToNextData (key : string) : string :=
  "</value></Data>" +:+ nl +:+
  "          " +:+ upToData key.

Definition upToCoordinates : string :=
  "</value></Data>" +:+ nl +:+
  "        </ExtendedData>" +:+ nl +:+
  "        <Point>" +:+ nl +:+
  "          <coordinates>".

Definition upToEnd : string :=
  "</coordinates>" +:+ nl +:+
  "        </Point>" +:+ nl +:+
  "      </Placemark>" +:+ nl +:+
  "    </Folder>" +:+ nl +:+
  "  </Document>" +:+ nl +:+
  "</kml>".

Definition cdataSection (p rest : string) : string :=
  "<![CDATA[" +:+ p +:+ "]]>" +:+ rest.

(** The file, as a function of the texts in it: the folder's name, the
    record's fields and the text of the coordinates. *)
Definition kmlText (cv nm d a w g sv ct : string) : string :=
  upToFolderName +:+ cv +:+
  upToName +:+ cdataSection nm (
  upToDescription +:+ cdataSection d (
  upToAddress +:+ cdataSection a (
  upToNextData "website" +:+ cdataSection w (
  upToNextData "googleMapsUri" +:+ cdataSection g (
  upToNextData "aliveStatus" +:+ cdataSection sv (
  upToCoordinates +:+ ct +:+ upToEnd)))))).

Definition folderNameTokens : list Dom.token :=
  Eval vm_compute in Dom.lex Dom.InText upToFolderName.
Definition nameTokens : list Dom.token :=
  Eval vm_compute in Dom.lex Dom.InText upToName.
Definition descriptionTokens : list Dom.token :=
  Eval vm_compute in Dom.lex Dom.InText upToDescription.
Definition addressTokens : list Dom.token :=
  Eval vm_compute in Dom.lex Dom.InText upToAddress.
Definition websiteTokens : list Dom.token :=
  Eval vm_compute in Dom.lex Dom.InText (upToNextData "website").
Definition googleMapsUriTokens : list Dom.token :=
  Eval vm_compute in Dom.lex Dom.InText (upToNextData "googleMapsUri").
Definition aliveStatusTokens : list Dom.token :=
  Eval vm_compute in Dom.lex Dom.InText (upToNextData "aliveStatus").
Definition coordinatesTokens : list Dom.token :=
  Eval vm_compute in Dom.lex Dom.InText upToCoordinates.
Definition endTokens : list Dom.token :=
  Eval vm_compute in Dom.lex Dom.InText upToEnd.

Definition kmlTokens (cv nm d a w g sv ct : string) : list Dom.token :=
  folderNameTokens ++ Dom.TChars cv ::
    nameTokens ++ Dom.TChars nm ::
    descriptionTokens ++ Dom.TChars d ::
    addressTokens ++ Dom.TChars a ::
    websiteTokens ++ Dom.TChars w ::
    googleMapsUriTokens ++ Dom.TChars g ::
    aliveStatusTokens ++ Dom.TChars sv ::
    coordinatesTokens ++ Dom.TChars ct ::
    endTokens.

(** The tree that the file is read as. *)
Fixpoint spaces (n : nat) : string :=
  match n with
  | O => ""
  | S n' => String " " (spaces n')
  end.

Definition gap (n : nat) : Dom.node := Dom.Text (nl +:+ spaces n).

Definition textElement (tag text : string) : Dom.node :=
  Dom.Element tag [] [Dom.Text text].

Definition dataNode (key value : string) : Dom.node :=
  Dom.Element "Data" [("name", key)] [textElement "value" value].

Definition pointNode (ct : string) : Dom.node :=
  Dom.Element "Point" [] [gap 10; textElement "coordinates" ct; gap 8].

Definition placemarkNode (nm d a w g sv ct : string) : Dom.node :=
  Dom.Element "Placemark" []
    [gap 8; textElement "name" nm;
     gap 8; textElement "description" d;
     gap 8; Dom.Element "ExtendedData" []
              [gap 10; dataNode "address" a;
               gap 10; dataNode "website" w;
               gap 10; dataNode "googleMapsUri" g;
               gap 10; dataNode "aliveStatus" sv;
               gap 8];
     gap 8; pointNode ct;
     gap 6].

Definition folderNode (cv : string) (placemark : Dom.node) : Dom.node :=
  Dom.Element "Folder" [] [gap 6; textElement "name" cv; gap 6; placemark; gap 4].

Definition kmlTree (folder : Dom.node) : Dom.node :=
  Dom.Element "kml" [("xmlns", "http://www.opengis.net/kml/2.2")]
    [gap 2;
     Dom.Element "Document" []
       [gap 4; textElement "name" "Craft Beer Map Spain"; gap 4; folder; gap 2];
     gap 0].

(** The characters that Number::toString writes. *)
Definition numberChar (c : ascii) : bool :=
  isDigit c || existsb (Ascii.eqb c) ["."; "-"; "+"; "e"; "I"; "n"; "f"; "i"; "t"; "y"; "N"; "a"]%char.

(** A character that character data carries unchanged: XML allows it, and
    it starts no markup, no entity and no line end. *)
Definition textChar (c : ascii) : bool :=
  negb (Ascii.eqb c "<") && negb (Ascii.eqb c "&") && negb (Ascii.eqb c Dom.CR)
  && Dom.isXmlChar c.

(** A character of a field of the coordinates: moreover no comma and no
    white space. *)
Definition fieldChar (c : ascii) : bool :=
  textChar c && negb (Ascii.eqb c ",") && negb (Js.isWhiteSpace c).

(** A text that a CDATA section carries unchanged: characters that XML
    allows, no carriage return, which XML reads as a line feed, and nowhere
    the mark that ends the section. *)
Definition cdataText (p : string) : bool :=
  Js.every Dom.isXmlChar p && negb (Js.includes p (String Dom.CR ""))
  && negb (Js.includes p "]]>").

(** A text that character data carries unchanged. *)
Definition plainText (t : string) : bool := Js.every textChar t.

Definition coordinatesText (c : Coordinates) : string :=
  numberToString (lng c) +:+ "," +:+ numberToString (lat c) +:+ ",0".

(** *** Numbers and their text *)

(** The numbers written with their significant digits only, as the type
    means them and as [parseFloat] returns them: decimal digits, the first
    and the last of them not zero, and point 0 for zero. *)
Definition canonical (x : number) : bool :=
  match x with
  | Finite _ [] n => (n =? 0)%Z
  | Finite _ (d :: ds) _ =>
      forallb (fun e => e <? 10)%N (d :: ds) && negb (d =? 0)%N
      && negb (List.last (d :: ds) 0 =? 0)%N
  | _ => true
  end.

(** The zero with the minus sign, which Number::toString writes as [0]. *)
Definition negativeZero (x : number) : bool :=
  match x with
  | Finite true [] _ => true
  | _ => false
  end.

(** What may follow the digits of the text of a number: nothing, or an
    exponent. *)
Definition endsMantissa (r : string) : Prop := r = "" \/ exists r', r = String "e" r'.

(** *** Records that survive the round trip *)

(** A populated optional field that the file carries and the reader takes
    as it is: not empty, text for a CDATA section, nothing for [trim] to
    strip. *)
Definition carried (field : option string) : Prop :=
  exists value, field = Some value /\ value <> "" /\ cdataText value = true
                /\ Js.trim value = value.

(** The records that come back as they went: the claim's populated fields
    and plain description, and what the code asks beyond that.  The name is
    not empty (an empty one is read as [Unknown Location]); every text can
    stand in a CDATA section; the description holds no [<] and, like the
    three optional texts, no white space at its ends, which [trim] would
    strip; the website holds no space, where strategy 1 would cut it; the
    coordinates are numbers written with their significant digits, neither
    NaN, which the reader drops, nor the negative zero, which is written as
    [0]. *)
Record Exportable (v : Brewery) : Prop := {
  name_given : name v <> "";
  name_text : cdataText (name v) = true;
  description_text : cdataText (description v) = true;
  description_plain : Js.includes (description v) "<" = false;
  description_trimmed : Js.trim (description v) = description v;
  address_carried : carried (address v);
  website_carried : carried (website v);
  website_one_word : forall w, website v = Some w -> Js.includes w " " = false;
  googleMapsUri_carried : carried (googleMapsUri v);
  aliveStatus_set : is_Some (aliveStatus v);
  lat_number : isNaN (lat (coordinates v)) = false;
  lng_number : isNaN (lng (coordinates v)) = false;
  lat_canonical : canonical (lat (coordinates v)) = true;
  lng_canonical : canonical (lng (coordinates v)) = true;
  lat_signed : negativeZero (lat (coordinates v)) = false;
  lng_signed : negativeZero (lng (coordinates v)) = false
}.

(** A record with every optional field populated and a plain
    description. *)
Definition laVirgen : Brewery :=
  {| id := "v1"; name := "Cervezas La Virgen"; description := "Brewpub with a tap room";
     category := GOLD;
     coordinates := mkCoordinates (Finite false [4; 0; 4; 1; 6; 8]%N 2)
                                  (Finite true [3; 7; 0; 3; 8]%N 1);
     address := Some "Calle Turbina 13, Las Rozas";
     website := Some "https://example.com/la-virgen";
     googleMapsUri := Some "https://maps.google.com/?q=la+virgen";
     aliveStatus := Some active; lastAliveCheck := None |}.

(** The same record with a space in its website. *)
Definition laVirgenSpaced : Brewery :=
  {| id := "v1"; name := "Cervezas La Virgen"; description := "Brewpub with a tap room";
     category := GOLD;
     coordinates := mkCoordinates (Finite false [4; 0; 4; 1; 6; 8]%N 2)
                                  (Finite true [3; 7; 0; 3; 8]%N 1);
     address := Some "Calle Turbina 13, Las Rozas";
     website := Some "https://example.com/la virgen";
     googleMapsUri := Some "https://maps.google.com/?q=la+virgen";
     aliveStatus := Some active; lastAliveCheck := None |}.

(** *** Further words *)

(** A record without what an import renews: its id. *)
Definition anonymous (b : Brewery) : Brewery :=
  {| id := ""; name := name b; description := description b; category := category b;
     coordinates := coordinates b; address := address b; website := website b;
     googleMapsUri := googleMapsUri b; aliveStatus := aliveStatus b;
     lastAliveCheck := lastAliveCheck b |}.

(** What an import gives to each of its records, whatever the file says. *)
Definition wellFormed (b : Brewery) : Prop :=
  name b <> "" /\ is_Some (address b) /\ website b <> Some ""
  /\ googleMapsUri b <> Some "" /\ is_Some (aliveStatus b) /\ lastAliveCheck b = None
  /\ Js.trim (description b) = description b.


(** Every record of both collections has a name. *)
Definition allNamed (st : AppState) : Prop :=
  Forall (fun b => name b <> "") (breweries st)
  /\ Forall (fun b => name b <> "") (foundBreweries st).

(** A state with the editor open, after a click on the round [+] button
    and one on the new record's pencil. *)
Definition editingNew : AppState :=
  perform noAnchors (Edit "m1") (perform noAnchors (AddManual "m1") initialState).

(** *** Links in a description *)

(** The first of the links that is not empty and is of the wanted kind,
    the empty string when there is none. *)
Fixpoint firstLink (wanted : string -> bool) (hrefs : list (option string)) : string :=
  match hrefs with
  | [] => ""
  | Some h :: rest => if Js.truthy h && wanted h then h else firstLink wanted rest
  | None :: rest => firstLink wanted rest
  end.

(** *** Descriptions without tags *)

(** No position of the string starts a match of [/<[^>]+>/]: after each
    [<] comes a [>] at once, or none at all. *)
Fixpoint noTag (s : string) : bool :=
  match s with
  | "" => true
  | String c s' =>
      (negb (Ascii.eqb c "<") || Js.startsWith s' ">" || without ">" s') && noTag s'
  end.

(** *** What a file keeps of a record *)

(** A record without its id and without the date of its last health
    check. *)
Definition written (b : Brewery) : Brewery :=
  {| id := ""; name := name b; description := description b; category := category b;
     coordinates := coordinates b; address := address b; website := website b;
     googleMapsUri := googleMapsUri b; aliveStatus := aliveStatus b;
     lastAliveCheck := None |}.

(** *** The file of a collection *)

(** A record as an import gives it back: with a new id and without the
    date of its last health check. *)
Definition reread (i : string) (b : Brewery) : Brewery :=
  {| id := i; name := name b; description := description b; category := category b;
     coordinates := coordinates b; address := address b; website := website b;
     googleMapsUri := googleMapsUri b; aliveStatus := aliveStatus b;
     lastAliveCheck := None |}.

(** The records in the order of the file: category by category, in the
    order of the enum, and within a category as they were. *)
Definition byCategory (l : list Brewery) : list Brewery :=
  concat (categoryItems l <$> allCategories).

(** The markup of the file of a collection, cut where a text begins. *)
Definition documentHead : string :=
  "<?xml version=" +:+ q +:+ "1.0" +:+ q +:+ " encoding=" +:+ q +:+ "UTF-8" +:+ q +:+ "?>" +:+ nl +:+
  "<kml xmlns=" +:+ q +:+ "http://www.opengis.net/kml/2.2" +:+ q +:+ ">" +:+ nl +:+
  "  <Document>" +:+ nl +:+
  "    <name>Craft Beer Map Spain</name>".

Definition folderHead : string :=
  nl +:+ "    <Folder>" +:+ nl +:+ "      <name>".

Definition placemarkHead : string :=
  nl +:+ "      <Placemark>" +:+ nl +:+ "        <name>".

Definition placemarkTail : string :=
  "</coordinates>" +:+ nl +:+ "        </Point>" +:+ nl +:+ "      </Placemark>".

Definition folderTail : string := nl +:+ "    </Folder>".

Definition documentTail : string := nl +:+ "  </Document>" +:+ nl +:+ "</kml>".

Definition documentHeadTokens : list Dom.token :=
  Eval vm_compute in Dom.lex Dom.InText documentHead.
Definition folderHeadTokens : list Dom.token :=
  Eval vm_compute in Dom.lex Dom.InText folderHead.
Definition placemarkHeadTokens : list Dom.token :=
  Eval vm_compute in Dom.lex Dom.InText placemarkHead.
Definition placemarkTailTokens : list Dom.token :=
  Eval vm_compute in Dom.lex Dom.InText placemarkTail.
Definition folderTailTokens : list Dom.token :=
  Eval vm_compute in Dom.lex Dom.InText folderTail.
Definition documentTailTokens : list Dom.token :=
  Eval vm_compute in Dom.lex Dom.InText documentTail.

(** The texts of a record in its placemark. *)
Definition addressText (v : Brewery) : string := default "" (address v).
Definition websiteText (v : Brewery) : string := default "" (website v).
Definition googleMapsUriText (v : Brewery) : string := default "" (googleMapsUri v).
Definition aliveStatusText (v : Brewery) : string :=
  default "" (statusValue <$> aliveStatus v).

Definition placemarkTokens (v : Brewery) : list Dom.token :=
  placemarkHeadTokens ++ Dom.TChars (name v) ::
    descriptionTokens ++ Dom.TChars (description v) ::
    addressTokens ++ Dom.TChars (addressText v) ::
    websiteTokens ++ Dom.TChars (websiteText v) ::
    googleMapsUriTokens ++ Dom.TChars (googleMapsUriText v) ::
    aliveStatusTokens ++ Dom.TChars (aliveStatusText v) ::
    coordinatesTokens ++ Dom.TChars (coordinatesText (coordinates v)) ::
    placemarkTailTokens.

Definition folderTokens (l : list Brewery) (c : BreweryCategory) : list Dom.token :=
  match categoryItems l c with
  | [] => []
  | items =>
      folderHeadTokens ++ Dom.TChars (categoryValue c) :: Dom.TClose "name" ::
        concat (placemarkTokens <$> items) ++ folderTailTokens
  end.

(** The tree of the file of a collection. *)
Definition placemarkNodeOf (v : Brewery) : Dom.node :=
  placemarkNode (name v) (description v) (addressText v) (websiteText v)
    (googleMapsUriText v) (aliveStatusText v) (coordinatesText (coordinates v)).

Definition placemarkNodes (items : list Brewery) : list Dom.node :=
  flat_map (fun v => [gap 6; placemarkNodeOf v]) items.

Definition folderNodeOf (l : list Brewery) (c : BreweryCategory) : Dom.node :=
  Dom.Element "Folder" []
    ([gap 6; textElement "name" (categoryValue c)]
       ++ placemarkNodes (categoryItems l c) ++ [gap 4]).

Definition folderNodes (l : list Brewery) (cs : list BreweryCategory) : list Dom.node :=
  flat_map (fun c => match categoryItems l c with
                     | [] => []
                     | _ => [gap 4; folderNodeOf l c]
                     end) cs.

Definition kmlTreeOf (l : list Brewery) : Dom.node :=
  Dom.Element "kml" [("xmlns", "http://www.opengis.net/kml/2.2")]
    [gap 2;
     Dom.Element "Document" []
       ([gap 4; textElement "name" "Craft Beer Map Spain"]
          ++ folderNodes l allCategories ++ [gap 2]);
     gap 0].

(** The elements with a given name at a node or under it. *)
Definition under (tag : string) (n : Dom.node) : list Dom.node :=
  List.filter (Dom.isNamed tag) (Dom.elementSelf n ++ Dom.descendants n).

(** A character that a file may hold as it is: XML allows it, and it is
    no carriage return, which is read as a line feed. *)
Definition fileChar (c : ascii) : bool :=
  Dom.isXmlChar c && negb (Ascii.eqb c Dom.CR).

(** The folders of the tree, without the texts between them. *)
Definition folderList (l : list Brewery) (cs : list BreweryCategory) : list Dom.node :=
  flat_map (fun c => match categoryItems l c with
                     | [] => []
                     | _ => [folderNodeOf l c]
                     end) cs.

(** The records of a file as they are read back: each with the next id
    of the generator, from the [used]-th on. *)
Definition rereadFrom (ids : nat -> string) (used : nat) (items : list Brewery)
  : list Brewery :=
  zip_with reread (ids <$> seq used (length items)) items.

(** A second record, of another category and with the date of a health
    check. *)
Definition naparbier : Brewery :=
  {| id := "v2"; name := "Naparbier"; description := "Brewery near Pamplona";
     category := MYTHIC;
     coordinates := mkCoordinates (Finite false [4; 2; 7; 6; 1]%N 2)
                                  (Finite true [1; 6; 3; 2]%N 1);
     address := Some "Poligono Talluntxe, Noain";
     website := Some "https://example.com/naparbier";
     googleMapsUri := Some "https://maps.google.com/?q=naparbier";
     aliveStatus := Some unknown;
     lastAliveCheck := Some "2025-01-01T00:00:00.000Z" |}.

(** *** Folders *)

(** A folder that holds a placemark, at any depth. *)
Definition holdsPlacemark (folder : Dom.node) : bool :=
  negb (length (Dom.getElementsByTagName folder "Placemark") =? 0).

(** The category that [parseKML] reads off a folder. *)
Definition folderCategory (folder : Dom.node) : BreweryCategory :=
  getCategoryFromFolder
    (orElse (Dom.textContent <$> head (Dom.getElementsByTagName folder "name")) "").

(** A record with another id and another category. *)
Definition placed (i : string) (c : BreweryCategory) (b : Brewery) : Brewery :=
  {| id := i; name := name b; description := description b; category := c;
     coordinates := coordinates b; address := address b; website := website b;
     googleMapsUri := googleMapsUri b; aliveStatus := aliveStatus b;
     lastAliveCheck := lastAliveCheck b |}.

(** A document with a placemark in a folder that lies in another
    folder. *)
Definition nestedFolders (nameA nameB : string) (p : Dom.node) : Dom.document :=
  [Dom.Element "kml" []
     [Dom.Element "Folder" []
        [textElement "name" nameA;
         Dom.Element "Folder" [] [textElement "name" nameB; p]]]].

Definition barPlacemark : Dom.node :=
  Dom.Element "Placemark" []
    [textElement "name" "Bar";
     Dom.Element "Point" [] [textElement "coordinates" "-3.7,40.4"]].

Definition nestedText : string :=
  "<kml><Folder><name>Lupulo de Oro</name><Folder><name>Lupulo de Plata</name>" +:+
  "<Placemark><name>Bar</name><Point><coordinates>-3.7,40.4</coordinates></Point></Placemark>" +:+
  "</Folder></Folder></kml>".

(** What [barPlacemark] is read as. *)
Definition bar : Brewery :=
  {| id := ""; name := "Bar"; description := ""; category := COMMON;
     coordinates := mkCoordinates (Finite false [4; 0; 4]%N 2) (Finite true [3; 7]%N 1);
     address := Some ""; website := None; googleMapsUri := None;
     aliveStatus := Some unknown; lastAliveCheck := None |}.

(** ** The merge of an import *)

Lemma elem_of_existingNames (prev : list Brewery) (b : Brewery) :
  Js.toLowerCase (name b) ∈ existingNames prev <-> collides prev b = true.
Proof.
  unfold existingNames, collides, sameNameIgnoringCase.
  rewrite elem_of_list_to_set, list_elem_of_fmap, existsb_exists.
  split.
  - intros (e & Heq & Hin). exists e. split.
    + by apply list_elem_of_In.
    + by apply String.eqb_eq.
  - intros (e & Hin & Heq). exists e. split.
    + by apply String.eqb_eq.
    + by apply list_elem_of_In.
Qed.

Lemma filter_as_bool {A : Type} (P : A -> Prop) `{!forall x, Decision (P x)}
    (f : A -> bool) (l : list A) :
  (forall x, P x <-> f x = true) -> filter P l = List.filter f l.
Proof.
  intros HPf. induction l as [|x l IH]; [done|].
  rewrite filter_cons. simpl. rewrite IH.
  destruct (decide (P x)) as [HP|HP], (f x) eqn:Hf; try done.
  - apply HPf in HP. congruence.
  - destruct HP. by apply HPf.
Qed.

Lemma mergeImported_refines (existing incoming : list Brewery) :
  mergeImported existing incoming = mergeImported_spec existing incoming.
Proof.
  unfold mergeImported, mergeImported_spec. f_equal.
  apply filter_as_bool. intros b.
  rewrite elem_of_existingNames. destruct (collides existing b); naive_solver.
Qed.

Lemma parseKML_breweries anchorHrefs ids xmlString silent st :
  breweries (fst (parseKML anchorHrefs ids xmlString silent st))
  = mergeImported (breweries st) (decodeKML anchorHrefs ids xmlString).
Proof.
  unfold parseKML.
  destruct (decodeKML anchorHrefs ids xmlString) as [|b bs] eqn:Hd; simpl; [|done].
  rewrite mergeImported_refines. unfold mergeImported_spec. simpl.
  by rewrite app_nil_r.
Qed.

(** C3.  The merge of an import is the existing collection followed by
    exactly the incoming records whose name, compared case-insensitively,
    is not the name of an existing record; with one existing record named
    [Row 44] and the incoming [ROW 44] and [New Place], it is the existing
    record followed by [New Place] alone.  The import hands exactly this
    merge to the committed collection. *)
Theorem mergeImported_dedup :
  (forall existing incoming : list Brewery,
     mergeImported existing incoming
     = existing ++ List.filter (fun b => negb (collides existing b)) incoming)
  /\ (forall e a b : Brewery,
        name e = "Row 44" -> name a = "ROW 44" -> name b = "New Place" ->
        mergeImported [e] [a; b] = [e; b])
  /\ (forall anchorHrefs ids xmlString silent st,
        breweries (fst (parseKML anchorHrefs ids xmlString silent st))
        = mergeImported (breweries st) (decodeKML anchorHrefs ids xmlString)).
Proof.
  split; [exact mergeImported_refines|split].
  - intros e a b He Ha Hb. rewrite mergeImported_refines.
    unfold mergeImported_spec, collides, sameNameIgnoringCase. simpl.
    rewrite He, Ha, Hb. reflexivity.
  - apply parseKML_breweries.
Qed.

Lemma mergeImported_dedup_witness :
  mergeImported [venue "1" "Row 44"] [venue "2" "ROW 44"; venue "3" "New Place"]
  = [venue "1" "Row 44"; venue "3" "New Place"].
Proof. apply (proj1 (proj2 mergeImported_dedup)); reflexivity. Defined.

(** ** The count that an import reports *)

(** C7.  With [Row 44] committed, the import of a file holding [ROW 44] and
    [New Place] adds one record and reports two: the alert counts the
    decoded records, not the ones that the merge kept. *)
Theorem import_reports_decoded_count :
  let result := parseKML noAnchors (fun k => pretty k) twoPlacemarks false row44Only in
  snd result = Some "Successfully imported 2 locations from KML."
  /\ length (breweries (fst result)) = S (length (breweries row44Only))
  /\ name <$> breweries (fst result) = ["Row 44"; "New Place"].
Proof. vm_compute. auto. Qed.

(** ** Promotion from the found list *)

Lemma countId_app (i : string) (l1 l2 : list Brewery) :
  countId i (l1 ++ l2) = countId i l1 + countId i l2.
Proof. unfold countId. by rewrite List.filter_app, length_app. Qed.

Lemma countId_removed (i : string) (l : list Brewery) :
  countId i (List.filter (fun b => negb (hasId i b)) l) = 0.
Proof.
  unfold countId. induction l as [|b l IH]; [done|]. simpl.
  destruct (hasId i b) eqn:Hb; simpl; [done|]. by rewrite Hb.
Qed.

Lemma filter_out_idem (i : string) (l : list Brewery) :
  List.filter (fun b => negb (hasId i b)) (List.filter (fun b => negb (hasId i b)) l)
  = List.filter (fun b => negb (hasId i b)) l.
Proof.
  induction l as [|b l IH]; [done|]. simpl.
  destruct (hasId i b) eqn:Hb; simpl; [done|]. rewrite Hb. simpl. by rewrite IH.
Qed.

(** C4, as the code has it.  [handleAddToMap] appends the record it is given
    to the committed collection and removes every record with that id from
    the found list: afterwards the id is not in the found list, and it is in
    the committed collection once more than before (exactly once when it
    was not there).  The handler looks nothing up: called again with the
    same record it leaves the found list as it is and appends the record a
    second time. *)
Theorem handleAddToMap_moves (b : Brewery) (st : AppState) :
  let st1 := handleAddToMap b st in
  let st2 := handleAddToMap b st1 in
  breweries st1 = breweries st ++ [b]
  /\ foundBreweries st1 = List.filter (fun r => negb (hasId (id b) r)) (foundBreweries st)
  /\ countId (id b) (foundBreweries st1) = 0
  /\ countId (id b) (breweries st1) = S (countId (id b) (breweries st))
  /\ foundBreweries st2 = foundBreweries st1
  /\ breweries st2 = breweries st1 ++ [b].
Proof.
  simpl. repeat split.
  - apply countId_removed.
  - rewrite countId_app. unfold countId at 2. simpl. unfold hasId.
    rewrite String.eqb_refl. simpl. lia.
  - apply filter_out_idem.
Qed.

(** C4 fails as stated: promoting the same record twice is not a no-op, the
    second call, made when the id is no longer in the found list, commits a
    second copy. *)
Lemma handleAddToMap_twice :
  let b := venue "f1" "Cervezas La Virgen" in
  let st := mkApp [] [b] None false None in
  breweries (handleAddToMap b st) = [b]
  /\ foundBreweries (handleAddToMap b st) = []
  /\ breweries (handleAddToMap b (handleAddToMap b st)) = [b; b].
Proof. vm_compute. auto. Qed.

(** ** The health check *)


Lemma find_hasId_existsb (i : string) (l : list Brewery) :
  existsb (hasId i) l = match List.find (hasId i) l with Some _ => true | None => false end.
Proof.
  induction l as [|b l IH]; simpl; [done|]. by destruct (hasId i b).
Qed.


(** ** Edits *)

Lemma find_hasId (i : string) (l : list Brewery) (target : Brewery) :
  List.find (hasId i) l = Some target -> id target = i /\ existsb (hasId i) l = true.
Proof.
  intros Hfind. rewrite find_hasId_existsb, Hfind. split; [|done].
  apply List.find_some in Hfind as [_ Hid]. by apply String.eqb_eq.
Qed.

Lemma orField_same {A : Type} (x : option A) : orField x x = x.
Proof. by destruct x. Qed.




(** ** Names in the committed collection *)

Lemma reachableApart_reachable anchorHrefs st :
  reachableApart anchorHrefs st -> reachable anchorHrefs st.
Proof. induction 1; by constructor. Qed.

Lemma uniqueNames_filter (f : Brewery -> bool) (l : list Brewery) :
  uniqueNames l -> uniqueNames (List.filter f l).
Proof.
  unfold uniqueNames, lowerNames. induction l as [|b l IH]; simpl; [done|].
  rewrite NoDup_cons. intros [Hb Hl]. destruct (f b); simpl; [|by apply IH].
  apply NoDup_cons. split; [|by apply IH].
  rewrite list_elem_of_fmap in *. intros (b' & Heq & Hin). apply Hb.
  exists b'. split; [done|]. rewrite list_elem_of_In in *.
  by apply List.filter_In in Hin as [? _].
Qed.

Lemma uniqueNames_snoc (l : list Brewery) (b : Brewery) :
  uniqueNames l -> Js.toLowerCase (name b) ∉ lowerNames l -> uniqueNames (l ++ [b]).
Proof.
  unfold uniqueNames, lowerNames. intros Hl Hb. rewrite fmap_app. simpl.
  apply NoDup_app. split; [done|split].
  - intros x Hx Hx'. apply list_elem_of_singleton in Hx'. by subst.
  - apply NoDup_singleton.
Qed.

Lemma uniqueNames_merge (prev newBreweries : list Brewery) :
  uniqueNames prev -> uniqueNames newBreweries ->
  uniqueNames (mergeImported prev newBreweries).
Proof.
  intros Hprev Hnew. rewrite mergeImported_refines. unfold mergeImported_spec.
  unfold uniqueNames, lowerNames. rewrite fmap_app. apply NoDup_app.
  split; [done|split].
  - intros x Hx Hx'. apply list_elem_of_fmap in Hx' as (b & -> & Hb).
    apply list_elem_of_In, List.filter_In in Hb as [_ Hb].
    apply negb_true_iff, not_true_iff_false in Hb. apply Hb.
    apply elem_of_existingNames. unfold existingNames.
    by apply elem_of_list_to_set.
  - by apply uniqueNames_filter.
Qed.

Lemma lowerNames_healthUpdate i status date (l : list Brewery) :
  lowerNames (healthUpdate i status date l) = lowerNames l.
Proof.
  unfold lowerNames, healthUpdate. rewrite <- list_fmap_compose.
  apply list_fmap_ext. intros _ b _. simpl. by destruct (hasId i b).
Qed.

Lemma replaceById_absent (updated : Brewery) (l : list Brewery) :
  countId (id updated) l = 0 -> replaceById updated l = l.
Proof.
  unfold countId, replaceById. induction l as [|b l IH]; simpl; [done|].
  destruct (hasId (id updated) b); simpl; [done|]. intros H. f_equal. by apply IH.
Qed.

Lemma uniqueNames_replaceById (updated : Brewery) (l : list Brewery) :
  uniqueNames l ->
  countId (id updated) l <= 1 ->
  (forall b, b ∈ l -> hasId (id updated) b = false ->
             Js.toLowerCase (name b) <> Js.toLowerCase (name updated)) ->
  uniqueNames (replaceById updated l).
Proof.
  unfold uniqueNames. induction l as [|b l IH]; [done|].
  intros Hnd Hcount Hother.
  change (lowerNames (b :: l)) with (Js.toLowerCase (name b) :: lowerNames l) in Hnd.
  apply NoDup_cons in Hnd as [Hb Hl].
  change (countId (id updated) (b :: l))
    with (length (if hasId (id updated) b
                  then b :: List.filter (hasId (id updated)) l
                  else List.filter (hasId (id updated)) l)) in Hcount.
  change (lowerNames (replaceById updated (b :: l)))
    with (Js.toLowerCase (name (if hasId (id updated) b then updated else b))
          :: lowerNames (replaceById updated l)).
  destruct (hasId (id updated) b) eqn:Hid; simpl in Hcount.
  - assert (countId (id updated) l = 0) as H0 by (unfold countId; lia).
    rewrite (replaceById_absent _ _ H0). apply NoDup_cons. split; [|done].
    intros Hin. apply list_elem_of_fmap in Hin as (b' & Heq & Hb').
    apply (Hother b'); [by right| |done].
    unfold countId in H0. apply length_zero_iff_nil in H0.
    destruct (hasId (id updated) b') eqn:Hid'; [|done].
    assert (b' ∈ List.filter (hasId (id updated)) l) as Hin'.
    { apply list_elem_of_In, List.filter_In. split; [by apply list_elem_of_In|done]. }
    rewrite H0 in Hin'. by apply not_elem_of_nil in Hin'.
  - apply NoDup_cons. split.
    + intros Hin. apply list_elem_of_fmap in Hin as (b' & Heq & Hb').
      apply list_elem_of_fmap in Hb' as (b'' & -> & Hb'').
      destruct (hasId (id updated) b'').
      * apply (Hother b); [by left|done|done].
      * apply Hb. apply list_elem_of_fmap. by exists b''.
    + apply IH; [done|done|]. intros b' Hb'. apply Hother. by right.
Qed.

Lemma keepsNamesApart_step anchorHrefs (st : AppState) (a : Action) :
  uniqueNames (breweries st) -> keepsNamesApart anchorHrefs st a ->
  uniqueNames (breweries (perform anchorHrefs a st)).
Proof.
  intros Hst Ha. destruct a; simpl in *.
  - rewrite (parseKML_breweries anchorHrefs).
    by apply uniqueNames_merge.
  - unfold handleSearch. destruct resultBreweries; [done|].
    simpl. by repeat case_match.
  - unfold handleCheckStatus. repeat case_match; simpl; try done.
    unfold uniqueNames. by rewrite lowerNames_healthUpdate.
  - by apply uniqueNames_snoc.
  - done.
  - unfold handleEdit. by case_match.
  - unfold handleEditFound. by case_match.
  - unfold saveChanges, savedRecord in *.
    destruct (editModalOpen st); [|done]. destruct (editingBrewery st) as [brewery|]; [|done].
    destruct (modalSave _ _) as [updated|]; [|done]. destruct Ha as [Hcount Hother].
    simpl. unfold handleSave. repeat case_match; simpl; try done.
    by apply uniqueNames_replaceById.
  - done.
  - unfold handleDelete. destruct confirmed; [|done]. case_match; simpl;
      by apply uniqueNames_filter.
  - unfold handleClearAll. destruct confirmed; [|done]. simpl. apply NoDup_nil_2.
  - unfold handleAddManual, handleEdit. case_match; simpl; by apply uniqueNames_snoc.
Qed.

(** C2, as the code has it.  Case-insensitive uniqueness of the committed
    names is kept along every run in which each import brings no name
    twice, each promotion and each manual addition brings a name that is not
    yet committed, and each saved edit has the id of at most one committed
    record and a name that no other committed record has; deletion, the
    clearing of the map, health checks, searches and discards keep it
    unconditionally.  The handlers themselves check a name only in the
    import merge and in the search filter, and there only against the
    committed records. *)
Theorem names_stay_apart anchorHrefs (st : AppState) :
  reachableApart anchorHrefs st -> uniqueNames (breweries st).
Proof.
  induction 1 as [|st a _ IH _ Ha]; [apply NoDup_nil_2|].
  by apply keepsNamesApart_step.
Qed.

Lemma names_stay_apart_witness :
  reachableApart noAnchors afterImportAndAdd
  /\ uniqueNames (breweries afterImportAndAdd)
  /\ lowerNames (breweries afterImportAndAdd) = ["new place"; "new location"].
Proof.
  assert (reachableApart noAnchors afterImportAndAdd) as Hreach.
  { repeat apply apart_perform; try exact I.
    - apply apart_initial.
    - apply (bool_decide_unpack _). vm_compute. exact I.
    - apply (bool_decide_unpack _). vm_compute. exact I. }
  split; [exact Hreach|split].
  - exact (names_stay_apart noAnchors afterImportAndAdd Hreach).
  - vm_compute. reflexivity.
Defined.

(** C2 fails as stated: two clicks on the round [+] button, from the empty
    map, commit two records named [New Location]. *)
Lemma two_new_locations :
  let st := perform noAnchors (AddManual "m2") (perform noAnchors (AddManual "m1") initialState) in
  reachable noAnchors st
  /\ name <$> breweries st = ["New Location"; "New Location"]
  /\ lowerNames (breweries st) = ["new location"; "new location"].
Proof.
  simpl. split; [|split; reflexivity].
  apply (reachable_perform noAnchors _ (AddManual "m2")); [|exact I].
  apply (reachable_perform noAnchors _ (AddManual "m1")); [|exact I].
  apply reachable_initial.
Qed.

(** ** Placemarks without usable coordinates *)

Section Placemarks.

Variable anchorHrefs : string -> list (option string).

Lemma parsePlacemark_unusable newId p c :
  unusable p = true -> parsePlacemark anchorHrefs newId p c = None.
Proof.
  unfold unusable, lacksPoint, coordinateText, axisNaN, parsePlacemark.
  destruct (Dom.getElementsByTagName p "Point") as [|point points]; simpl; [done|].
  destruct (Dom.getElementsByTagName point "coordinates") as [|ct cts]; simpl; [done|].
  intros Hnan. destruct (Js.truthy _); [|done].
  apply orb_true_iff in Hnan as [-> | ->]; simpl; [|done].
  by rewrite andb_false_r.
Qed.

Lemma parsePlacemark_not_NaN newId p c b :
  parsePlacemark anchorHrefs newId p c = Some b ->
  isNaN (lat (coordinates b)) = false /\ isNaN (lng (coordinates b)) = false.
Proof.
  unfold parsePlacemark.
  destruct (Js.trim <$> _) as [raw|]; [|done].
  destruct (Js.truthy raw); [|done].
  destruct (negb (isNaN _) && negb (isNaN _)) eqn:Hnan; [|done].
  intros [= <-]. simpl.
  apply andb_true_iff in Hnan as [Hlat Hlng].
  by apply negb_true_iff in Hlat, Hlng.
Qed.

(** Whether a placemark gives a record does not depend on the id on
    offer. *)
Lemma parsePlacemark_None_id newId newId' p c :
  parsePlacemark anchorHrefs newId p c = None ->
  parsePlacemark anchorHrefs newId' p c = None.
Proof.
  unfold parsePlacemark.
  destruct (Js.trim <$> _) as [raw|]; [|done].
  destruct (Js.truthy raw); [|done].
  by destruct (negb (isNaN _) && negb (isNaN _)).
Qed.

Lemma parsePlacemarks_skip ids used before p after c :
  (forall newId, parsePlacemark anchorHrefs newId p c = None) ->
  parsePlacemarks anchorHrefs ids used (before ++ p :: after) c
  = parsePlacemarks anchorHrefs ids used (before ++ after) c.
Proof.
  intros Hp. revert used. induction before as [|p0 before IH]; intros used; simpl.
  - by rewrite Hp.
  - destruct (parsePlacemark anchorHrefs (ids used) p0 c); by rewrite IH.
Qed.

Lemma parsePlacemarks_elem ids used ps c b :
  b ∈ parsePlacemarks anchorHrefs ids used ps c ->
  exists newId p, p ∈ ps /\ parsePlacemark anchorHrefs newId p c = Some b.
Proof.
  revert used. induction ps as [|p ps IH]; intros used; simpl.
  - by intros ?%not_elem_of_nil.
  - destruct (parsePlacemark anchorHrefs (ids used) p c) as [b'|] eqn:Hp.
    + intros [->|Hin]%elem_of_cons.
      * exists (ids used), p. split; [by left|done].
      * destruct (IH _ Hin) as (newId & p' & Hp' & Hb). exists newId, p'.
        split; [by right|done].
    + intros Hin. destruct (IH _ Hin) as (newId & p' & Hp' & Hb). exists newId, p'.
      split; [by right|done].
Qed.

Lemma parseFolders_elem ids used folders b :
  b ∈ (parseFolders anchorHrefs ids used folders).1 ->
  exists newId p c, parsePlacemark anchorHrefs newId p c = Some b.
Proof.
  revert used. induction folders as [|folder folders IH]; intros used; simpl.
  - by intros ?%not_elem_of_nil.
  - destruct (parseFolders anchorHrefs ids _ folders) as [later found] eqn:Hlater.
    simpl. intros [Hin|Hin]%elem_of_app.
    + apply parsePlacemarks_elem in Hin as (newId & p & _ & Hb). eauto.
    + eapply IH. by erewrite Hlater.
Qed.

Lemma decodeKML_elem ids xmlString b :
  b ∈ decodeKML anchorHrefs ids xmlString ->
  exists newId p c, parsePlacemark anchorHrefs newId p c = Some b.
Proof.
  unfold decodeKML.
  destruct (parseFolders anchorHrefs ids 0 _) as [inFolders found] eqn:Hf.
  assert (b ∈ inFolders -> exists newId p c, parsePlacemark anchorHrefs newId p c = Some b)
    as Hin.
  { intros Hb. eapply parseFolders_elem. by rewrite Hf. }
  destruct found; [done|].
  intros [Hb|Hb]%elem_of_app; [by apply Hin|].
  apply parsePlacemarks_elem in Hb as (newId & p & _ & Hb). eauto.
Qed.

End Placemarks.

(** C5, as the code has it.  A placemark that lacks a point, or whose
    coordinate text gives NaN for either axis, gives no record, and the
    placemarks around it are decoded as if it were not there; every decoded
    record has coordinates that are not NaN.  (The test is [isNaN]: an
    infinite coordinate passes it.) *)
Theorem unusable_placemarks_dropped anchorHrefs :
  (forall newId p c, unusable p = true -> parsePlacemark anchorHrefs newId p c = None)
  /\ (forall ids used before p after c,
        unusable p = true ->
        parsePlacemarks anchorHrefs ids used (before ++ p :: after) c
        = parsePlacemarks anchorHrefs ids used (before ++ after) c)
  /\ (forall ids xmlString b,
        b ∈ decodeKML anchorHrefs ids xmlString ->
        isNaN (lat (coordinates b)) = false /\ isNaN (lng (coordinates b)) = false)
  /\ axisNaN "notanumber,40.1" = true
  /\ (fun b => (id b, name b, category b)) <$> decodeKML anchorHrefs (fun k => pretty k) mixedFolder
     = [("0", "First", GOLD); ("1", "Last", GOLD)].
Proof.
  split; [|split; [|split; [|split]]].
  - intros. by apply parsePlacemark_unusable.
  - intros. apply parsePlacemarks_skip. intros. by apply parsePlacemark_unusable.
  - intros ids xmlString b Hb.
    apply decodeKML_elem in Hb as (newId & p & c & Hb).
    by apply parsePlacemark_not_NaN in Hb.
  - reflexivity.
  - vm_compute. reflexivity.
Qed.


Lemma unusable_placemarks_dropped_witness :
  parsePlacemark noAnchors "0"
    (Dom.Element "Placemark" []
       [Dom.Element "name" [] [Dom.Text "Broken"];
        Dom.Element "Point" []
          [Dom.Element "coordinates" [] [Dom.Text "notanumber,40.1"]]])
    COMMON
  = None.
Proof. apply (proj1 (unusable_placemarks_dropped noAnchors)). reflexivity. Defined.

(** C5 fails as stated: the guard is [isNaN], and [parseFloat] reads
    [Infinity] as a number that is not NaN, so that a placemark with this
    longitude gives a record whose longitude is not finite. *)
Lemma infinite_coordinate_accepted :
  (fun b => (name b, lng (coordinates b), isFinite (lng (coordinates b))))
    <$> decodeKML noAnchors (fun k => pretty k) farAway
  = [("Far away", Infinity false, false)].
Proof. vm_compute. reflexivity. Qed.

(** ** Facts about strings *)

(** Below, [simpl] may unfold an append whose first string is known, and
    leaves the built-ins that work on whole strings folded. *)
#[local] Arguments String.append !s1 s2 : simpl nomatch.
#[local] Arguments Js.startsWith !s !prefix : simpl nomatch.
#[local] Arguments parseFloat : simpl never.
#[local] Arguments numberToString : simpl never.
#[local] Arguments cleanDescription : simpl never.
#[local] Arguments Js.trim : simpl never.
#[local] Arguments Js.truthy : simpl never.

Lemma append_nil_r (s : string) : s +:+ "" = s.
Proof. induction s as [|c s IH]; simpl; [done|by rewrite IH]. Qed.

Lemma append_assoc (s1 s2 s3 : string) : (s1 +:+ s2) +:+ s3 = s1 +:+ (s2 +:+ s3).
Proof. induction s1 as [|c s1 IH]; simpl; [done|by rewrite IH]. Qed.

Lemma every_app (f : ascii -> bool) (s1 s2 : string) :
  Js.every f (s1 +:+ s2) = Js.every f s1 && Js.every f s2.
Proof. induction s1 as [|c s1 IH]; simpl; [done|]. by rewrite IH, andb_assoc. Qed.

Lemma every_impl (f g : ascii -> bool) (s : string) :
  (forall c, f c = true -> g c = true) -> Js.every f s = true -> Js.every g s = true.
Proof.
  intros Hfg. induction s as [|c s IH]; simpl; [done|].
  intros [Hc Hs]%andb_true_iff. by rewrite (Hfg c Hc), IH.
Qed.

Lemma startsWith_nil (s : string) : Js.startsWith s "" = true.
Proof. by destruct s. Qed.

Lemma startsWith_cons (a b : ascii) (s prefix : string) :
  Js.startsWith (String b s) (String a prefix) = Ascii.eqb a b && Js.startsWith s prefix.
Proof. done. Qed.

Lemma append_cons (c : ascii) (s r : string) : String c s +:+ r = String c (s +:+ r).
Proof. done. Qed.

Lemma includes_cons (c : ascii) (s needle : string) :
  Js.includes (String c s) needle
  = Js.startsWith (String c s) needle || Js.includes s needle.
Proof. done. Qed.

Lemma includes_char (x : ascii) (s : string) :
  Js.includes s (String x "") = negb (without x s).
Proof.
  unfold without. induction s as [|c s IH]; [done|].
  rewrite includes_cons, IH. simpl. rewrite startsWith_nil, andb_true_r, (Ascii.eqb_sym x c).
  by destruct (Ascii.eqb c x).
Qed.

Lemma without_includes (x : ascii) (s : string) :
  Js.includes s (String x "") = false -> without x s = true.
Proof. rewrite includes_char. by intros ->%negb_false_iff. Qed.

Lemma includes_tail (c : ascii) (s needle : string) :
  Js.includes (String c s) needle = false -> Js.includes s needle = false.
Proof. rewrite includes_cons. by intros [_ ?]%orb_false_iff. Qed.

(** In [p] followed by the end of a CDATA section, the section does not
    end before [p] does, when [p] does not hold that end. *)
Lemma cdata_end_not_before (c : ascii) (p rest : string) :
  Js.includes (String c p) "]]>" = false ->
  Js.startsWith (String c p +:+ String "]" (String "]" (String ">" rest))) "]]>" = false.
Proof.
  rewrite includes_cons. intros [Hpre _]%orb_false_iff. revert Hpre.
  rewrite append_cons, !startsWith_cons.
  destruct (Ascii.eqb "]" c); [|done]. rewrite !andb_true_l.
  destruct p as [|c2 p]; [done|].
  rewrite append_cons, !startsWith_cons.
  destruct (Ascii.eqb "]" c2); [|done]. rewrite !andb_true_l.
  destruct p as [|c3 p]; [done|].
  rewrite append_cons, !startsWith_cons.
  destruct (Ascii.eqb ">" c3); [|done]. by rewrite !startsWith_nil.
Qed.

Lemma untilSub_cdata (p rest : string) :
  Js.includes p "]]>" = false ->
  Dom.untilSub "]]>" (p +:+ String "]" (String "]" (String ">" rest))) = Some p.
Proof.
  induction p as [|c p IH]; intros Hinc; [reflexivity|].
  change (Dom.untilSub "]]>" (String c p +:+ ?r))
    with (if Js.startsWith (String c p +:+ r) "]]>" then Some ""
          else String c <$> Dom.untilSub "]]>" (p +:+ r)).
  rewrite cdata_end_not_before by done.
  rewrite IH; [done|]. by apply includes_tail in Hinc.
Qed.

Lemma lex_SkipCData (p rest : string) :
  Js.includes p "]]>" = false ->
  Dom.lex Dom.SkipCData (p +:+ String "]" (String "]" (String ">" rest)))
  = Dom.lex Dom.InText rest.
Proof.
  induction p as [|c p IH]; intros Hinc; [reflexivity|].
  change (Dom.lex Dom.SkipCData (String c p +:+ ?r))
    with (if Js.startsWith (String c p +:+ r) "]]>"
          then Dom.lex (Dom.Drop 2 Dom.InText) (p +:+ r)
          else Dom.lex Dom.SkipCData (p +:+ r)).
  rewrite cdata_end_not_before by done.
  apply IH. by apply includes_tail in Hinc.
Qed.

(** Character data. *)
Lemma untilLt_text (t rest : string) :
  without "<" t = true -> Dom.untilLt (t +:+ String "<" rest) = t.
Proof.
  unfold without. induction t as [|c t IH]; simpl; [done|].
  intros [Hc Ht]%andb_true_iff. apply negb_true_iff in Hc. rewrite Hc. by rewrite IH.
Qed.

Lemma decodeEntities_plain (t : string) :
  without "&" t = true -> Dom.decodeEntities 0 t = Some t.
Proof.
  unfold without. induction t as [|c t IH]; simpl; [done|].
  intros [Hc Ht]%andb_true_iff. apply negb_true_iff in Hc. rewrite Hc. by rewrite IH.
Qed.

Lemma lex_SkipText (t rest : string) :
  without "<" t = true ->
  Dom.lex Dom.SkipText (t +:+ String "<" rest) = Dom.lex Dom.InText (String "<" rest).
Proof.
  unfold without. induction t as [|c t IH]; [done|].
  intros [Hc Ht]%andb_true_iff. apply negb_true_iff in Hc.
  simpl. rewrite Hc. by apply IH.
Qed.

Lemma lex_text (t rest : string) :
  t <> "" -> without "<" t = true -> without "&" t = true ->
  Dom.lex Dom.InText (t +:+ String "<" rest)
  = Dom.TChars t :: Dom.lex Dom.InText (String "<" rest).
Proof.
  destruct t as [|c t]; [done|]. intros _ Hlt Hamp.
  pose proof Hlt as Hlt'. unfold without in Hlt'. simpl in Hlt'.
  apply andb_true_iff in Hlt' as [Hc Ht]. apply negb_true_iff in Hc.
  simpl. rewrite Hc. rewrite untilLt_text by done. rewrite lex_SkipText by done.
  unfold Dom.textToken. by rewrite decodeEntities_plain.
Qed.


(** ** The file of one record, token by token *)

Lemma lex_cdataSection (p rest : string) :
  Js.includes p "]]>" = false ->
  Dom.lex Dom.InText (cdataSection p rest) = Dom.TChars p :: Dom.lex Dom.InText rest.
Proof.
  intros Hp. unfold cdataSection.
  change ("]]>" +:+ rest) with (String "]" (String "]" (String ">" rest))).
  change (Dom.lex Dom.InText ("<![CDATA[" +:+ ?r))
    with (match Dom.untilSub "]]>" r with
          | Some d => Dom.TChars d :: Dom.lex Dom.SkipCData r
          | None => [Dom.TBad]
          end).
  by rewrite untilSub_cdata, lex_SkipCData.
Qed.

Lemma lex_upToFolderName rest :
  Dom.lex Dom.InText (upToFolderName +:+ rest)
  = folderNameTokens ++ Dom.lex Dom.InText rest.
Proof. reflexivity. Qed.
Lemma lex_upToName rest :
  Dom.lex Dom.InText (upToName +:+ rest) = nameTokens ++ Dom.lex Dom.InText rest.
Proof. reflexivity. Qed.
Lemma lex_upToDescription rest :
  Dom.lex Dom.InText (upToDescription +:+ rest)
  = descriptionTokens ++ Dom.lex Dom.InText rest.
Proof. reflexivity. Qed.
Lemma lex_upToAddress rest :
  Dom.lex Dom.InText (upToAddress +:+ rest)
  = addressTokens ++ Dom.lex Dom.InText rest.
Proof. reflexivity. Qed.
Lemma lex_upToWebsite rest :
  Dom.lex Dom.InText (upToNextData "website" +:+ rest)
  = websiteTokens ++ Dom.lex Dom.InText rest.
Proof. reflexivity. Qed.
Lemma lex_upToGoogleMapsUri rest :
  Dom.lex Dom.InText (upToNextData "googleMapsUri" +:+ rest)
  = googleMapsUriTokens ++ Dom.lex Dom.InText rest.
Proof. reflexivity. Qed.
Lemma lex_upToAliveStatus rest :
  Dom.lex Dom.InText (upToNextData "aliveStatus" +:+ rest)
  = aliveStatusTokens ++ Dom.lex Dom.InText rest.
Proof. reflexivity. Qed.
Lemma lex_upToCoordinates rest :
  Dom.lex Dom.InText (upToCoordinates +:+ rest)
  = coordinatesTokens ++ Dom.lex Dom.InText rest.
Proof. reflexivity. Qed.

Lemma lex_text_before (t markup : string) :
  t <> "" -> without "<" t = true -> without "&" t = true ->
  Js.startsWith markup "<" = true ->
  Dom.lex Dom.InText (t +:+ markup) = Dom.TChars t :: Dom.lex Dom.InText markup.
Proof.
  intros Ht Hlt Hamp Hm. destruct markup as [|c m]; [done|].
  rewrite startsWith_cons, startsWith_nil, andb_true_r in Hm.
  apply Ascii.eqb_eq in Hm as <-. by apply lex_text.
Qed.

Lemma lex_kmlText (cv nm d a w g sv ct : string) :
  cv <> "" -> without "<" cv = true -> without "&" cv = true ->
  ct <> "" -> without "<" ct = true -> without "&" ct = true ->
  Js.includes nm "]]>" = false -> Js.includes d "]]>" = false ->
  Js.includes a "]]>" = false -> Js.includes w "]]>" = false ->
  Js.includes g "]]>" = false -> Js.includes sv "]]>" = false ->
  Dom.lex Dom.InText (kmlText cv nm d a w g sv ct)
  = folderNameTokens ++ Dom.TChars cv ::
    nameTokens ++ Dom.TChars nm ::
    descriptionTokens ++ Dom.TChars d ::
    addressTokens ++ Dom.TChars a ::
    websiteTokens ++ Dom.TChars w ::
    googleMapsUriTokens ++ Dom.TChars g ::
    aliveStatusTokens ++ Dom.TChars sv ::
    coordinatesTokens ++ Dom.TChars ct ::
    endTokens.
Proof.
  intros. unfold kmlText.
  rewrite lex_upToFolderName, lex_text_before by (assumption || reflexivity).
  rewrite lex_upToName, lex_cdataSection by assumption.
  rewrite lex_upToDescription, lex_cdataSection by assumption.
  rewrite lex_upToAddress, lex_cdataSection by assumption.
  rewrite lex_upToWebsite, lex_cdataSection by assumption.
  rewrite lex_upToGoogleMapsUri, lex_cdataSection by assumption.
  rewrite lex_upToAliveStatus, lex_cdataSection by assumption.
  rewrite lex_upToCoordinates.
  rewrite lex_text_before by (assumption || reflexivity).
  reflexivity.
Qed.

Lemma build_kmlTokens (cv nm d a w g sv ct : string) :
  Dom.build (kmlTokens cv nm d a w g sv ct) [] []
  = Some [kmlTree (folderNode cv (placemarkNode nm d a w g sv ct))].
Proof. reflexivity. Qed.


(** ** The text of a number *)

Lemma numberChar_field (c : ascii) : numberChar c = true -> fieldChar c = true.
Proof. destruct c as [[] [] [] [] [] [] [] []]; vm_compute; congruence. Qed.

Lemma isDigit_digitChar (d : N) : isDigit (digitChar d) = true.
Proof.
  unfold isDigit, digitChar.
  assert (d mod 10 < 10)%N as Hlt by (apply N.mod_lt; lia).
  revert Hlt. generalize (d mod 10)%N. intros r Hr.
  rewrite N_ascii_embedding by lia.
  apply andb_true_iff. split; apply N.leb_le; lia.
Qed.

Lemma numberChar_digit (c : ascii) : isDigit c = true -> numberChar c = true.
Proof. unfold numberChar. by intros ->. Qed.

Lemma every_digitString (ds : list N) : Js.every numberChar (digitString ds) = true.
Proof.
  induction ds as [|d ds IH]; simpl; [done|].
  by rewrite numberChar_digit, IH by apply isDigit_digitChar.
Qed.

Lemma every_zeros (n : nat) : Js.every numberChar (zeros n) = true.
Proof. induction n as [|n IH]; simpl; [done|]. by rewrite IH. Qed.

Lemma numberChar_pretty_N_char (d : N) : numberChar (pretty_N_char d) = true.
Proof.
  unfold pretty_N_char. repeat case_match; reflexivity.
Qed.

Lemma every_pretty_N_go (x : N) (s : string) :
  Js.every numberChar s = true -> Js.every numberChar (pretty_N_go x s) = true.
Proof.
  revert s. induction (N.lt_wf_0 x) as [x _ IH]. intros s Hs.
  destruct (decide (x = 0)%N) as [->|Hx].
  - by rewrite pretty_N_go_0.
  - rewrite pretty_N_go_step by lia. apply IH.
    + apply N.div_lt; lia.
    + simpl. by rewrite numberChar_pretty_N_char.
Qed.

Lemma every_pretty_N (x : N) : Js.every numberChar (pretty x) = true.
Proof.
  unfold pretty, pretty_N. case_decide; [done|]. by apply every_pretty_N_go.
Qed.

Lemma every_numberToString (x : number) : Js.every numberChar (numberToString x) = true.
Proof.
  destruct x as [|[]|negative [|d ds] n]; try reflexivity.
  unfold numberToString.
  set (k := Z.of_nat (length (d :: ds))).
  rewrite every_app. apply andb_true_iff. split; [by destruct negative|].
  assert (forall e : Z,
            Js.every numberChar ((if (e <? 0)%Z then "-" else "+") +:+ pretty (Z.abs_N e)) = true)
    as Hexp.
  { intros e. rewrite every_app, every_pretty_N. by destruct (e <? 0)%Z. }
  assert (numberChar (digitChar d) = true) as Hd
    by apply numberChar_digit, isDigit_digitChar.
  repeat case_match;
    repeat (rewrite ?every_app, ?every_digitString, ?every_zeros, ?Hexp, ?Hd;
            try reflexivity;
            try match goal with
                | |- context [Js.every ?f (String ?c ?s)] =>
                    change (Js.every f (String c s)) with (f c && Js.every f s)
                end).
  all: by rewrite every_pretty_N.
Qed.

Lemma every_field_numberToString (x : number) :
  Js.every fieldChar (numberToString x) = true.
Proof. apply (every_impl numberChar); [apply numberChar_field|apply every_numberToString]. Qed.

(** ** Trimming, splitting and cleaning *)

Lemma trimStart_nonspace (c : ascii) (s : string) :
  Js.isWhiteSpace c = false -> Js.trimStart (String c s) = String c s.
Proof. intros Hc. simpl. by rewrite Hc. Qed.

Lemma trimEnd_nonspace (s : string) (c : ascii) :
  Js.isWhiteSpace c = false -> Js.trimEnd (s +:+ String c "") = s +:+ String c "".
Proof.
  intros Hc. induction s as [|x s IH].
  - simpl. by rewrite Hc.
  - rewrite append_cons. simpl. rewrite IH. by destruct s.
Qed.

Lemma split_without (sep : ascii) (s : string) :
  without sep s = true -> Js.split sep s = [s].
Proof.
  unfold without. induction s as [|c s IH]; simpl; [done|].
  intros [Hc Hs]%andb_true_iff. apply negb_true_iff in Hc. by rewrite Hc, IH.
Qed.

Lemma split_field (sep : ascii) (s rest : string) :
  without sep s = true ->
  Js.split sep (s +:+ String sep rest) = s :: Js.split sep rest.
Proof.
  unfold without. induction s as [|c s IH]; intros Hs.
  - simpl. by rewrite Ascii.eqb_refl.
  - simpl in Hs. apply andb_true_iff in Hs as [Hc Hs]. apply negb_true_iff in Hc.
    rewrite append_cons. simpl. by rewrite Hc, IH.
Qed.

Lemma replaceAll_nothing (matchLength : string -> option nat) (by_ s : string) :
  (forall c r, negb (Ascii.eqb c "<") = true -> matchLength (String c r) = None) ->
  without "<" s = true ->
  Js.replaceAll matchLength by_ 0 s = s.
Proof.
  intros Hm. unfold without. induction s as [|c s IH]; simpl; [done|].
  intros [Hc Hs]%andb_true_iff. by rewrite Hm, IH.
Qed.

Lemma brLength_other (c : ascii) (r : string) :
  negb (Ascii.eqb c "<") = true -> brLength (String c r) = None.
Proof. destruct c as [[] [] [] [] [] [] [] []]; try reflexivity. discriminate. Qed.

Lemma tagLength_other (c : ascii) (r : string) :
  negb (Ascii.eqb c "<") = true -> tagLength (String c r) = None.
Proof. destruct c as [[] [] [] [] [] [] [] []]; try reflexivity. discriminate. Qed.

Lemma cleanDescription_plain (d : string) :
  Js.includes d "<" = false -> Js.trim d = d -> cleanDescription d = d.
Proof.
  intros Hd%without_includes Htrim. unfold cleanDescription.
  rewrite (replaceAll_nothing brLength) by (apply brLength_other || done).
  rewrite (replaceAll_nothing tagLength) by (apply tagLength_other || done).
  done.
Qed.

Lemma normalizeLineEnds_none (s : string) :
  without Dom.CR s = true -> Dom.normalizeLineEnds s = s.
Proof.
  unfold without. induction s as [|c s IH]; simpl; [done|].
  intros [Hc Hs]%andb_true_iff. apply negb_true_iff in Hc. by rewrite Hc, IH.
Qed.


(** ** Reading the file back *)

Lemma cdataText_facts (p : string) :
  cdataText p = true ->
  Js.every Dom.isXmlChar p = true /\ without Dom.CR p = true
  /\ Js.includes p "]]>" = false.
Proof.
  unfold cdataText. intros [[Hx Hcr]%andb_true_iff Hend]%andb_true_iff.
  apply negb_true_iff in Hcr, Hend. split; [done|split; [|done]].
  by apply without_includes.
Qed.

Lemma plainText_facts (t : string) :
  plainText t = true ->
  Js.every Dom.isXmlChar t = true /\ without Dom.CR t = true
  /\ without "<" t = true /\ without "&" t = true.
Proof.
  unfold plainText, without. intros Ht.
  repeat split; revert Ht; apply every_impl; intros c; unfold textChar;
    intros Hc; repeat (apply andb_true_iff in Hc as [Hc ?]); done.
Qed.

Lemma fieldText_facts (t : string) :
  Js.every fieldChar t = true ->
  plainText t = true /\ without "," t = true
  /\ Js.every (fun c => negb (Js.isWhiteSpace c)) t = true.
Proof.
  unfold plainText, without. intros Ht.
  repeat split; revert Ht; apply every_impl; intros c; unfold fieldChar;
    intros [[Hc Hcomma]%andb_true_iff Hspace]%andb_true_iff; done.
Qed.

Lemma parseFromString_kmlText (cv nm d a w g sv ct : string) :
  cv <> "" -> plainText cv = true -> ct <> "" -> plainText ct = true ->
  cdataText nm = true -> cdataText d = true -> cdataText a = true ->
  cdataText w = true -> cdataText g = true -> cdataText sv = true ->
  Dom.parseFromString (kmlText cv nm d a w g sv ct)
  = [kmlTree (folderNode cv (placemarkNode nm d a w g sv ct))].
Proof.
  intros Hcv (Xcv & Rcv & Lcv & Acv)%plainText_facts
         Hct (Xct & Rct & Lct & Act)%plainText_facts
         (Xnm & Rnm & Enm)%cdataText_facts (Xd & Rd & Ed)%cdataText_facts
         (Xa & Ra & Ea)%cdataText_facts (Xw & Rw & Ew)%cdataText_facts
         (Xg & Rg & Eg)%cdataText_facts (Xsv & Rsv & Esv)%cdataText_facts.
  unfold Dom.parseFromString.
  assert (Js.every Dom.isXmlChar (kmlText cv nm d a w g sv ct) = true) as ->.
  { unfold kmlText, cdataSection. rewrite !every_app.
    rewrite Xcv, Xct, Xnm, Xd, Xa, Xw, Xg, Xsv. reflexivity. }
  rewrite normalizeLineEnds_none.
  - rewrite lex_kmlText by done. fold (kmlTokens cv nm d a w g sv ct).
    by rewrite build_kmlTokens.
  - unfold without in *. unfold kmlText, cdataSection. rewrite !every_app.
    rewrite Rcv, Rct, Rnm, Rd, Ra, Rw, Rg, Rsv. reflexivity.
Qed.


(** ** Decoding the tree *)

Lemma textContent_textElement (tag text : string) :
  Dom.textContent (textElement tag text) = text.
Proof. simpl. apply append_nil_r. Qed.

Lemma truthy_true (s : string) : s <> "" -> Js.truthy s = true.
Proof. intros Hs. unfold Js.truthy. by apply negb_true_iff, String.eqb_neq. Qed.

Lemma truthy_or_empty (s : string) : (if Js.truthy s then s else "") = s.
Proof. unfold Js.truthy. by destruct (String.eqb_spec s "") as [->|]. Qed.

Lemma dataStep_dataNode (x : extras) (key value : string) :
  dataStep x (dataNode key value)
  = assign websiteKeys true x (Some (Js.toLowerCase key)) (Some (Js.trim value)).
Proof.
  unfold dataStep.
  change (Dom.getAttribute (dataNode key value) "name") with (Some key).
  change (head (Dom.getElementsByTagName (dataNode key value) "value"))
    with (Some (textElement "value" value)).
  simpl. by rewrite append_nil_r.
Qed.

Lemma readStatus_statusValue (s old : AliveStatus) : readStatus (statusValue s) old = s.
Proof. by destruct s. Qed.

Lemma statusValue_facts (s : AliveStatus) :
  statusValue s <> "" /\ Js.trim (statusValue s) = statusValue s
  /\ cdataText (statusValue s) = true.
Proof. destruct s; (split; [discriminate|split; reflexivity]). Qed.

Lemma categoryValue_facts (c : BreweryCategory) :
  categoryValue c <> "" /\ plainText (categoryValue c) = true
  /\ getCategoryFromFolder (categoryValue c) = c.
Proof. destruct c; (split; [discriminate|split; vm_compute; reflexivity]). Qed.

Lemma assign_address (x : extras) (v : string) :
  v <> "" ->
  assign websiteKeys true x (Some (Js.toLowerCase "address")) (Some v)
  = mkExtras (x_website x) (x_googleMapsUri x) v (x_aliveStatus x).
Proof. intros Hv. unfold assign. by rewrite (truthy_true v). Qed.

Lemma assign_website (x : extras) (v : string) :
  v <> "" -> Js.includes v " " = false ->
  assign websiteKeys true x (Some (Js.toLowerCase "website")) (Some v)
  = mkExtras v (x_googleMapsUri x) (x_address x) (x_aliveStatus x).
Proof.
  intros Hv Hs%without_includes. unfold assign.
  by rewrite (truthy_true v), split_without.
Qed.

Lemma assign_googleMapsUri (x : extras) (v : string) :
  v <> "" ->
  assign websiteKeys true x (Some (Js.toLowerCase "googleMapsUri")) (Some v)
  = mkExtras (x_website x) v (x_address x) (x_aliveStatus x).
Proof. intros Hv. unfold assign. by rewrite (truthy_true v). Qed.

Lemma assign_aliveStatus (x : extras) (s : AliveStatus) :
  assign websiteKeys true x (Some (Js.toLowerCase "aliveStatus")) (Some (statusValue s))
  = mkExtras (x_website x) (x_googleMapsUri x) (x_address x) s.
Proof. by destruct s. Qed.

(** The four entries that [exportKML] writes give the four fields back. *)
Lemma dataSteps_exported (a w g : string) (s : AliveStatus) :
  a <> "" -> Js.trim a = a ->
  w <> "" -> Js.trim w = w -> Js.includes w " " = false ->
  g <> "" -> Js.trim g = g ->
  fold_left dataStep
    [dataNode "address" a; dataNode "website" w; dataNode "googleMapsUri" g;
     dataNode "aliveStatus" (statusValue s)]
    (mkExtras "" "" "" unknown)
  = mkExtras w g a s.
Proof.
  intros Ha Ta Hw Tw Sw Hg Tg. destruct (statusValue_facts s) as (Hs & Ts & _).
  unfold fold_left. rewrite !dataStep_dataNode, Ta, Tw, Tg, Ts.
  by rewrite assign_address, assign_website, assign_googleMapsUri, assign_aliveStatus.
Qed.

Lemma every_nonspace_trimStart (s : string) :
  Js.every (fun c => negb (Js.isWhiteSpace c)) s = true -> Js.trimStart s = s.
Proof.
  destruct s as [|c s]; [done|]. simpl. intros [Hc _]%andb_true_iff.
  apply negb_true_iff in Hc. by rewrite Hc.
Qed.

Lemma coordinatesText_read (c : Coordinates) :
  let ct := coordinatesText c in
  ct <> "" /\ plainText ct = true /\ Js.trim ct = ct
  /\ Js.split "," ct = [numberToString (lng c); numberToString (lat c); "0"].
Proof.
  pose proof (every_field_numberToString (lng c)) as Hlng.
  pose proof (every_field_numberToString (lat c)) as Hlat.
  apply fieldText_facts in Hlng as (Plng & Clng & Slng).
  apply fieldText_facts in Hlat as (Plat & Clat & Slat).
  simpl. unfold coordinatesText. split; [|split; [|split]].
  - by destruct (numberToString (lng c)).
  - unfold plainText in *. rewrite !every_app, Plng, Plat. reflexivity.
  - unfold Js.trim. rewrite every_nonspace_trimStart.
    + change ",0" with ("," +:+ "0"). rewrite <- !append_assoc.
      by apply trimEnd_nonspace.
    + rewrite !every_app, Slng, Slat. reflexivity.
  - change ("," +:+ ?r) with (String "," r).
    rewrite !split_field by done. reflexivity.
Qed.

Section Decode.

Variable anchorHrefs : string -> list (option string).

Lemma parsePlacemark_exported (newId nm d a w g : string) (s : AliveStatus)
    (c : Coordinates) (cat : BreweryCategory) :
  nm <> "" ->
  cleanDescription d = d ->
  a <> "" -> Js.trim a = a ->
  w <> "" -> Js.trim w = w -> Js.includes w " " = false ->
  g <> "" -> Js.trim g = g ->
  isNaN (lat c) = false -> isNaN (lng c) = false ->
  parseFloat (Some (numberToString (lat c))) = lat c ->
  parseFloat (Some (numberToString (lng c))) = lng c ->
  parsePlacemark anchorHrefs newId
    (placemarkNode nm d a w g (statusValue s) (coordinatesText c)) cat
  = Some {| id := newId; name := nm; description := d; category := cat;
            coordinates := c; address := Some a; website := Some w;
            googleMapsUri := Some g; aliveStatus := Some s;
            lastAliveCheck := None |}.
Proof.
  intros Hnm Hd Ha Ta Hw Tw Sw Hg Tg Nlat Nlng Plat Plng.
  destruct (coordinatesText_read c) as (Hct & _ & Tct & Sct).
  unfold parsePlacemark.
  set (pm := placemarkNode nm d a w g (statusValue s) (coordinatesText c)).
  change (Dom.getElementsByTagName pm "name") with [textElement "name" nm].
  change (Dom.getElementsByTagName pm "description") with [textElement "description" d].
  change (Dom.getElementsByTagName pm "Data")
    with [dataNode "address" a; dataNode "website" w; dataNode "googleMapsUri" g;
          dataNode "aliveStatus" (statusValue s)].
  change (Dom.getElementsByTagName pm "SimpleData") with (@nil Dom.node).
  change (Dom.getElementsByTagName pm "Point") with [pointNode (coordinatesText c)].
  rewrite dataSteps_exported by done.
  change (head [pointNode (coordinatesText c)] ≫= _)
    with (Some (textElement "coordinates" (coordinatesText c))).
  simpl. rewrite !append_nil_r.
  rewrite (truthy_true w), (truthy_true g) by done. simpl.
  rewrite Tct, (truthy_true (coordinatesText c)) by done.
  rewrite Sct. simpl. rewrite Plat, Plng, Nlat, Nlng. simpl.
  rewrite (truthy_true w), (truthy_true g) by done.
  unfold orElse. rewrite (truthy_true nm), truthy_or_empty, Hd by done.
  by destruct c.
Qed.

End Decode.


(** ** The file that [exportKML] writes for one record *)

Lemma folderText_single (v : Brewery) (c : BreweryCategory) :
  folderText [v] c =
  if bool_decide (category v = c) then
    "    <Folder>" +:+ nl +:+
    "      <name>" +:+ categoryValue c +:+ "</name>" +:+ nl +:+
    (placemarkText v +:+ "") +:+
    "    </Folder>" +:+ nl
  else "".
Proof.
  unfold folderText. simpl. by destruct (bool_decide (category v = c)).
Qed.

Lemma dataEntry_truthy (key value : string) :
  value <> "" ->
  dataEntry key (Some value)
  = "<Data name=" +:+ q +:+ key +:+ q +:+ "><value><![CDATA[" +:+ value
    +:+ "]]></value></Data>".
Proof. intros Hv. unfold dataEntry. by rewrite truthy_true. Qed.

Lemma placemarkText_populated (v : Brewery) (a w g : string) (s : AliveStatus) rest :
  address v = Some a -> a <> "" ->
  website v = Some w -> w <> "" ->
  googleMapsUri v = Some g -> g <> "" ->
  aliveStatus v = Some s ->
  placemarkText v +:+ rest =
      "      <Placemark>" +:+ nl +:+
      "        <name>" +:+ cdataSection (name v) (
      upToDescription +:+ cdataSection (description v) (
      upToAddress +:+ cdataSection a (
      upToNextData "website" +:+ cdataSection w (
      upToNextData "googleMapsUri" +:+ cdataSection g (
      upToNextData "aliveStatus" +:+ cdataSection (statusValue s) (
      upToCoordinates +:+ coordinatesText (coordinates v) +:+
      "</coordinates>" +:+ nl +:+
      "        </Point>" +:+ nl +:+
      "      </Placemark>" +:+ nl +:+ rest)))))).
Proof.
  intros Ha Ha' Hw Hw' Hg Hg' Hs.
  unfold placemarkText. rewrite Ha, Hw, Hg, Hs. simpl fmap.
  rewrite !dataEntry_truthy by (done || apply statusValue_facts).
  unfold cdataSection, coordinatesText.
  rewrite !append_assoc. reflexivity.
Qed.

Lemma exportKML_single (v : Brewery) (a w g : string) (s : AliveStatus) :
  address v = Some a -> a <> "" ->
  website v = Some w -> w <> "" ->
  googleMapsUri v = Some g -> g <> "" ->
  aliveStatus v = Some s ->
  exportKML [v]
  = kmlText (categoryValue (category v)) (name v) (description v) a w g
      (statusValue s) (coordinatesText (coordinates v)).
Proof.
  intros Ha Ha' Hw Hw' Hg Hg' Hs.
  unfold exportKML, allCategories, foldr. rewrite !folderText_single.
  unfold kmlText.
  destruct (category v) eqn:Hc;
    repeat match goal with
           | |- context [bool_decide (?x = ?y)] =>
               first [ rewrite (bool_decide_eq_true_2 (x = y)) by done
                     | rewrite (bool_decide_eq_false_2 (x = y)) by done ]
           end;
    rewrite !append_assoc, (placemarkText_populated v a w g s) by done;
    reflexivity.
Qed.


(** ** Number::toString, then [parseFloat] *)

Lemma digitValue_digitChar (d : N) : (d < 10)%N -> digitValue (digitChar d) = d.
Proof.
  intros Hd. unfold digitValue, digitChar.
  rewrite N.mod_small by done. rewrite N_ascii_embedding by lia. lia.
Qed.

Lemma takeDigits_digitString (ds : list N) (r : string) :
  forallb (fun e => e <? 10)%N ds = true ->
  takeDigits (digitString ds +:+ r) = (ds ++ (takeDigits r).1, (takeDigits r).2).
Proof.
  induction ds as [|d ds IH]; intros Hds.
  - simpl. by destruct (takeDigits r).
  - simpl in Hds. apply andb_true_iff in Hds as [Hd Hds]. apply N.ltb_lt in Hd.
    simpl. rewrite isDigit_digitChar, IH, digitValue_digitChar by done. done.
Qed.

Lemma takeDigits_zeros (k : nat) (r : string) :
  takeDigits (zeros k +:+ r) = (replicate k 0%N ++ (takeDigits r).1, (takeDigits r).2).
Proof.
  induction k as [|k IH]; simpl.
  - by destruct (takeDigits r).
  - by rewrite IH.
Qed.

Lemma stripZeros_replicate (k : nat) (ds : list N) (p : Z) :
  stripZeros (replicate k 0%N ++ ds) p = stripZeros ds (p - Z.of_nat k).
Proof.
  revert p. induction k as [|k IH]; intros p; simpl.
  - f_equal. lia.
  - rewrite IH. f_equal. lia.
Qed.

Lemma stripZeros_nonzero (d : N) (ds : list N) (p : Z) :
  (d =? 0)%N = false -> stripZeros (d :: ds) p = (d :: ds, p).
Proof. intros Hd%N.eqb_neq. by destruct d. Qed.

Lemma dropTrailingZeros_replicate (k : nat) : dropTrailingZeros (replicate k 0%N) = [].
Proof. induction k as [|k IH]; simpl; [done|]. by rewrite IH. Qed.

Lemma dropTrailingZeros_app (ds : list N) (k : nat) :
  dropTrailingZeros (ds ++ replicate k 0%N) = dropTrailingZeros ds.
Proof.
  induction ds as [|d ds IH]; simpl.
  - apply dropTrailingZeros_replicate.
  - by rewrite IH.
Qed.

Lemma dropTrailingZeros_last (d : N) (ds : list N) :
  (List.last (d :: ds) 0 =? 0)%N = false -> dropTrailingZeros (d :: ds) = d :: ds.
Proof.
  revert d. induction ds as [|e ds IH]; intros d Hlast.
  - simpl in *. by rewrite Hlast.
  - change (List.last (d :: e :: ds) 0%N) with (List.last (e :: ds) 0%N) in Hlast.
    change (dropTrailingZeros (d :: e :: ds))
      with (match dropTrailingZeros (e :: ds) with
            | [] => if (d =? 0)%N then [] else [d]
            | r => d :: r
            end).
    by rewrite IH.
Qed.

Lemma mkFinite_canonical (negative : bool) (d : N) (ds : list N) (leading trailing : nat)
    (p : Z) :
  (d =? 0)%N = false -> (List.last (d :: ds) 0 =? 0)%N = false ->
  mkFinite negative (replicate leading 0%N ++ (d :: ds) ++ replicate trailing 0%N) p
  = Finite negative (d :: ds) (p - Z.of_nat leading).
Proof.
  intros Hd Hlast. unfold mkFinite.
  rewrite stripZeros_replicate.
  change ((d :: ds) ++ replicate trailing 0%N) with (d :: (ds ++ replicate trailing 0%N)).
  rewrite stripZeros_nonzero by done.
  change (d :: (ds ++ replicate trailing 0%N)) with ((d :: ds) ++ replicate trailing 0%N).
  by rewrite dropTrailingZeros_app, dropTrailingZeros_last.
Qed.

(** The digits that [pretty] writes. *)
Lemma pretty_N_char_digitChar (r : N) : (r < 10)%N -> pretty_N_char r = digitChar r.
Proof.
  intros Hr.
  assert (r = 0 \/ r = 1 \/ r = 2 \/ r = 3 \/ r = 4 \/ r = 5 \/ r = 6 \/ r = 7 \/ r = 8
          \/ r = 9)%N as Hcases by lia.
  by repeat destruct Hcases as [->|Hcases]; try subst r.
Qed.

Lemma fold_decimal_app (ds1 ds2 : list N) (acc : Z) :
  fold_left (fun acc d => (10 * acc + Z.of_N d)%Z) (ds1 ++ ds2) acc
  = fold_left (fun acc d => (10 * acc + Z.of_N d)%Z) ds2
      (fold_left (fun acc d => (10 * acc + Z.of_N d)%Z) ds1 acc).
Proof. apply fold_left_app. Qed.

Lemma pretty_N_go_digits (x : N) (s : string) :
  exists ds,
    pretty_N_go x s = digitString ds +:+ s
    /\ forallb (fun e => e <? 10)%N ds = true
    /\ decimalValue ds = Z.of_N x.
Proof.
  revert s. induction (N.lt_wf_0 x) as [x _ IH]. intros s.
  destruct (decide (x = 0)%N) as [->|Hx].
  - exists []. by rewrite pretty_N_go_0.
  - rewrite pretty_N_go_step by lia.
    destruct (IH (x `div` 10)%N) with (s := String (pretty_N_char (x `mod` 10)) s)
      as (ds & Heq & Hds & Hval); [apply N.div_lt; lia|].
    assert (x `mod` 10 < 10)%N as Hr by (apply N.mod_lt; lia).
    exists (ds ++ [x `mod` 10]%N). split; [|split].
    + rewrite Heq, pretty_N_char_digitChar by done.
      clear. induction ds as [|d ds IH]; simpl; [done|]. by rewrite IH.
    + rewrite forallb_app, Hds. simpl. rewrite andb_true_r. by apply N.ltb_lt.
    + unfold decimalValue in *. rewrite fold_decimal_app, Hval. simpl.
      pose proof (N.div_mod x 10). lia.
Qed.

Lemma pretty_N_digits (x : N) :
  exists d ds,
    pretty x = digitString (d :: ds)
    /\ forallb (fun e => e <? 10)%N (d :: ds) = true
    /\ decimalValue (d :: ds) = Z.of_N x.
Proof.
  unfold pretty, pretty_N. case_decide as Hx.
  - subst. by exists 0%N, [].
  - destruct (pretty_N_go_digits x "") as (ds & Heq & Hds & Hval).
    destruct ds as [|d ds].
    + unfold decimalValue in Hval. simpl in Hval. lia.
    + exists d, ds. by rewrite Heq, append_nil_r.
Qed.

Lemma takeDigits_only (ds : list N) :
  forallb (fun e => e <? 10)%N ds = true -> takeDigits (digitString ds) = (ds, "").
Proof.
  intros Hds. rewrite <- (append_nil_r (digitString ds)).
  rewrite takeDigits_digitString by done. simpl. by rewrite app_nil_r.
Qed.

(** The exponent that Number::toString writes is read as it is. *)
Lemma exponentPart_written (e : Z) :
  exponentPart ("e" +:+ (if (e <? 0)%Z then "-" else "+") +:+ pretty (Z.abs_N e)) = e.
Proof.
  destruct (pretty_N_digits (Z.abs_N e)) as (d & ds & -> & Hds & Hval).
  destruct (e <? 0)%Z eqn:He.
  - apply Z.ltb_lt in He.
    change (exponentPart ("e" +:+ "-" +:+ digitString (d :: ds)))
      with (match takeDigits (digitString (d :: ds)) with
            | ([], _) => 0
            | (es, _) => - decimalValue es
            end%Z).
    rewrite takeDigits_only by done. cbv beta iota. rewrite Hval. lia.
  - apply Z.ltb_ge in He.
    change (exponentPart ("e" +:+ "+" +:+ digitString (d :: ds)))
      with (decimalValue (takeDigits (digitString (d :: ds))).1).
    rewrite takeDigits_only by done. cbv beta iota. unfold fst. rewrite Hval. lia.
Qed.

Lemma digitString_app (ds1 ds2 : list N) :
  digitString (ds1 ++ ds2) = digitString ds1 +:+ digitString ds2.
Proof. induction ds1 as [|d ds1 IH]; simpl; [done|]. by rewrite IH. Qed.

Lemma digitString_replicate (k : nat) : digitString (replicate k 0%N) = zeros k.
Proof. induction k as [|k IH]; simpl; [done|]. by rewrite IH. Qed.

Lemma startsWith_Infinity_digit (c : ascii) (r : string) :
  isDigit c = true -> Js.startsWith (String c r) "Infinity" = false.
Proof. destruct c as [[] [] [] [] [] [] [] []]; try reflexivity; discriminate. Qed.

Lemma parseFloat_digit_first (c : ascii) (r : string) :
  isDigit c = true -> parseFloat (Some (String c r)) = unsignedLiteral false (String c r).
Proof. destruct c as [[] [] [] [] [] [] [] []]; try reflexivity; discriminate. Qed.

Lemma takeDigits_endsMantissa (r : string) : endsMantissa r -> takeDigits r = ([], r).
Proof. by intros [->|[r' ->]]. Qed.

Lemma unsignedLiteral_integer (negative : bool) (i : N) (int : list N) (r : string) :
  forallb (fun e => e <? 10)%N (i :: int) = true -> endsMantissa r ->
  unsignedLiteral negative (digitString (i :: int) +:+ r)
  = mkFinite negative (i :: int) (Z.of_nat (length (i :: int)) + exponentPart r).
Proof.
  intros Hint Hr. unfold unsignedLiteral.
  rewrite takeDigits_digitString, takeDigits_endsMantissa by done.
  change (digitString (i :: int) +:+ r)
    with (String (digitChar i) (digitString int +:+ r)).
  rewrite startsWith_Infinity_digit by apply isDigit_digitChar.
  cbv beta iota. unfold fst, snd. rewrite app_nil_r.
  by destruct Hr as [->|[r' ->]]; rewrite app_nil_r.
Qed.

Lemma unsignedLiteral_fraction (negative : bool) (i : N) (int frac : list N) (r : string) :
  forallb (fun e => e <? 10)%N (i :: int) = true ->
  forallb (fun e => e <? 10)%N frac = true -> endsMantissa r ->
  unsignedLiteral negative (digitString (i :: int) +:+ "." +:+ digitString frac +:+ r)
  = mkFinite negative ((i :: int) ++ frac) (Z.of_nat (length (i :: int)) + exponentPart r).
Proof.
  intros Hint Hfrac Hr. unfold unsignedLiteral.
  rewrite takeDigits_digitString by done.
  change (takeDigits ("." +:+ ?s)) with (@nil N, String "." s).
  change (digitString (i :: int) +:+ ?s)
    with (String (digitChar i) (digitString int +:+ s)).
  rewrite startsWith_Infinity_digit by apply isDigit_digitChar.
  cbv beta iota. unfold fst, snd. rewrite app_nil_r.
  rewrite takeDigits_digitString, takeDigits_endsMantissa by done.
  cbv beta iota. unfold fst, snd. by rewrite app_nil_r.
Qed.

Lemma parseFloat_signed (negative : bool) (i : N) (int : list N) (r : string) :
  parseFloat (Some ((if negative then "-" else "") +:+ digitString (i :: int) +:+ r))
  = unsignedLiteral negative (digitString (i :: int) +:+ r).
Proof.
  destruct negative; [reflexivity|].
  change ("" +:+ digitString (i :: int) +:+ r)
    with (String (digitChar i) (digitString int +:+ r)).
  by rewrite parseFloat_digit_first by apply isDigit_digitChar.
Qed.

Lemma canonical_digits negative d ds n :
  canonical (Finite negative (d :: ds) n) = true ->
  forallb (fun e => e <? 10)%N (d :: ds) = true
  /\ (d =? 0)%N = false /\ (List.last (d :: ds) 0 =? 0)%N = false.
Proof.
  unfold canonical. intros H.
  apply andb_prop in H as [H Hlast]. apply andb_prop in H as [Hall Hd].
  apply negb_true_iff in Hd, Hlast. done.
Qed.

Lemma forallb_replicate_zero (k : nat) :
  forallb (fun e => e <? 10)%N (replicate k 0%N) = true.
Proof. by induction k. Qed.

Lemma mkFinite_significant negative d ds p :
  (d =? 0)%N = false -> (List.last (d :: ds) 0 =? 0)%N = false ->
  mkFinite negative (d :: ds) p = Finite negative (d :: ds) p.
Proof.
  intros Hd Hlast.
  pose proof (mkFinite_canonical negative d ds 0 0 p Hd Hlast) as H.
  simpl in H. rewrite app_nil_r in H. rewrite H. f_equal. lia.
Qed.

Lemma mkFinite_leading negative d ds leading p :
  (d =? 0)%N = false -> (List.last (d :: ds) 0 =? 0)%N = false ->
  mkFinite negative (replicate leading 0%N ++ d :: ds) p
  = Finite negative (d :: ds) (p - Z.of_nat leading).
Proof.
  intros Hd Hlast.
  pose proof (mkFinite_canonical negative d ds leading 0 p Hd Hlast) as H.
  simpl in H. by rewrite app_nil_r in H.
Qed.

Section Written.
Variables (negative : bool) (d : N) (ds : list N) (n : Z).
Hypothesis Hcanonical : canonical (Finite negative (d :: ds) n) = true.

Lemma written_integer (m : nat) :
  parseFloat (Some ((if negative then "-" else "") +:+ digitString (d :: ds) +:+ zeros m))
  = Finite negative (d :: ds) (Z.of_nat (length (d :: ds)) + Z.of_nat m).
Proof.
  destruct (canonical_digits _ _ _ _ Hcanonical) as (Hall & Hd & Hlast).
  rewrite <- (append_nil_r (zeros m)), <- digitString_replicate,
    <- (append_assoc (digitString (d :: ds))), <- digitString_app.
  change ((d :: ds) ++ replicate m 0%N) with (d :: (ds ++ replicate m 0%N)).
  rewrite parseFloat_signed, unsignedLiteral_integer.
  - etrans; [apply (mkFinite_canonical negative d ds 0 m); assumption|].
    f_equal. change (exponentPart "") with 0%Z.
    change (length (d :: ds ++ replicate m 0%N))
      with (length ((d :: ds) ++ replicate m 0%N)).
    rewrite length_app, length_replicate. simpl length. lia.
  - change (d :: (ds ++ replicate m 0%N)) with ((d :: ds) ++ replicate m 0%N).
    by rewrite forallb_app, Hall, forallb_replicate_zero.
  - by left.
Qed.

Lemma written_fraction (i : nat) :
  (i < length ds)%nat ->
  parseFloat (Some ((if negative then "-" else "") +:+ digitString (take (S i) (d :: ds)) +:+ "."
                    +:+ digitString (drop (S i) (d :: ds))))
  = Finite negative (d :: ds) (Z.of_nat (S i)).
Proof.
  intros Hi.
  destruct (canonical_digits _ _ _ _ Hcanonical) as (Hall & Hd & Hlast).
  assert (Hsplit : forallb (fun e => e <? 10)%N (take (S i) (d :: ds)) = true
                   /\ forallb (fun e => e <? 10)%N (drop (S i) (d :: ds)) = true).
  { rewrite <- (take_drop (S i) (d :: ds)), forallb_app in Hall.
    by apply andb_prop in Hall. }
  destruct Hsplit as [Htake Hdrop].
  rewrite <- (append_nil_r (digitString (drop (S i) (d :: ds)))).
  change (take (S i) (d :: ds)) with (d :: take i ds) in *.
  rewrite parseFloat_signed, unsignedLiteral_fraction; [|done|done|by left].
  change (d :: take i ds) with (take (S i) (d :: ds)).
  rewrite take_drop.
  rewrite mkFinite_significant by assumption.
  f_equal. change (exponentPart "") with 0%Z.
  rewrite length_take. simpl length. lia.
Qed.

Lemma written_small (m : nat) :
  parseFloat (Some ((if negative then "-" else "") +:+ "0." +:+ zeros m +:+ digitString (d :: ds)))
  = Finite negative (d :: ds) (- Z.of_nat m).
Proof.
  destruct (canonical_digits _ _ _ _ Hcanonical) as (Hall & Hd & Hlast).
  rewrite <- (append_nil_r (digitString (d :: ds))), <- digitString_replicate,
    <- (append_assoc (digitString (replicate m 0%N))), <- digitString_app.
  change ("0." +:+ ?s) with (digitString [0%N] +:+ "." +:+ s).
  rewrite parseFloat_signed, unsignedLiteral_fraction; [|done| |by left].
  - change ([0%N] ++ replicate m 0%N ++ d :: ds)
      with (replicate (S m) 0%N ++ d :: ds).
    rewrite mkFinite_leading by assumption.
    f_equal. change (exponentPart "") with 0%Z. simpl length. lia.
  - by rewrite forallb_app, Hall, forallb_replicate_zero.
Qed.

Lemma written_exponent (e : Z) :
  parseFloat (Some ((if negative then "-" else "") +:+
    match ds with
    | [] => String (digitChar d) ("e" +:+ (if (e <? 0)%Z then "-" else "+")
                                  +:+ pretty (Z.abs_N e))
    | _ => String (digitChar d) ("." +:+ digitString ds +:+ "e"
             +:+ (if (e <? 0)%Z then "-" else "+") +:+ pretty (Z.abs_N e))
    end))
  = Finite negative (d :: ds) (1 + e).
Proof.
  destruct (canonical_digits _ _ _ _ Hcanonical) as (Hall & Hd & Hlast).
  assert (Hd10 : forallb (fun e => e <? 10)%N [d] = true).
  { simpl in Hall. apply andb_prop in Hall as [Hd10 _]. simpl. by rewrite Hd10. }
  assert (Hds : forallb (fun e => e <? 10)%N ds = true).
  { simpl in Hall. by apply andb_prop in Hall as [_ Hds]. }
  destruct ds as [|d' ds'] eqn:Eds.
  - change (String (digitChar d) ?s) with (digitString [d] +:+ s).
    rewrite parseFloat_signed, unsignedLiteral_integer; [|done|right; by eexists].
    rewrite exponentPart_written.
    rewrite mkFinite_significant by assumption.
    f_equal; simpl length; lia.
  - rewrite <- Eds in *.
    change (String (digitChar d) ?s) with (digitString [d] +:+ s).
    rewrite parseFloat_signed, unsignedLiteral_fraction; [|done|done|right; by eexists].
    rewrite exponentPart_written. change ([d] ++ ds) with (d :: ds).
    rewrite mkFinite_significant by assumption.
    f_equal; simpl length; lia.
Qed.
End Written.

(** Number::toString followed by parseFloat gives the number back, for every
    number written with its significant digits only, negative zero apart
    (it is printed as [0]). *)
Lemma parseFloat_numberToString (x : number) :
  canonical x = true -> negativeZero x = false ->
  parseFloat (Some (numberToString x)) = x.
Proof.
  destruct x as [|negative|negative [|d ds] n]; intros Hc Hz.
  - reflexivity.
  - by destruct negative.
  - destruct negative; [discriminate|].
    simpl in Hc. apply Z.eqb_eq in Hc as ->. reflexivity.
  - unfold numberToString.
    destruct ((Z.of_nat (length (d :: ds)) <=? n)%Z && (n <=? 21)%Z) eqn:Einteger.
    { apply andb_prop in Einteger as [Hk _]. apply Z.leb_le in Hk.
      rewrite (written_integer negative d ds n Hc). f_equal. lia. }
    destruct ((0 <? n)%Z && (n <=? 21)%Z) eqn:Efraction.
    { apply andb_prop in Efraction as [H0 H21]. rewrite H21, andb_true_r in Einteger.
      apply Z.leb_gt in Einteger. apply Z.ltb_lt in H0.
      destruct (Z.to_nat n) as [|i] eqn:En; [lia|].
      rewrite (written_fraction negative d ds n Hc i); [f_equal; lia|].
      simpl length in Einteger. lia. }
    destruct ((-6 <? n)%Z && (n <=? 0)%Z) eqn:Esmall.
    { apply andb_prop in Esmall as [_ H0]. apply Z.leb_le in H0.
      rewrite (written_small negative d ds n Hc). f_equal. lia. }
    cbv zeta. rewrite (written_exponent negative d ds n Hc). f_equal. lia.
Qed.

(** *** What [parseFloat] returns is such a number *)

Lemma takeDigits_digits (s : string) :
  forallb (fun e => e <? 10)%N (takeDigits s).1 = true.
Proof.
  induction s as [|c s IH]; [done|]. simpl.
  destruct (isDigit c) eqn:Hc; [|done].
  destruct (takeDigits s) as [ds r]. simpl in *. rewrite IH, andb_true_r.
  unfold isDigit in Hc. apply andb_prop in Hc as [Hlow Hhigh].
  apply N.leb_le in Hlow, Hhigh. apply N.ltb_lt. unfold digitValue. lia.
Qed.

Lemma stripZeros_digits (ds : list N) (p : Z) :
  forallb (fun e => e <? 10)%N ds = true ->
  forallb (fun e => e <? 10)%N (stripZeros ds p).1 = true.
Proof.
  revert p. induction ds as [|d ds IH]; intros p Hds; [done|].
  destruct d as [|d]; [|done]. simpl. apply IH. by simpl in Hds.
Qed.

Lemma stripZeros_head (ds : list N) (p : Z) :
  match (stripZeros ds p).1 with
  | [] => True
  | d :: _ => (d =? 0)%N = false
  end.
Proof.
  revert p. induction ds as [|d ds IH]; intros p; [done|].
  destruct d as [|d]; [apply IH|done].
Qed.

Lemma dropTrailingZeros_cons (d : N) (ds : list N) :
  (d =? 0)%N = false -> dropTrailingZeros (d :: ds) = d :: dropTrailingZeros ds.
Proof. intros Hd. simpl. rewrite Hd. by destruct (dropTrailingZeros ds). Qed.

Lemma dropTrailingZeros_digits (ds : list N) :
  forallb (fun e => e <? 10)%N ds = true ->
  forallb (fun e => e <? 10)%N (dropTrailingZeros ds) = true.
Proof.
  induction ds as [|d ds IH]; [done|]. simpl. intros Hds.
  apply andb_prop in Hds as [Hd Hds]. specialize (IH Hds).
  destruct (dropTrailingZeros ds) as [|d' r].
  - destruct (d =? 0)%N; [done|]. simpl. by rewrite Hd.
  - change (forallb ?f (d :: ?l)) with (f d && forallb f l). by rewrite IH, Hd.
Qed.

Lemma dropTrailingZeros_ends (ds : list N) :
  match dropTrailingZeros ds with
  | [] => True
  | d :: r => (List.last (d :: r) 0 =? 0)%N = false
  end.
Proof.
  induction ds as [|d ds IH]; [done|]. simpl.
  destruct (dropTrailingZeros ds) as [|d' r].
  - by destruct (d =? 0)%N eqn:Hd.
  - exact IH.
Qed.

Lemma mkFinite_is_canonical (negative : bool) (ds : list N) (p : Z) :
  forallb (fun e => e <? 10)%N ds = true -> canonical (mkFinite negative ds p) = true.
Proof.
  intros Hds. unfold mkFinite.
  pose proof (stripZeros_digits ds p Hds) as Hall.
  pose proof (stripZeros_head ds p) as Hhead.
  destruct (stripZeros ds p) as [ds1 p1]. simpl in Hall, Hhead.
  destruct ds1 as [|d ds1]; [done|].
  pose proof (dropTrailingZeros_digits _ Hall) as Hall'.
  pose proof (dropTrailingZeros_ends (d :: ds1)) as Hlast.
  rewrite dropTrailingZeros_cons in * by done.
  unfold canonical. by rewrite Hall', Hhead, Hlast.
Qed.

Lemma unsignedLiteral_canonical (negative : bool) (s : string) :
  canonical (unsignedLiteral negative s) = true.
Proof.
  unfold unsignedLiteral. destruct (Js.startsWith s "Infinity"); [done|].
  pose proof (takeDigits_digits s) as Hint.
  destruct (takeDigits s) as [int r1]. simpl in Hint.
  assert (Hfrac : forall frac r2,
    forallb (fun e => e <? 10)%N frac = true ->
    canonical match int ++ frac with
              | [] => NaN
              | d :: ds => mkFinite negative (d :: ds) (Z.of_nat (length int) + exponentPart r2)
              end = true).
  { intros frac r2 Hfrac. destruct (int ++ frac) as [|d ds] eqn:E; [done|].
    apply mkFinite_is_canonical. by rewrite <- E, forallb_app, Hint, Hfrac. }
  destruct r1 as [|c r]; [by apply (Hfrac [] "")|].
  destruct (Ascii.eqb c ".") eqn:Hc.
  - apply Ascii.eqb_eq in Hc as ->.
    pose proof (takeDigits_digits r) as Hr. destruct (takeDigits r) as [frac r2].
    by apply Hfrac.
  - destruct c as [[] [] [] [] [] [] [] []]; try discriminate; by apply (Hfrac []).
Qed.

(** Every number that [parseFloat] returns is written with its significant
    digits only. *)
Lemma parseFloat_canonical (text : option string) : canonical (parseFloat text) = true.
Proof.
  destruct text as [s|]; [|done]. unfold parseFloat.
  destruct (Js.trimStart s) as [|c r]; [apply unsignedLiteral_canonical|].
  destruct c as [[] [] [] [] [] [] [] []]; apply unsignedLiteral_canonical.
Qed.

(** ** The round trip *)

Section RoundTrip.

Variable anchorHrefs : string -> list (option string).

(** C1, as the code has it.  The file that [exportKML] writes for one
    exportable record is read back by [parseKML] as exactly one record,
    which has the name, the category, the coordinates, the address, the
    website, the maps link, the status and the description of the record
    that was written. *)
Theorem kml_round_trip (ids : nat -> string) (v : Brewery) :
  Exportable v ->
  exists v',
    decodeKML anchorHrefs ids (exportKML [v]) = [v']
    /\ name v' = name v /\ category v' = category v
    /\ coordinates v' = coordinates v /\ address v' = address v
    /\ website v' = website v /\ googleMapsUri v' = googleMapsUri v
    /\ aliveStatus v' = aliveStatus v /\ description v' = description v.
Proof.
  intros [Hnm Xnm Xd Pd Td (a & Ha & Ha' & Xa & Ta) (w & Hw & Hw' & Xw & Tw) Sw
            (g & Hg & Hg' & Xg & Tg) [s Hs] Nlat Nlng Clat Clng Zlat Zlng].
  specialize (Sw w Hw).
  pose proof (parseFloat_numberToString _ Clat Zlat) as Rlat.
  pose proof (parseFloat_numberToString _ Clng Zlng) as Rlng.
  destruct (categoryValue_facts (category v)) as (Hcv & Xcv & Ccv).
  destruct (statusValue_facts s) as (_ & _ & Xsv).
  destruct (coordinatesText_read (coordinates v)) as (Hct & Xct & _ & _).
  eexists. split.
  - rewrite (exportKML_single v a w g s) by done.
    unfold decodeKML. rewrite parseFromString_kmlText by done.
    set (pm := placemarkNode _ _ _ _ _ _ _).
    change (Dom.documentElementsByTagName _ "Folder")
      with [folderNode (categoryValue (category v)) pm].
    unfold parseFolders.
    change (Dom.getElementsByTagName (folderNode (categoryValue (category v)) pm) "name")
      with [textElement "name" (categoryValue (category v)); textElement "name" (name v)].
    change (Dom.getElementsByTagName (folderNode (categoryValue (category v)) pm) "Placemark")
      with [pm].
    simpl. rewrite append_nil_r. unfold orElse. rewrite truthy_true, Ccv by done.
    unfold pm. rewrite parsePlacemark_exported; try done.
    by apply cleanDescription_plain.
  - simpl. by rewrite Ha, Hw, Hg, Hs.
Qed.

End RoundTrip.


Lemma laVirgen_exportable : Exportable laVirgen.
Proof.
  constructor; try reflexivity; try discriminate.
  - exists "Calle Turbina 13, Las Rozas". by repeat split.
  - exists "https://example.com/la-virgen". by repeat split.
  - by intros w [= <-].
  - exists "https://maps.google.com/?q=la+virgen". by repeat split.
  - by exists active.
Defined.

Lemma kml_round_trip_witness :
  exists v',
    decodeKML noAnchors (fun k => pretty k) (exportKML [laVirgen]) = [v']
    /\ name v' = name laVirgen /\ category v' = category laVirgen
    /\ coordinates v' = coordinates laVirgen /\ address v' = address laVirgen
    /\ website v' = website laVirgen /\ googleMapsUri v' = googleMapsUri laVirgen
    /\ aliveStatus v' = aliveStatus laVirgen /\ description v' = description laVirgen.
Proof. exact (kml_round_trip noAnchors (fun k => pretty k) laVirgen laVirgen_exportable). Defined.

(** C1 fails as stated: a website with a space in it comes back cut at
    the space, since strategy 1 keeps the first word of the value. *)
Lemma website_cut_at_space :
  website <$> decodeKML noAnchors (fun k => pretty k) (exportKML [laVirgenSpaced])
  = [Some "https://example.com/la"]
  /\ website laVirgenSpaced = Some "https://example.com/la virgen".
Proof. split; [vm_compute|]; reflexivity. Qed.


(** * Further properties of the handlers and of the KML codec *)

(** ** Trimming twice *)

Lemma truthy_iff (s : string) : Js.truthy s = true <-> s <> "".
Proof. unfold Js.truthy. by rewrite negb_true_iff, String.eqb_neq. Qed.

Lemma trimEnd_idem (s : string) : Js.trimEnd (Js.trimEnd s) = Js.trimEnd s.
Proof.
  induction s as [|c s IH]; [done|]. simpl.
  destruct (Js.trimEnd s) as [|c' r] eqn:E.
  - destruct (Js.isWhiteSpace c) eqn:Hc; [done|]. simpl. by rewrite Hc.
  - change (Js.trimEnd (String c (String c' r)))
      with (match Js.trimEnd (String c' r) with
            | "" => if Js.isWhiteSpace c then "" else String c ""
            | r' => String c r'
            end).
    by rewrite IH.
Qed.

Lemma trimStart_trimEnd (s : string) :
  Js.trimStart (Js.trimEnd (Js.trimStart s)) = Js.trimEnd (Js.trimStart s).
Proof.
  induction s as [|c s IH]; [done|]. simpl.
  destruct (Js.isWhiteSpace c) eqn:Hc; [done|]. simpl.
  destruct (Js.trimEnd s); rewrite ?Hc; simpl; by rewrite Hc.
Qed.

Lemma trim_idem (s : string) : Js.trim (Js.trim s) = Js.trim s.
Proof. unfold Js.trim. by rewrite trimStart_trimEnd, trimEnd_idem. Qed.

Lemma orElse_given (x : option string) (d : string) : d <> "" -> orElse x d <> "".
Proof.
  intros Hd. unfold orElse. destruct x as [s|]; [|done].
  destruct (Js.truthy s) eqn:Hs; [by apply truthy_iff|done].
Qed.

Section Decoded.

Variable anchorHrefs : string -> list (option string).

Lemma parsePlacemark_fields newId p c b :
  parsePlacemark anchorHrefs newId p c = Some b ->
  id b = newId /\ category b = c /\ wellFormed b.
Proof.
  unfold parsePlacemark.
  destruct (Js.trim <$> _) as [raw|]; [|done].
  destruct (Js.truthy raw); [|done].
  destruct (negb (isNaN _) && negb (isNaN _)); [|done].
  intros [= <-]. unfold wellFormed. simpl. repeat split.
  - by apply orElse_given.
  - by eexists.
  - destruct (Js.truthy (x_website _)) eqn:Hw; [|done].
    apply truthy_iff in Hw. congruence.
  - destruct (Js.truthy (x_googleMapsUri _)) eqn:Hg; [|done].
    apply truthy_iff in Hg. congruence.
  - by eexists.
  - unfold cleanDescription. apply trim_idem.
Qed.

Lemma parsePlacemark_anonymous newId newId' p c :
  anonymous <$> parsePlacemark anchorHrefs newId p c
  = anonymous <$> parsePlacemark anchorHrefs newId' p c.
Proof.
  unfold parsePlacemark.
  destruct (Js.trim <$> _) as [raw|]; [|done].
  destruct (Js.truthy raw); [|done].
  by destruct (negb (isNaN _) && negb (isNaN _)).
Qed.

Lemma parsePlacemarks_ids ids used ps c :
  id <$> parsePlacemarks anchorHrefs ids used ps c
  = ids <$> seq used (length (parsePlacemarks anchorHrefs ids used ps c)).
Proof.
  revert used. induction ps as [|p ps IH]; intros used; simpl; [done|].
  destruct (parsePlacemark anchorHrefs (ids used) p c) as [b|] eqn:Hp; [|apply IH].
  apply parsePlacemark_fields in Hp as [Hid _]. simpl. by rewrite Hid, IH.
Qed.

Lemma parseFolders_ids ids used folders :
  id <$> (parseFolders anchorHrefs ids used folders).1
  = ids <$> seq used (length (parseFolders anchorHrefs ids used folders).1).
Proof.
  revert used. induction folders as [|folder folders IH]; intros used; simpl; [done|].
  specialize (IH (used + length (parsePlacemarks anchorHrefs ids used
    (Dom.getElementsByTagName folder "Placemark")
    (getCategoryFromFolder
       (orElse (Dom.textContent <$> head (Dom.getElementsByTagName folder "name")) ""))))).
  destruct (parseFolders anchorHrefs ids _ folders) as [later found]. simpl in *.
  by rewrite fmap_app, length_app, seq_app, fmap_app, parsePlacemarks_ids, IH.
Qed.

Lemma decodeKML_ids ids xmlString :
  id <$> decodeKML anchorHrefs ids xmlString
  = ids <$> seq 0 (length (decodeKML anchorHrefs ids xmlString)).
Proof.
  unfold decodeKML.
  pose proof (parseFolders_ids ids 0
    (Dom.documentElementsByTagName (Dom.parseFromString xmlString) "Folder")) as Hf.
  destruct (parseFolders anchorHrefs ids 0 _) as [inFolders found]. simpl in Hf.
  destruct found; [done|].
  by rewrite fmap_app, length_app, seq_app, fmap_app, parsePlacemarks_ids, Hf.
Qed.

Lemma parsePlacemarks_anonymous ids ids' used used' ps c :
  anonymous <$> parsePlacemarks anchorHrefs ids used ps c
  = anonymous <$> parsePlacemarks anchorHrefs ids' used' ps c.
Proof.
  revert used used'. induction ps as [|p ps IH]; intros used used'; simpl; [done|].
  pose proof (parsePlacemark_anonymous (ids used) (ids' used') p c) as Hp.
  destruct (parsePlacemark anchorHrefs (ids used) p c) as [b|],
           (parsePlacemark anchorHrefs (ids' used') p c) as [b'|]; try done.
  assert (anonymous b = anonymous b') as Hb by (simpl in Hp; congruence).
  rewrite !fmap_cons. by rewrite Hb, (IH (S used) (S used')).
Qed.

Lemma parseFolders_anonymous ids ids' used used' folders :
  anonymous <$> (parseFolders anchorHrefs ids used folders).1
  = anonymous <$> (parseFolders anchorHrefs ids' used' folders).1
  /\ (parseFolders anchorHrefs ids used folders).2
     = (parseFolders anchorHrefs ids' used' folders).2.
Proof.
  revert used used'. induction folders as [|folder folders IH]; intros used used'; simpl; [done|].
  set (c := getCategoryFromFolder _).
  set (ps := Dom.getElementsByTagName folder "Placemark").
  specialize (IH (used + length (parsePlacemarks anchorHrefs ids used ps c))
                 (used' + length (parsePlacemarks anchorHrefs ids' used' ps c))).
  destruct (parseFolders anchorHrefs ids _ folders) as [later found],
           (parseFolders anchorHrefs ids' _ folders) as [later' found'].
  simpl in *. destruct IH as [IH ->].
  by rewrite !fmap_app, IH, (parsePlacemarks_anonymous ids ids' used used').
Qed.

Lemma decodeKML_anonymous ids ids' xmlString :
  anonymous <$> decodeKML anchorHrefs ids xmlString
  = anonymous <$> decodeKML anchorHrefs ids' xmlString.
Proof.
  unfold decodeKML.
  pose proof (parseFolders_anonymous ids ids' 0 0
    (Dom.documentElementsByTagName (Dom.parseFromString xmlString) "Folder")) as [Hf Hfound].
  destruct (parseFolders anchorHrefs ids 0 _) as [inFolders found],
           (parseFolders anchorHrefs ids' 0 _) as [inFolders' found'].
  simpl in *. subst found'. destruct found; [done|].
  by rewrite !fmap_app, Hf,
    (parsePlacemarks_anonymous ids ids' (length inFolders) (length inFolders')).
Qed.

Lemma decodeKML_wellFormed ids xmlString b :
  b ∈ decodeKML anchorHrefs ids xmlString -> wellFormed b.
Proof.
  intros (newId & p & c & Hb)%decodeKML_elem.
  by apply parsePlacemark_fields in Hb as (_ & _ & Hb).
Qed.

End Decoded.

(** ** Importing a file again *)

Lemma filter_none {A : Type} (f : A -> bool) (l : list A) :
  (forall x, x ∈ l -> f x = false) -> List.filter f l = [].
Proof.
  induction l as [|x l IH]; intros Hf; simpl; [done|].
  rewrite (Hf x) by left. apply IH. intros y Hy. apply Hf. by right.
Qed.

Lemma collides_app (l1 l2 : list Brewery) (b : Brewery) :
  collides (l1 ++ l2) b = collides l1 b || collides l2 b.
Proof. unfold collides. apply existsb_app. Qed.

Lemma collides_lowerNames (l : list Brewery) (b : Brewery) :
  collides l b = true <-> Js.toLowerCase (name b) ∈ lowerNames l.
Proof.
  rewrite <- elem_of_existingNames. unfold existingNames, lowerNames.
  by rewrite elem_of_list_to_set.
Qed.

Lemma mergeImported_again (prev incoming again : list Brewery) :
  lowerNames again = lowerNames incoming ->
  mergeImported (mergeImported prev incoming) again = mergeImported prev incoming.
Proof.
  intros Hnames. rewrite !mergeImported_refines. unfold mergeImported_spec.
  rewrite (filter_none _ again); [by rewrite app_nil_r|].
  intros b Hb. apply negb_false_iff. rewrite collides_app.
  assert (Js.toLowerCase (name b) ∈ lowerNames incoming) as Hin.
  { rewrite <- Hnames. unfold lowerNames. apply list_elem_of_fmap. by exists b. }
  apply list_elem_of_fmap in Hin as (b0 & Hname & Hb0).
  destruct (collides prev b) eqn:Hprev; [done|]. simpl.
  apply collides_lowerNames, list_elem_of_fmap. exists b0. split; [done|].
  apply list_elem_of_In, List.filter_In. split; [by apply list_elem_of_In|].
  apply negb_true_iff. destruct (collides prev b0) eqn:Hprev0; [|done].
  apply collides_lowerNames in Hprev0. rewrite <- Hname in Hprev0.
  apply collides_lowerNames in Hprev0. congruence.
Qed.

Lemma lowerNames_anonymous (l l' : list Brewery) :
  anonymous <$> l = anonymous <$> l' -> lowerNames l = lowerNames l'.
Proof.
  intros H. unfold lowerNames.
  change (fun b => Js.toLowerCase (name b))
    with ((fun b => Js.toLowerCase (name b)) ∘ anonymous).
  by rewrite !list_fmap_compose, H.
Qed.

(** The ids of the decoded records are the generator's, in the order of
    the records and one for each; nothing else in the records depends on
    the generator, and a generator that never repeats itself gives records
    with ids that are pairwise distinct. *)
Theorem decoded_ids_follow_generator anchorHrefs (ids : nat -> string) (xmlString : string) :
  id <$> decodeKML anchorHrefs ids xmlString
  = ids <$> seq 0 (length (decodeKML anchorHrefs ids xmlString))
  /\ (forall ids' : nat -> string,
        anonymous <$> decodeKML anchorHrefs ids' xmlString
        = anonymous <$> decodeKML anchorHrefs ids xmlString)
  /\ ((forall i j, ids i = ids j -> i = j) ->
      NoDup (id <$> decodeKML anchorHrefs ids xmlString)).
Proof.
  split; [apply decodeKML_ids|split].
  - intros ids'. apply decodeKML_anonymous.
  - intros Hinj. rewrite decodeKML_ids. apply NoDup_fmap_2; [exact Hinj|apply NoDup_seq].
Qed.

(** Every record that an import decodes has a name that is not empty, an
    address and a status, no date of a health check, a website and a maps
    link that are absent or not empty, and a description with no white
    space at its ends. *)
Theorem decoded_records_well_formed anchorHrefs (ids : nat -> string) (xmlString : string) :
  Forall wellFormed (decodeKML anchorHrefs ids xmlString).
Proof. apply Forall_forall. intros b. apply decodeKML_wellFormed. Qed.

(** Importing a file a second time, with new ids, adds nothing to the
    committed collection: every name of the file is committed by then. *)
Theorem reimport_adds_nothing anchorHrefs (ids ids' : nat -> string) (xmlString : string)
    (silent silent' : bool) (st : AppState) :
  let st1 := fst (parseKML anchorHrefs ids xmlString silent st) in
  breweries (fst (parseKML anchorHrefs ids' xmlString silent' st1)) = breweries st1.
Proof.
  simpl. rewrite !(parseKML_breweries anchorHrefs).
  apply mergeImported_again, lowerNames_anonymous, decodeKML_anonymous.
Qed.

(** ** The search *)

Lemma elem_of_filter_bool {A : Type} (f : A -> bool) (l : list A) (x : A) :
  x ∈ List.filter f l <-> x ∈ l /\ f x = true.
Proof. by rewrite !list_elem_of_In, List.filter_In. Qed.



(** ** Deleting and discarding *)

Lemma filter_out_comm (i j : string) (l : list Brewery) :
  List.filter (fun b => negb (hasId i b)) (List.filter (fun b => negb (hasId j b)) l)
  = List.filter (fun b => negb (hasId j b)) (List.filter (fun b => negb (hasId i b)) l).
Proof.
  induction l as [|b l IH]; [done|]. cbn [List.filter].
  destruct (hasId j b) eqn:Hj, (hasId i b) eqn:Hi; cbn [negb List.filter];
    rewrite ?Hi, ?Hj; cbn [negb]; by rewrite IH.
Qed.

Lemma handleDelete_fields (i : string) (st : AppState) :
  handleDelete i true st
  = mkApp (List.filter (fun b => negb (hasId i b)) (breweries st)) (foundBreweries st)
      (if bool_decide (selectedBreweryId st = Some i) then None else selectedBreweryId st)
      (editModalOpen st) (editingBrewery st).
Proof. unfold handleDelete. by case_bool_decide. Qed.

(** A confirmed deletion leaves no committed record with the deleted id,
    and never the deleted id selected.  Deleting twice is deleting once,
    discarding twice is discarding once, two deletions can be made in
    either order, and so can a deletion and a discard: they work on
    different lists. *)
Theorem removals_commute (i j : string) (st : AppState) :
  countId i (breweries (handleDelete i true st)) = 0
  /\ selectedBreweryId (handleDelete i true st) <> Some i
  /\ handleDelete i true (handleDelete i true st) = handleDelete i true st
  /\ handleDiscardFound j (handleDiscardFound j st) = handleDiscardFound j st
  /\ handleDelete i true (handleDelete j true st) = handleDelete j true (handleDelete i true st)
  /\ handleDelete i true (handleDiscardFound j st) = handleDiscardFound j (handleDelete i true st).
Proof.
  rewrite !handleDelete_fields.
  cbn [breweries foundBreweries selectedBreweryId editModalOpen editingBrewery].
  split; [apply countId_removed|]. split; [by case_bool_decide|].
  split; [|split; [|split]].
  - rewrite filter_out_idem. f_equal. by repeat case_bool_decide.
  - unfold handleDiscardFound, setFoundBreweries.
    cbn [breweries foundBreweries selectedBreweryId editModalOpen editingBrewery].
    by rewrite filter_out_idem.
  - rewrite filter_out_comm. f_equal. repeat case_bool_decide; congruence.
  - reflexivity.
Qed.

Lemma filter_absent (i : string) (l : list Brewery) :
  countId i l = 0 -> List.filter (fun b => negb (hasId i b)) l = l.
Proof.
  unfold countId. induction l as [|b l IH]; simpl; [done|].
  destruct (hasId i b); simpl; [done|]. intros H. by rewrite IH.
Qed.

(** Promoting a found record whose id is not committed and then deleting
    that id gives back the committed collection; the record is then in
    neither list. *)
Theorem promotion_undone_by_delete (b : Brewery) (st : AppState) :
  countId (id b) (breweries st) = 0 ->
  let st' := handleDelete (id b) true (handleAddToMap b st) in
  breweries st' = breweries st
  /\ countId (id b) (foundBreweries st') = 0.
Proof.
  intros Hfresh. cbv zeta.
  assert (breweries (handleDelete (id b) true (handleAddToMap b st))
          = List.filter (fun r => negb (hasId (id b) r)) (breweries st ++ [b])) as ->.
  { unfold handleDelete. by case_bool_decide. }
  assert (foundBreweries (handleDelete (id b) true (handleAddToMap b st))
          = List.filter (fun r => negb (hasId (id b) r)) (foundBreweries st)) as ->.
  { unfold handleDelete. by case_bool_decide. }
  split; [|apply countId_removed].
  rewrite List.filter_app, filter_absent by done. simpl.
  unfold hasId. rewrite String.eqb_refl. simpl. apply app_nil_r.
Qed.

Lemma promotion_undone_by_delete_witness :
  let b := venue "f1" "Cervezas La Virgen" in
  let st := mkApp [venue "1" "Row 44"] [b] None false None in
  let st' := handleDelete (id b) true (handleAddToMap b st) in
  breweries st' = breweries st /\ countId (id b) (foundBreweries st') = 0.
Proof.
  exact (promotion_undone_by_delete (venue "f1" "Cervezas La Virgen")
           (mkApp [venue "1" "Row 44"] [venue "f1" "Cervezas La Virgen"] None false None)
           eq_refl).
Defined.

(** ** The editor *)

Lemma handleChange_keeps (form : PartialBrewery) (changes : list Change) :
  let form' := fold_left handleChange changes form in
  p_id form' = p_id form /\ p_coordinates form' = p_coordinates form
  /\ p_lastAliveCheck form' = p_lastAliveCheck form
  /\ (is_Some (p_name form) -> is_Some (p_name form')).
Proof.
  revert form. induction changes as [|c changes IH]; intros form; simpl; [done|].
  destruct (IH (handleChange form c)) as (Hid & Hco & Hdate & Hname).
  rewrite Hid, Hco, Hdate. repeat split; try by destruct c.
  intros Hn. apply Hname. by destruct c.
Qed.

Lemma modalSave_Some (brewery : Brewery) (form : PartialBrewery) (updated : Brewery) :
  modalSave brewery form = Some updated ->
  updated = overlay brewery form /\ name updated <> "".
Proof.
  unfold modalSave. destruct (p_name form) as [n|] eqn:Hn; [|done].
  destruct (p_coordinates form); [|done].
  destruct (Js.truthy n) eqn:Ht; [|done]. intros [= <-]. split; [done|].
  simpl. rewrite Hn. simpl. by apply truthy_iff.
Qed.

Lemma edit_form_keeps (brewery : Brewery) (changes : list Change) (updated : Brewery) :
  modalSave brewery (fold_left handleChange changes (formOf brewery)) = Some updated ->
  id updated = id brewery /\ name updated <> "".
Proof.
  destruct (handleChange_keeps (formOf brewery) changes) as (Hid & _).
  cbv zeta in Hid. intros [-> Hn]%modalSave_Some. split; [|done].
  simpl. by rewrite Hid.
Qed.

(** Whatever is typed in the form, the record that [Save Changes] hands
    over has the id, the coordinates and the date of the last health check
    of the record that was opened, and a name that is not empty; the save is
    refused exactly when the name in the form is empty. *)
Theorem edit_keeps_identity (brewery : Brewery) (changes : list Change) :
  let form := fold_left handleChange changes (formOf brewery) in
  (forall updated, modalSave brewery form = Some updated ->
     id updated = id brewery /\ coordinates updated = coordinates brewery
     /\ lastAliveCheck updated = lastAliveCheck brewery /\ name updated <> "")
  /\ (modalSave brewery form = None <-> p_name form = Some "").
Proof.
  destruct (handleChange_keeps (formOf brewery) changes) as (Hid & Hco & Hdate & Hname).
  cbv zeta. split.
  - intros updated [-> Hn]%modalSave_Some. split; [|split; [|split; [|done]]].
    + simpl. by rewrite Hid.
    + simpl. by rewrite Hco.
    + simpl. rewrite Hdate. simpl. apply orField_same.
  - unfold modalSave. rewrite Hco. simpl.
    destruct Hname as [n Hn]; [by eexists|]. rewrite Hn.
    destruct (Js.truthy n) eqn:Ht.
    + apply truthy_iff in Ht. split; [done|congruence].
    + apply not_true_iff_false in Ht. rewrite truthy_iff in Ht.
      split; [intros _|done]. f_equal. by destruct (decide (n = "")).
Qed.





(** ** What holds in every state *)

Lemma Forall_filter_bool {A : Type} (P : A -> Prop) (f : A -> bool) (l : list A) :
  Forall P l -> Forall P (List.filter f l).
Proof.
  induction 1 as [|x l Hx Hl IH]; simpl; [done|]. destruct (f x); [by constructor|done].
Qed.

Lemma Forall_healthUpdate i status date (l : list Brewery) :
  Forall (fun b => name b <> "") l ->
  Forall (fun b => name b <> "") (healthUpdate i status date l).
Proof.
  unfold healthUpdate. intros Hl. apply Forall_fmap, (Forall_impl _ _ _ Hl).
  intros b Hb. simpl. by destruct (hasId i b).
Qed.

Lemma Forall_replaceById (updated : Brewery) (l : list Brewery) :
  name updated <> "" -> Forall (fun b => name b <> "") l ->
  Forall (fun b => name b <> "") (replaceById updated l).
Proof.
  unfold replaceById. intros Hu Hl. apply Forall_fmap, (Forall_impl _ _ _ Hl).
  intros b Hb. simpl. by destruct (hasId (id updated) b).
Qed.

Lemma allNamed_step anchorHrefs (st : AppState) (a : Action) :
  allNamed st -> offered st a -> allNamed (perform anchorHrefs a st).
Proof.
  intros [Hb Hf] Ha. unfold allNamed. destruct a; simpl in *.
  - rewrite (parseKML_breweries anchorHrefs). split.
    + rewrite mergeImported_refines. unfold mergeImported_spec.
      apply Forall_app. split; [done|]. apply Forall_filter_bool, Forall_forall.
      intros b Hin. by apply decodeKML_wellFormed in Hin as [Hn _].
    + unfold parseKML. by case_match.
  - unfold handleSearch. destruct resultBreweries as [|r rs]; [done|].
    assert (Forall (fun b => name b <> "")
              (List.filter (fun b => Js.truthy (name b)
                 && bool_decide (Js.toLowerCase (name b) ∉ existingNames (breweries st)))
                 (r :: rs))) as Hnew.
    { apply Forall_forall. intros b (_ & [Hn _]%andb_true_iff)%elem_of_filter_bool.
      by apply truthy_iff. }
    by repeat case_match.
  - unfold handleCheckStatus. repeat case_match; simpl; split; try done;
      by apply Forall_healthUpdate.
  - split.
    + apply Forall_app. split; [done|]. apply Forall_singleton.
      by apply (proj1 (Forall_forall _ _) Hf).
    + by apply Forall_filter_bool.
  - split; [done|]. by apply Forall_filter_bool.
  - unfold handleEdit. by case_match.
  - unfold handleEditFound. by case_match.
  - unfold saveChanges. destruct (editModalOpen st); [|done].
    destruct (editingBrewery st) as [brewery|]; [|done].
    destruct (modalSave _ _) as [updated|] eqn:Hsave; [|done].
    apply modalSave_Some in Hsave as [_ Hn].
    unfold handleSave. repeat case_match; simpl; split; try done;
      by apply Forall_replaceById.
  - done.
  - unfold handleDelete. destruct confirmed; [|done].
    case_match; simpl; split; try done; by apply Forall_filter_bool.
  - unfold handleClearAll. by destruct confirmed.
  - unfold handleAddManual, handleEdit. case_match; simpl; split; try done;
      (apply Forall_app; split; [done|]; by apply Forall_singleton).
Qed.

(** In every state that the app reaches, every record of the committed
    collection and of the found list has a name that is not empty. *)
Theorem names_never_empty anchorHrefs (st : AppState) :
  reachable anchorHrefs st ->
  Forall (fun b => name b <> "") (breweries st)
  /\ Forall (fun b => name b <> "") (foundBreweries st).
Proof.
  induction 1 as [|st a _ IH Ha]; [by split|]. by apply allNamed_step.
Qed.

Lemma editingNew_reachable : reachable noAnchors editingNew.
Proof.
  apply (reachable_perform noAnchors _ (Edit "m1")); [|exact I].
  apply (reachable_perform noAnchors _ (AddManual "m1")); [|exact I].
  apply reachable_initial.
Defined.

Lemma names_never_empty_witness :
  Forall (fun b => name b <> "") (breweries editingNew)
  /\ Forall (fun b => name b <> "") (foundBreweries editingNew).
Proof. exact (names_never_empty noAnchors editingNew editingNew_reachable). Defined.

Lemma editor_step anchorHrefs (st : AppState) (a : Action) :
  (editModalOpen st = true -> is_Some (editingBrewery st)) ->
  editModalOpen (perform anchorHrefs a st) = true ->
  is_Some (editingBrewery (perform anchorHrefs a st)).
Proof.
  intros Hst. destruct a; simpl.
  - unfold parseKML. by case_match.
  - unfold handleSearch. by repeat case_match.
  - unfold handleCheckStatus. by repeat case_match.
  - done.
  - done.
  - unfold handleEdit. by case_match.
  - unfold handleEditFound. by case_match.
  - unfold saveChanges. destruct (editModalOpen st) eqn:Ho; [|congruence].
    destruct (editingBrewery st) as [brewery|] eqn:He;
      [|intros _; rewrite ?He in *; by apply Hst].
    destruct (modalSave _ _); simpl; [done|]. by rewrite He.
  - done.
  - unfold handleDelete. by repeat case_match.
  - unfold handleClearAll. by case_match.
  - unfold handleAddManual, handleEdit. by case_match.
Qed.

(** In every state that the app reaches with the editor open, there is a
    record for it to show. *)
Theorem open_editor_has_record anchorHrefs (st : AppState) :
  reachable anchorHrefs st -> editModalOpen st = true -> is_Some (editingBrewery st).
Proof.
  induction 1 as [|st a _ IH Ha]; [done|]. by apply editor_step.
Qed.

Lemma open_editor_has_record_witness : is_Some (editingBrewery editingNew).
Proof.
  exact (open_editor_has_record noAnchors editingNew editingNew_reachable eq_refl).
Defined.

(** ** Category labels *)

(** Both readers of category names give each category for its own label,
    in any letter case and with white space around it. *)
Theorem category_labels_read_back (c : BreweryCategory) (s : string) :
  Js.trim (Js.toLowerCase s) = Js.toLowerCase (categoryValue c) ->
  getCategoryFromFolder s = c /\ normalizeCategory (Some s) = c.
Proof.
  intros Hs. unfold getCategoryFromFolder, normalizeCategory. rewrite Hs.
  assert (Js.truthy s = true) as ->.
  { apply truthy_iff. intros ->. by destruct c. }
  by destruct c.
Qed.

Lemma category_labels_read_back_witness :
  let s := "  L" +:+ String "218"%char "PULO DE ORO " in
  getCategoryFromFolder s = GOLD /\ normalizeCategory (Some s) = GOLD.
Proof.
  exact (category_labels_read_back GOLD ("  L" +:+ String "218"%char "PULO DE ORO ") eq_refl).
Defined.

(** ** The category filter *)

Lemma includesCategory_elem (l : list BreweryCategory) (c : BreweryCategory) :
  includesCategory l c = true <-> c ∈ l.
Proof.
  unfold includesCategory. rewrite existsb_exists. split.
  - intros (c' & Hin & Hc). apply bool_decide_eq_true in Hc as ->. by apply list_elem_of_In.
  - intros Hin. exists c. split; [by apply list_elem_of_In|by apply bool_decide_eq_true].
Qed.

Lemma includesCategory_toggle (c c' : BreweryCategory) (l : list BreweryCategory) :
  includesCategory (toggleCategory c l) c'
  = if bool_decide (c' = c) then negb (includesCategory l c) else includesCategory l c'.
Proof.
  unfold toggleCategory. destruct (includesCategory l c) eqn:Hc.
  - clear Hc. induction l as [|x l IH]; simpl.
    + by destruct (bool_decide (c' = c)).
    + destruct (bool_decide (x = c)) eqn:Hx; simpl.
      * rewrite IH. apply bool_decide_eq_true in Hx as ->.
        destruct (bool_decide (c' = c)) eqn:Hc'; [done|].
        apply bool_decide_eq_false in Hc'.
        by rewrite (bool_decide_eq_false_2 (c = c')) by congruence.
      * rewrite IH. apply bool_decide_eq_false in Hx.
        destruct (bool_decide (c' = c)) eqn:Hc'; [|done].
        apply bool_decide_eq_true in Hc' as ->.
        by rewrite bool_decide_eq_false_2.
  - unfold includesCategory in *. rewrite existsb_app. simpl. rewrite orb_false_r.
    destruct (bool_decide (c' = c)) eqn:Hc'.
    + apply bool_decide_eq_true in Hc' as ->. rewrite Hc. simpl.
      by apply bool_decide_eq_true.
    + apply bool_decide_eq_false in Hc'.
      rewrite (bool_decide_eq_false_2 (c = c')) by congruence. apply orb_false_r.
Qed.

(** A click on a category's box flips whether the category is selected
    and leaves the other categories as they are; a selection without
    repetition stays without. *)
Theorem toggleCategory_flips (c : BreweryCategory) (l : list BreweryCategory) :
  (forall c', c' ∈ toggleCategory c l <-> if decide (c' = c) then c ∉ l else c' ∈ l)
  /\ (NoDup l -> NoDup (toggleCategory c l)).
Proof.
  split.
  - intros c'. rewrite <- !includesCategory_elem, includesCategory_toggle.
    destruct (decide (c' = c)) as [->|Hne].
    + rewrite bool_decide_eq_true_2 by done. rewrite negb_true_iff.
      rewrite <- not_true_iff_false. by rewrite includesCategory_elem.
    + rewrite bool_decide_eq_false_2 by done. apply includesCategory_elem.
  - intros Hl. unfold toggleCategory. destruct (includesCategory l c) eqn:Hc.
    + clear Hc. induction Hl as [|x l Hx Hl IH]; simpl; [constructor|].
      destruct (negb (bool_decide (x = c))); [|done].
      constructor; [|done]. by intros [? _]%elem_of_filter_bool.
    + apply NoDup_app. split; [done|split; [|apply NoDup_singleton]].
      intros x Hx ->%list_elem_of_singleton.
      apply includesCategory_elem in Hx. congruence.
Qed.

Lemma filter_filter_bool {A : Type} (f g : A -> bool) (l : list A) :
  List.filter f (List.filter g l) = List.filter (fun x => g x && f x) l.
Proof.
  induction l as [|x l IH]; simpl; [done|].
  destruct (g x); simpl; [|done]. destruct (f x); by rewrite IH.
Qed.

(** With every category selected, as at the start, the map shows every
    committed record; a click on a selected category hides the records of
    that category and no other; a second click shows again what the first
    one hid. *)
Theorem filter_hides_and_shows (bs : list Brewery) (sel : list BreweryCategory)
    (c : BreweryCategory) :
  filteredBreweries bs allCategories = bs
  /\ (c ∈ sel ->
      filteredBreweries bs (toggleCategory c sel)
      = List.filter (fun b => negb (bool_decide (category b = c))) (filteredBreweries bs sel))
  /\ filteredBreweries bs (toggleCategory c (toggleCategory c sel))
     = filteredBreweries bs sel.
Proof.
  unfold filteredBreweries. split; [|split].
  - assert (forall c', includesCategory allCategories c' = true) as Hall
      by (by intros []).
    induction bs as [|b bs IH]; [done|].
    cbn [List.filter]. by rewrite Hall, IH.
  - intros Hc%includesCategory_elem.
    rewrite filter_filter_bool. apply List.filter_ext. intros b.
    rewrite includesCategory_toggle, Hc.
    destruct (bool_decide (category b = c)); simpl; [by rewrite andb_false_r|].
    by rewrite andb_true_r.
  - apply List.filter_ext. intros b. rewrite !includesCategory_toggle.
    destruct (bool_decide (category b = c)) eqn:Heq; [|done].
    apply bool_decide_eq_true in Heq. rewrite bool_decide_eq_true_2 by done.
    rewrite negb_involutive. by rewrite Heq.
Qed.

(** ** The groups of the sidebar *)

Lemma groups_Permutation (cs : list BreweryCategory) (bs : list Brewery) :
  NoDup cs ->
  concat (categoryItems bs <$> cs)
  ≡ₚ List.filter (fun b => includesCategory cs (category b)) bs.
Proof.
  induction 1 as [|c cs Hc Hcs IH]; simpl.
  - induction bs as [|b bs IHb]; [done|]. by cbn [List.filter includesCategory existsb].
  - rewrite IH. clear IH. unfold categoryItems.
    induction bs as [|b bs IHb]; [done|]. cbn [List.filter].
    change (includesCategory (c :: cs) (category b))
      with (bool_decide (c = category b) || includesCategory cs (category b)).
    destruct (bool_decide (category b = c)) eqn:Hb.
    + apply bool_decide_eq_true in Hb. rewrite (bool_decide_eq_true_2 (c = category b)) by done.
      assert (includesCategory cs (category b) = false) as ->.
      { apply not_true_iff_false. rewrite includesCategory_elem. by rewrite Hb. }
      simpl. by rewrite IHb.
    + apply bool_decide_eq_false in Hb.
      rewrite (bool_decide_eq_false_2 (c = category b)) by congruence. simpl.
      destruct (includesCategory cs (category b)); [|done].
      by rewrite <- Permutation_middle, IHb.
Qed.

Lemma filter_all_categories (cs : list BreweryCategory) (bs : list Brewery) :
  (forall c, includesCategory cs c = true) ->
  List.filter (fun b => includesCategory cs (category b)) bs = bs.
Proof.
  intros Hall. induction bs as [|b bs IH]; [done|].
  cbn [List.filter]. by rewrite Hall, IH.
Qed.

(** The groups of the sidebar hold every committed record exactly once:
    together they are a rearrangement of the collection, and the counter in
    the header is the sum of the groups' counts. *)
Theorem sidebar_groups_partition (bs : list Brewery) :
  concat (categoryItems bs <$> sidebarCategories) ≡ₚ bs
  /\ length bs = sum_list ((fun c => length (categoryItems bs c)) <$> sidebarCategories).
Proof.
  assert (concat (categoryItems bs <$> sidebarCategories) ≡ₚ bs) as Hp.
  { rewrite groups_Permutation.
    - rewrite filter_all_categories; [done|]. by intros [].
    - apply (bool_decide_unpack _). by vm_compute. }
  split; [done|]. rewrite <- Hp at 1. unfold sidebarCategories. simpl.
  rewrite !length_app. simpl. lia.
Qed.

(** ** Links in a description *)

Lemma truthy_false (s : string) : Js.truthy s = false -> s = "".
Proof.
  intros H. destruct (decide (s = "")) as [|Hs]; [done|].
  apply truthy_iff in Hs. congruence.
Qed.

Lemma linkStep_loop (hrefs : list (option string)) (x : extras) :
  let x' := fold_left linkStep hrefs x in
  x_website x'
  = (if Js.truthy (x_website x) then x_website x
     else firstLink (fun h => negb (isMapsLink h)) hrefs)
  /\ x_googleMapsUri x'
     = (if Js.truthy (x_googleMapsUri x) then x_googleMapsUri x
        else firstLink isMapsLink hrefs)
  /\ x_address x' = x_address x /\ x_aliveStatus x' = x_aliveStatus x.
Proof.
  revert x. induction hrefs as [|href hrefs IH]; intros x; cbn [fold_left firstLink].
  - cbv zeta. repeat split.
    + destruct (Js.truthy (x_website x)) eqn:Hw; [done|by apply truthy_false].
    + destruct (Js.truthy (x_googleMapsUri x)) eqn:Hg; [done|by apply truthy_false].
  - specialize (IH (linkStep x href)). cbv zeta in IH.
    destruct IH as (Hw & Hg & Ha & Hs). rewrite Hw, Hg, Ha, Hs. clear Hw Hg Ha Hs.
    unfold linkStep. destruct href as [h|]; [|done].
    destruct (Js.truthy h) eqn:Hh; [|done].
    destruct (isMapsLink h); cbn [negb andb].
    + destruct (Js.truthy (x_googleMapsUri x)) eqn:Hg; [by rewrite Hg|].
      cbn [x_website x_googleMapsUri x_address x_aliveStatus]. by rewrite Hh.
    + destruct (Js.truthy (x_website x)) eqn:Hw; [by rewrite Hw|].
      cbn [x_website x_googleMapsUri x_address x_aliveStatus]. by rewrite Hh.
Qed.

(** The links of a description only fill what the extended data left
    empty: a website or a maps link read before is kept, an empty one takes
    the first link of its kind that is not empty, and the address and the
    status are not touched.  With both read before, the links change
    nothing. *)
Theorem links_fill_what_is_missing (hrefs : list (option string)) (x : extras) :
  let x' := fold_left linkStep hrefs x in
  x_website x'
  = (if Js.truthy (x_website x) then x_website x
     else firstLink (fun h => negb (isMapsLink h)) hrefs)
  /\ x_googleMapsUri x'
     = (if Js.truthy (x_googleMapsUri x) then x_googleMapsUri x
        else firstLink isMapsLink hrefs)
  /\ x_address x' = x_address x /\ x_aliveStatus x' = x_aliveStatus x
  /\ (Js.truthy (x_website x) && Js.truthy (x_googleMapsUri x) = true -> x' = x).
Proof.
  destruct (linkStep_loop hrefs x) as (Hw & Hg & Ha & Hs). cbv zeta in *.
  repeat split; try done.
  intros [Tw Tg]%andb_true_iff. rewrite Tw in Hw. rewrite Tg in Hg.
  destruct (fold_left linkStep hrefs x), x. simpl in *. congruence.
Qed.

(** ** Cleaning a description twice *)

Lemma indexOfGt_without (s : string) : without ">" s = true -> indexOfGt s = None.
Proof.
  unfold without. induction s as [|c s IH]; simpl; [done|].
  intros [Hc Hs]%andb_true_iff. apply negb_true_iff in Hc. by rewrite Hc, IH.
Qed.

Lemma indexOfGt_None (s : string) : indexOfGt s = None -> without ">" s = true.
Proof.
  unfold without. induction s as [|c s IH]; simpl; [done|].
  destruct (Ascii.eqb c ">"); [done|]. simpl.
  destruct (indexOfGt s); [done|]. auto.
Qed.

Lemma tagLength_None (c : ascii) (s : string) :
  tagLength (String c s) = None
  <-> negb (Ascii.eqb c "<") || Js.startsWith s ">" || without ">" s = true.
Proof.
  destruct (Ascii.eqb c "<") eqn:Hc.
  - apply Ascii.eqb_eq in Hc as ->. cbn [negb orb tagLength].
    destruct s as [|c' s']; [done|].
    rewrite startsWith_cons, startsWith_nil, andb_true_r, (Ascii.eqb_sym ">" c').
    change (indexOfGt (String c' s'))
      with (if Ascii.eqb c' ">" then Some 0 else S <$> indexOfGt s').
    change (without ">" (String c' s'))
      with (negb (Ascii.eqb c' ">") && without ">" s').
    destruct (Ascii.eqb c' ">"); [done|]. cbn [negb orb andb].
    destruct (indexOfGt s') as [n|] eqn:Hs'; simpl.
    + split; [done|]. intros Hw%indexOfGt_without. congruence.
    + split; [|done]. intros _. by apply indexOfGt_None.
  - split; [done|]. intros _. apply tagLength_other. by rewrite Hc.
Qed.

Lemma without_dropChars (x : ascii) (n : nat) (s : string) :
  without x s = true -> without x (Js.dropChars n s) = true.
Proof.
  unfold without. revert s. induction n as [|n IH]; intros [|c s]; simpl; try done.
  intros [_ Hs]%andb_true_iff. by apply IH.
Qed.

Lemma brLength_tagLength (s : string) : tagLength s = None -> brLength s = None.
Proof.
  destruct s as [|c s]; [done|]. intros Ht.
  destruct (Ascii.eqb c "<") eqn:Hc; [|apply brLength_other; by rewrite Hc].
  apply Ascii.eqb_eq in Hc as ->. apply tagLength_None in Ht. cbn [negb orb] in Ht.
  destruct s as [|b [|r rest]]; try done.
  cbn [brLength].
  destruct ((Ascii.eqb b "b" || Ascii.eqb b "B") && (Ascii.eqb r "r" || Ascii.eqb r "R"))
    eqn:Hbr; [|done].
  apply orb_true_iff in Ht as [Ht|Ht].
  - rewrite startsWith_cons in Ht. apply andb_true_iff in Ht as [Hb _].
    apply Ascii.eqb_eq in Hb as <-. done.
  - unfold without in Ht. cbn [Js.every] in Ht.
    apply andb_true_iff in Ht as [_ [_ Hrest]%andb_true_iff].
    pose proof (without_dropChars ">" (countWhiteSpace rest) rest Hrest) as Hd.
    unfold without in Hd.
    destruct (Js.dropChars (countWhiteSpace rest) rest) as [|c1 [|c2 r2]]; [done| |].
    + simpl in Hd. rewrite andb_true_r in Hd. apply negb_true_iff in Hd.
      destruct c1 as [[] [] [] [] [] [] [] []]; try done.
    + simpl in Hd. apply andb_true_iff in Hd as [H1 [H2 _]%andb_true_iff].
      apply negb_true_iff in H1, H2.
      destruct c1 as [[] [] [] [] [] [] [] []]; try done.
      destruct c2 as [[] [] [] [] [] [] [] []]; try done.
Qed.

Lemma without_replaceAll (x : ascii) (matchLength : string -> option nat) (skip : nat)
    (s : string) :
  without x s = true -> without x (Js.replaceAll matchLength "" skip s) = true.
Proof.
  unfold without. revert skip. induction s as [|c s IH]; intros skip; [done|].
  cbn [Js.every Js.replaceAll]. intros [Hc Hs]%andb_true_iff.
  destruct skip as [|k]; [|by apply IH].
  destruct (matchLength (String c s)); [by apply IH|].
  cbn [Js.every]. by rewrite Hc, IH.
Qed.

Lemma noTag_replaceAll (skip : nat) (s : string) :
  noTag (Js.replaceAll tagLength "" skip s) = true.
Proof.
  revert skip. induction s as [|c s IH]; intros skip; [done|].
  cbn [Js.replaceAll]. destruct skip as [|k]; [|apply IH].
  destruct (tagLength (String c s)) as [n|] eqn:Ht; [apply IH|].
  cbn [noTag]. rewrite IH, andb_true_r.
  apply tagLength_None in Ht.
  apply orb_true_iff in Ht as [Ht|Ht]; [apply orb_true_iff in Ht as [Ht|Ht]|].
  - by rewrite Ht.
  - destruct s as [|c' s']; [done|].
    rewrite startsWith_cons, startsWith_nil, andb_true_r in Ht.
    apply Ascii.eqb_eq in Ht as <-.
    cbn [Js.replaceAll]. rewrite (tagLength_other ">") by done.
    by rewrite orb_true_r.
  - by rewrite without_replaceAll, orb_true_r.
Qed.

Lemma noTag_tagLength (s : string) : noTag s = true -> tagLength s = None.
Proof.
  destruct s as [|c s]; [done|]. cbn [noTag].
  intros [Hc _]%andb_true_iff. by apply tagLength_None.
Qed.

Lemma noTag_dropChars (n : nat) (s : string) :
  noTag s = true -> noTag (Js.dropChars n s) = true.
Proof.
  revert s. induction n as [|n IH]; intros [|c s]; try done.
  cbn [noTag Js.dropChars]. intros [_ Hs]%andb_true_iff. by apply IH.
Qed.

Lemma replaceAll_noTag (matchLength : string -> option nat) (by_ s : string) :
  (forall t, tagLength t = None -> matchLength t = None) ->
  noTag s = true -> Js.replaceAll matchLength by_ 0 s = s.
Proof.
  intros Hm. induction s as [|c s IH]; [done|].
  intros Hs. pose proof (noTag_tagLength _ Hs) as Ht.
  cbn [noTag] in Hs. apply andb_true_iff in Hs as [_ Hs].
  cbn [Js.replaceAll]. by rewrite (Hm _ Ht), IH.
Qed.

Lemma noTag_trimStart (s : string) : noTag s = true -> noTag (Js.trimStart s) = true.
Proof.
  induction s as [|c s IH]; [done|]. intros Hs. cbn [Js.trimStart].
  destruct (Js.isWhiteSpace c); [|done].
  cbn [noTag] in Hs. apply andb_true_iff in Hs as [_ Hs]. by apply IH.
Qed.

Lemma without_trimEnd (x : ascii) (s : string) :
  without x s = true -> without x (Js.trimEnd s) = true.
Proof.
  unfold without. induction s as [|c s IH]; [done|].
  cbn [Js.every Js.trimEnd]. intros [Hc Hs]%andb_true_iff. specialize (IH Hs).
  destruct (Js.trimEnd s).
  - destruct (Js.isWhiteSpace c); [done|]. cbn [Js.every]. by rewrite Hc.
  - cbn [Js.every] in *. by rewrite Hc.
Qed.

Lemma startsWith_trimEnd (s : string) :
  Js.startsWith s ">" = true -> Js.startsWith (Js.trimEnd s) ">" = true.
Proof.
  destruct s as [|c s]; [done|].
  rewrite startsWith_cons, startsWith_nil, andb_true_r.
  intros Hc%Ascii.eqb_eq. subst c. cbn [Js.trimEnd].
  by destruct (Js.trimEnd s).
Qed.

Lemma noTag_trimEnd (s : string) : noTag s = true -> noTag (Js.trimEnd s) = true.
Proof.
  induction s as [|c s IH]; [done|].
  cbn [noTag Js.trimEnd]. intros [Hc Hs]%andb_true_iff. specialize (IH Hs).
  destruct (Js.trimEnd s) as [|c' r] eqn:Hr.
  - destruct (Js.isWhiteSpace c); [done|]. cbn [noTag]. unfold without. cbn [Js.every].
    by rewrite orb_true_r.
  - cbn [noTag] in *. rewrite IH, andb_true_r.
    apply orb_true_iff in Hc as [Hc|Hc]; [apply orb_true_iff in Hc as [Hc|Hc]|].
    + by rewrite Hc.
    + apply startsWith_trimEnd in Hc. rewrite Hr in Hc. by rewrite Hc, orb_true_r.
    + apply (without_trimEnd ">") in Hc. rewrite Hr in Hc. by rewrite Hc, orb_true_r.
Qed.

Lemma noTag_cleanDescription (d : string) : noTag (cleanDescription d) = true.
Proof.
  unfold cleanDescription, Js.trim.
  apply noTag_trimEnd, noTag_trimStart, noTag_replaceAll.
Qed.

(** Cleaning a description a second time changes nothing: no position of
    a cleaned description starts a line break tag or any tag for the two
    expressions to match, and it has no white space at its ends. *)
Theorem cleanDescription_idempotent (d : string) :
  cleanDescription (cleanDescription d) = cleanDescription d
  /\ (forall n, tagLength (Js.dropChars n (cleanDescription d)) = None)
  /\ (forall n, brLength (Js.dropChars n (cleanDescription d)) = None)
  /\ Js.trim (cleanDescription d) = cleanDescription d.
Proof.
  pose proof (noTag_cleanDescription d) as Hd.
  assert (Js.trim (cleanDescription d) = cleanDescription d) as Htrim
    by (unfold cleanDescription; apply trim_idem).
  split; [|split; [|split; [|done]]].
  - unfold cleanDescription at 1.
    rewrite (replaceAll_noTag brLength) by (exact brLength_tagLength || done).
    by rewrite (replaceAll_noTag tagLength) by done.
  - intros n. by apply noTag_tagLength, noTag_dropChars.
  - intros n. by apply brLength_tagLength, noTag_tagLength, noTag_dropChars.
Qed.

(** ** What a file keeps of a record *)

Lemma filter_fmap_bool {A B : Type} (f : A -> B) (p : B -> bool) (l : list A) :
  List.filter p (f <$> l) = f <$> List.filter (fun x => p (f x)) l.
Proof.
  induction l as [|x l IH]; [done|]. rewrite fmap_cons. cbn [List.filter].
  rewrite IH. by destruct (p (f x)).
Qed.

Lemma placemarks_written (items : list Brewery) :
  foldr (fun b rest => placemarkText b +:+ rest) "" (written <$> items)
  = foldr (fun b rest => placemarkText b +:+ rest) "" items.
Proof. induction items as [|x items IH]; [done|]. rewrite fmap_cons. cbn [foldr]. by rewrite IH. Qed.

Lemma folderText_written (l : list Brewery) (c : BreweryCategory) :
  folderText (written <$> l) c = folderText l c.
Proof.
  unfold folderText. cbv zeta. rewrite filter_fmap_bool.
  change (fun x => bool_decide (category (written x) = c))
    with (fun x => bool_decide (category x = c)).
  rewrite placemarks_written. by destruct (List.filter _ l).
Qed.

Lemma exportKML_written (l : list Brewery) : exportKML (written <$> l) = exportKML l.
Proof.
  unfold exportKML. do 13 f_equal. unfold allCategories. cbn [foldr].
  by rewrite !folderText_written.
Qed.

(** The file does not say the ids of the records nor the dates of their
    last health checks: two collections that differ in nothing else are
    written as the same file. *)
Theorem export_ignores_ids (l l' : list Brewery) :
  written <$> l = written <$> l' -> exportKML l = exportKML l'.
Proof. intros H. by rewrite <- (exportKML_written l), <- (exportKML_written l'), H. Qed.

Lemma export_ignores_ids_witness :
  exportKML [withHealth active "2025-01-01T00:00:00.000Z" (venue "1" "Row 44")]
  = exportKML [withHealth active "2026-06-30T12:00:00.000Z" (venue "2" "Row 44")].
Proof. apply export_ignores_ids. reflexivity. Defined.

(** ** The file of a collection, token by token *)

Lemma lex_documentHead rest :
  Dom.lex Dom.InText (documentHead +:+ rest) = documentHeadTokens ++ Dom.lex Dom.InText rest.
Proof. reflexivity. Qed.
Lemma lex_folderHead rest :
  Dom.lex Dom.InText (folderHead +:+ rest) = folderHeadTokens ++ Dom.lex Dom.InText rest.
Proof. reflexivity. Qed.
Lemma lex_nameEnd rest :
  Dom.lex Dom.InText ("</name>" +:+ rest) = Dom.TClose "name" :: Dom.lex Dom.InText rest.
Proof. reflexivity. Qed.
Lemma lex_placemarkHead rest :
  Dom.lex Dom.InText (placemarkHead +:+ rest)
  = placemarkHeadTokens ++ Dom.lex Dom.InText rest.
Proof. reflexivity. Qed.
Lemma lex_placemarkTail rest :
  Dom.lex Dom.InText (placemarkTail +:+ rest)
  = placemarkTailTokens ++ Dom.lex Dom.InText rest.
Proof. reflexivity. Qed.
Lemma lex_folderTail rest :
  Dom.lex Dom.InText (folderTail +:+ rest) = folderTailTokens ++ Dom.lex Dom.InText rest.
Proof. reflexivity. Qed.

(** What an exportable record gives for its texts. *)
Lemma Exportable_texts (v : Brewery) :
  Exportable v ->
  address v = Some (addressText v) /\ website v = Some (websiteText v)
  /\ googleMapsUri v = Some (googleMapsUriText v)
  /\ (exists s, aliveStatus v = Some s /\ aliveStatusText v = statusValue s)
  /\ addressText v <> "" /\ websiteText v <> "" /\ googleMapsUriText v <> ""
  /\ cdataText (addressText v) = true /\ cdataText (websiteText v) = true
  /\ cdataText (googleMapsUriText v) = true /\ cdataText (aliveStatusText v) = true
  /\ Js.trim (addressText v) = addressText v /\ Js.trim (websiteText v) = websiteText v
  /\ Js.trim (googleMapsUriText v) = googleMapsUriText v
  /\ Js.includes (websiteText v) " " = false.
Proof.
  intros [Hnm Xnm Xd Pd Td (a & Ha & Ha' & Xa & Ta) (w & Hw & Hw' & Xw & Tw) Sw
            (g & Hg & Hg' & Xg & Tg) [s Hs] Nlat Nlng Clat Clng Zlat Zlng].
  specialize (Sw w Hw).
  unfold addressText, websiteText, googleMapsUriText, aliveStatusText.
  rewrite Ha, Hw, Hg, Hs. simpl.
  destruct (statusValue_facts s) as (_ & _ & Xsv).
  repeat split; try done. by exists s.
Qed.

Lemma lex_placemark (v : Brewery) (rest : string) :
  Exportable v ->
  Dom.lex Dom.InText (nl +:+ (placemarkText v +:+ rest))
  = placemarkTokens v ++ Dom.lex Dom.InText (nl +:+ rest).
Proof.
  intros Hv.
  destruct (Exportable_texts v Hv)
    as (Ha & Hw & Hg & (s & Hs & Hsv) & Na & Nw & Ng & Xa & Xw & Xg & Xs & _).
  destruct Hv as [_ Xnm Xd _ _ _ _ _ _ _ _ _ _ _ _ _].
  apply cdataText_facts in Xnm as (_ & _ & Enm), Xd as (_ & _ & Ed), Xa as (_ & _ & Ea),
    Xw as (_ & _ & Ew), Xg as (_ & _ & Eg), Xs as (_ & _ & Es).
  destruct (coordinatesText_read (coordinates v)) as (Hct & Xct & _ & _).
  apply plainText_facts in Xct as (_ & _ & Lct & Act).
  rewrite (placemarkText_populated v _ _ _ s rest Ha Na Hw Nw Hg Ng Hs).
  rewrite <- Hsv.
  change (nl +:+ "      <Placemark>" +:+ nl +:+ "        <name>" +:+ ?r)
    with (placemarkHead +:+ r).
  rewrite lex_placemarkHead, lex_cdataSection by assumption.
  rewrite lex_upToDescription, lex_cdataSection by assumption.
  rewrite lex_upToAddress, lex_cdataSection by assumption.
  rewrite lex_upToWebsite, lex_cdataSection by assumption.
  rewrite lex_upToGoogleMapsUri, lex_cdataSection by assumption.
  rewrite lex_upToAliveStatus, lex_cdataSection by assumption.
  rewrite lex_upToCoordinates.
  rewrite lex_text_before by (assumption || reflexivity).
  change ("</coordinates>" +:+ nl +:+ "        </Point>" +:+ nl +:+ "      </Placemark>"
            +:+ nl +:+ rest)
    with (placemarkTail +:+ (nl +:+ rest)).
  rewrite lex_placemarkTail. unfold placemarkTokens.
  repeat (rewrite <- ?app_assoc, <- ?app_comm_cons). reflexivity.
Qed.

Lemma lex_placemarks (items : list Brewery) (rest : string) :
  Forall Exportable items ->
  Dom.lex Dom.InText
    (nl +:+ (foldr (fun b rest => placemarkText b +:+ rest) "" items +:+ rest))
  = concat (placemarkTokens <$> items) ++ Dom.lex Dom.InText (nl +:+ rest).
Proof.
  induction 1 as [|v items Hv Hitems IH]; [done|].
  cbn [foldr]. rewrite append_assoc, lex_placemark by done.
  rewrite IH, fmap_cons. cbn [concat]. by rewrite app_assoc.
Qed.

Lemma lex_folder (l : list Brewery) (c : BreweryCategory) (rest : string) :
  Forall Exportable l ->
  Dom.lex Dom.InText (nl +:+ (folderText l c +:+ rest))
  = folderTokens l c ++ Dom.lex Dom.InText (nl +:+ rest).
Proof.
  intros Hl. unfold folderText, folderTokens. cbv zeta.
  fold (categoryItems l c).
  assert (Forall Exportable (categoryItems l c)) as Hitems
    by (by apply Forall_filter_bool).
  destruct (categoryItems l c) as [|v items] eqn:Hc; [done|].
  rewrite <- Hc in *. clear Hc.
  destruct (categoryValue_facts c) as (Hcv & Xcv & _).
  apply plainText_facts in Xcv as (_ & _ & Lcv & Acv).
  rewrite !append_assoc.
  change (nl +:+ "    <Folder>" +:+ nl +:+ "      <name>" +:+ ?r) with (folderHead +:+ r).
  rewrite lex_folderHead, lex_text_before by (assumption || reflexivity).
  rewrite lex_nameEnd, lex_placemarks by done.
  change (nl +:+ "    </Folder>" +:+ nl +:+ rest) with (folderTail +:+ (nl +:+ rest)).
  rewrite lex_folderTail.
  repeat (rewrite <- ?app_assoc, <- ?app_comm_cons). reflexivity.
Qed.

Lemma lex_folders (l : list Brewery) (cs : list BreweryCategory) (rest : string) :
  Forall Exportable l ->
  Dom.lex Dom.InText
    (nl +:+ (foldr (fun c rest => folderText l c +:+ rest) "" cs +:+ rest))
  = concat (folderTokens l <$> cs) ++ Dom.lex Dom.InText (nl +:+ rest).
Proof.
  intros Hl. induction cs as [|c cs IH]; [done|].
  cbn [foldr]. rewrite append_assoc, lex_folder by done.
  rewrite IH, fmap_cons. cbn [concat]. by rewrite app_assoc.
Qed.

Lemma lex_exportKML (l : list Brewery) :
  Forall Exportable l ->
  Dom.lex Dom.InText (exportKML l)
  = documentHeadTokens ++ concat (folderTokens l <$> allCategories) ++ documentTailTokens.
Proof.
  intros Hl. unfold exportKML.
  change (Dom.lex Dom.InText (documentHead +:+
            (nl +:+ (foldr (fun c rest => folderText l c +:+ rest) "" allCategories
                     +:+ ("  </Document>" +:+ nl +:+ "</kml>"))))
          = documentHeadTokens ++ concat (folderTokens l <$> allCategories)
              ++ documentTailTokens).
  by rewrite lex_documentHead, lex_folders.
Qed.

(** ** The tree of the file of a collection *)

Lemma build_placemark (v : Brewery) rest n attrs cs stack top :
  Dom.build (placemarkTokens v ++ rest) ((n, attrs, cs) :: stack) top
  = Dom.build rest ((n, attrs, placemarkNodeOf v :: gap 6 :: cs) :: stack) top.
Proof. reflexivity. Qed.

Lemma build_placemarks (items : list Brewery) rest n attrs cs stack top :
  Dom.build (concat (placemarkTokens <$> items) ++ rest) ((n, attrs, cs) :: stack) top
  = Dom.build rest ((n, attrs, rev (placemarkNodes items) ++ cs) :: stack) top.
Proof.
  revert cs. induction items as [|v items IH]; intros cs; [done|].
  rewrite fmap_cons. cbn [concat]. rewrite <- app_assoc, build_placemark, IH.
  unfold placemarkNodes. cbn [flat_map]. rewrite rev_app_distr, <- app_assoc. reflexivity.
Qed.

Lemma build_folderHead (cv : string) ts n attrs cs stack top :
  Dom.build (folderHeadTokens ++ Dom.TChars cv :: Dom.TClose "name" :: ts)
    ((n, attrs, cs) :: stack) top
  = Dom.build ts (("Folder", [], [textElement "name" cv; gap 6])
                    :: (n, attrs, gap 4 :: cs) :: stack) top.
Proof. reflexivity. Qed.

Lemma build_folderTail rest kids n attrs cs stack top :
  Dom.build (folderTailTokens ++ rest) (("Folder", [], kids) :: (n, attrs, cs) :: stack) top
  = Dom.build rest
      ((n, attrs, Dom.Element "Folder" [] (rev (gap 4 :: kids)) :: cs) :: stack) top.
Proof. reflexivity. Qed.

Lemma build_folder (l : list Brewery) (c : BreweryCategory) rest n attrs cs stack top :
  Dom.build (folderTokens l c ++ rest) ((n, attrs, cs) :: stack) top
  = Dom.build rest ((n, attrs, rev (folderNodes l [c]) ++ cs) :: stack) top.
Proof.
  unfold folderTokens, folderNodes, folderNodeOf. cbn [flat_map]. rewrite app_nil_r.
  destruct (categoryItems l c) as [|v items] eqn:Hc; [done|].
  rewrite <- Hc. clear Hc. generalize (categoryItems l c). intros its.
  rewrite <- app_assoc, <- !app_comm_cons, <- app_assoc.
  rewrite build_folderHead, build_placemarks, build_folderTail.
  cbn [rev]. rewrite rev_app_distr, rev_involutive. cbn [rev app].
  by rewrite <- ?app_assoc.
Qed.

Lemma folderNodes_cons (l : list Brewery) (c : BreweryCategory) (cs : list BreweryCategory) :
  folderNodes l (c :: cs) = folderNodes l [c] ++ folderNodes l cs.
Proof. unfold folderNodes. cbn [flat_map]. by rewrite app_nil_r. Qed.

Lemma build_folders (l : list Brewery) (cs : list BreweryCategory) rest n attrs kids stack top :
  Dom.build (concat (folderTokens l <$> cs) ++ rest) ((n, attrs, kids) :: stack) top
  = Dom.build rest ((n, attrs, rev (folderNodes l cs) ++ kids) :: stack) top.
Proof.
  revert kids. induction cs as [|c cs IH]; intros kids; [done|].
  rewrite fmap_cons. cbn [concat]. rewrite <- app_assoc, build_folder, IH.
  by rewrite (folderNodes_cons l c cs), rev_app_distr, <- app_assoc.
Qed.

Lemma build_documentHead ts :
  Dom.build (documentHeadTokens ++ ts) [] []
  = Dom.build ts
      [("Document", [], [textElement "name" "Craft Beer Map Spain"; gap 4]);
       ("kml", [("xmlns", "http://www.opengis.net/kml/2.2")], [gap 2])] [].
Proof. reflexivity. Qed.

Lemma build_documentTail kids attrs :
  Dom.build documentTailTokens [("Document", [], kids); ("kml", attrs, [gap 2])] []
  = Some [Dom.Element "kml" attrs
            [gap 2; Dom.Element "Document" [] (rev (gap 2 :: kids)); gap 0]].
Proof. reflexivity. Qed.

Lemma build_exportKML (l : list Brewery) :
  Dom.build (documentHeadTokens ++ concat (folderTokens l <$> allCategories)
               ++ documentTailTokens) [] []
  = Some [kmlTreeOf l].
Proof.
  rewrite build_documentHead, build_folders, build_documentTail.
  unfold kmlTreeOf. cbn [rev]. rewrite rev_app_distr, rev_involutive. cbn [rev app].
  by rewrite <- ?app_assoc.
Qed.

(** ** The characters of the file *)

Lemma every_and (f g : ascii -> bool) (s : string) :
  Js.every (fun c => f c && g c) s = Js.every f s && Js.every g s.
Proof.
  induction s as [|c s IH]; [done|]. cbn [Js.every]. rewrite IH.
  destruct (f c), (g c), (Js.every f s); done.
Qed.

Lemma fileChar_cdataText (p : string) : cdataText p = true -> Js.every fileChar p = true.
Proof.
  intros (Hx & Hcr & _)%cdataText_facts. unfold fileChar. rewrite every_and, Hx.
  exact Hcr.
Qed.

Lemma fileChar_plainText (t : string) : plainText t = true -> Js.every fileChar t = true.
Proof.
  intros (Hx & Hcr & _)%plainText_facts. unfold fileChar. rewrite every_and, Hx.
  exact Hcr.
Qed.

Lemma fileChar_placemarkText (v : Brewery) :
  Exportable v -> Js.every fileChar (placemarkText v) = true.
Proof.
  intros Hv.
  destruct (Exportable_texts v Hv)
    as (Ha & Hw & Hg & (s & Hs & Hsv) & Na & Nw & Ng & Xa & Xw & Xg & Xs & _).
  destruct Hv as [_ Xnm Xd _ _ _ _ _ _ _ _ _ _ _ _ _].
  destruct (coordinatesText_read (coordinates v)) as (_ & Xct & _ & _).
  apply fileChar_cdataText in Xnm, Xd, Xa, Xw, Xg, Xs. apply fileChar_plainText in Xct.
  rewrite <- (append_nil_r (placemarkText v)).
  rewrite (placemarkText_populated v _ _ _ s "" Ha Na Hw Nw Hg Ng Hs), <- Hsv.
  unfold cdataSection. rewrite !every_app, Xnm, Xd, Xa, Xw, Xg, Xs, Xct. reflexivity.
Qed.

Lemma fileChar_placemarks (items : list Brewery) :
  Forall Exportable items ->
  Js.every fileChar (foldr (fun b rest => placemarkText b +:+ rest) "" items) = true.
Proof.
  induction 1 as [|v items Hv Hitems IH]; [done|].
  cbn [foldr]. by rewrite every_app, fileChar_placemarkText, IH.
Qed.

Lemma fileChar_folderText (l : list Brewery) (c : BreweryCategory) :
  Forall Exportable l -> Js.every fileChar (folderText l c) = true.
Proof.
  intros Hl. unfold folderText. cbv zeta.
  pose proof (fileChar_placemarks (List.filter (fun b => bool_decide (category b = c)) l)
                (Forall_filter_bool _ _ _ Hl)) as Hitems.
  destruct (List.filter _ l); [done|].
  destruct (categoryValue_facts c) as (_ & Xcv%fileChar_plainText & _).
  rewrite !every_app, Xcv, Hitems. reflexivity.
Qed.

Lemma fileChar_exportKML (l : list Brewery) :
  Forall Exportable l -> Js.every fileChar (exportKML l) = true.
Proof.
  intros Hl. unfold exportKML, allCategories. cbn [foldr].
  rewrite !every_app, !fileChar_folderText by done. reflexivity.
Qed.

Lemma parseFromString_exportKML (l : list Brewery) :
  Forall Exportable l -> Dom.parseFromString (exportKML l) = [kmlTreeOf l].
Proof.
  intros Hl. pose proof (fileChar_exportKML l Hl) as Hc.
  unfold fileChar in Hc. rewrite every_and in Hc. apply andb_true_iff in Hc as [Hx Hcr].
  unfold Dom.parseFromString. rewrite Hx, normalizeLineEnds_none by exact Hcr.
  by rewrite lex_exportKML, build_exportKML.
Qed.

(** ** The elements of the tree *)

Lemma descendants_Element (t : string) (a : list (string * string)) (cs : list Dom.node) :
  Dom.descendants (Dom.Element t a cs)
  = flat_map (fun c => Dom.elementSelf c ++ Dom.descendants c) cs.
Proof.
  cbn [Dom.descendants]. induction cs as [|c cs IH]; [done|].
  cbn [flat_map]. by rewrite IH, app_assoc.
Qed.

Lemma filter_flat_map {A B : Type} (p : B -> bool) (f : A -> list B) (l : list A) :
  List.filter p (flat_map f l) = flat_map (fun x => List.filter p (f x)) l.
Proof.
  induction l as [|x l IH]; [done|]. cbn [flat_map]. by rewrite List.filter_app, IH.
Qed.

Lemma getElementsByTagName_Element (t : string) a (cs : list Dom.node) (tag : string) :
  Dom.getElementsByTagName (Dom.Element t a cs) tag = flat_map (under tag) cs.
Proof.
  unfold Dom.getElementsByTagName. by rewrite descendants_Element, filter_flat_map.
Qed.

Lemma under_Element (tag t : string) a (cs : list Dom.node) :
  under tag (Dom.Element t a cs)
  = (if String.eqb t tag then [Dom.Element t a cs] else []) ++ flat_map (under tag) cs.
Proof.
  unfold under. rewrite List.filter_app, descendants_Element, filter_flat_map.
  cbn [Dom.elementSelf List.filter Dom.isNamed]. by destruct (String.eqb t tag).
Qed.

Lemma documentElementsByTagName_under (d : Dom.document) (tag : string) :
  Dom.documentElementsByTagName d tag = flat_map (under tag) d.
Proof. unfold Dom.documentElementsByTagName. apply filter_flat_map. Qed.

Lemma under_placemark_Placemark (v : Brewery) :
  under "Placemark" (placemarkNodeOf v) = [placemarkNodeOf v].
Proof. reflexivity. Qed.

Lemma under_placemark_Folder (v : Brewery) : under "Folder" (placemarkNodeOf v) = [].
Proof. reflexivity. Qed.

Lemma under_placemarkNodes_Placemark (items : list Brewery) :
  flat_map (under "Placemark") (placemarkNodes items) = placemarkNodeOf <$> items.
Proof.
  induction items as [|v items IH]; [done|].
  unfold placemarkNodes in *. cbn [flat_map]. rewrite flat_map_app, IH.
  cbn [flat_map]. by rewrite under_placemark_Placemark.
Qed.

Lemma under_placemarkNodes_Folder (items : list Brewery) :
  flat_map (under "Folder") (placemarkNodes items) = [].
Proof.
  induction items as [|v items IH]; [done|].
  unfold placemarkNodes in *. cbn [flat_map]. rewrite flat_map_app, IH.
  cbn [flat_map]. by rewrite under_placemark_Folder.
Qed.

Lemma under_folder_start (tag cv : string) :
  String.eqb "name" tag = false ->
  flat_map (under tag) [gap 6; textElement "name" cv] = [].
Proof.
  intros Htag. cbn [flat_map]. unfold textElement. rewrite under_Element, Htag.
  reflexivity.
Qed.

Lemma under_gap (tag : string) (k : nat) : flat_map (under tag) [gap k] = [].
Proof. reflexivity. Qed.

Lemma folder_placemarks (l : list Brewery) (c : BreweryCategory) :
  Dom.getElementsByTagName (folderNodeOf l c) "Placemark"
  = placemarkNodeOf <$> categoryItems l c.
Proof.
  unfold folderNodeOf. rewrite getElementsByTagName_Element, !flat_map_app.
  rewrite under_placemarkNodes_Placemark, under_folder_start, under_gap by done.
  apply app_nil_r.
Qed.

Lemma folder_name (l : list Brewery) (c : BreweryCategory) :
  head (Dom.getElementsByTagName (folderNodeOf l c) "name")
  = Some (textElement "name" (categoryValue c)).
Proof. reflexivity. Qed.

Lemma under_folder_Folder (l : list Brewery) (c : BreweryCategory) :
  under "Folder" (folderNodeOf l c) = [folderNodeOf l c].
Proof.
  unfold folderNodeOf. rewrite under_Element, !flat_map_app, under_placemarkNodes_Folder.
  by rewrite under_folder_start, under_gap.
Qed.

Lemma under_folder_Placemark (l : list Brewery) (c : BreweryCategory) :
  under "Placemark" (folderNodeOf l c) = placemarkNodeOf <$> categoryItems l c.
Proof.
  unfold folderNodeOf. rewrite under_Element, !flat_map_app, under_placemarkNodes_Placemark.
  rewrite under_folder_start, under_gap by done. apply app_nil_r.
Qed.

Lemma under_folderNodes_Folder (l : list Brewery) (cs : list BreweryCategory) :
  flat_map (under "Folder") (folderNodes l cs) = folderList l cs.
Proof.
  induction cs as [|c cs IH]; [done|].
  unfold folderNodes, folderList in *. cbn [flat_map]. rewrite flat_map_app, IH.
  destruct (categoryItems l c); [done|].
  cbn [flat_map]. by rewrite under_folder_Folder.
Qed.

Lemma document_folders (l : list Brewery) :
  Dom.documentElementsByTagName [kmlTreeOf l] "Folder" = folderList l allCategories.
Proof.
  rewrite documentElementsByTagName_under. cbn [flat_map]. rewrite app_nil_r.
  unfold kmlTreeOf. rewrite under_Element.
  change (flat_map (under "Folder") [gap 2; ?document; gap 0]) with (under "Folder" document ++ []).
  rewrite app_nil_r, under_Element, !flat_map_app, under_folderNodes_Folder.
  rewrite under_gap.
  change (flat_map (under "Folder") [gap 4; textElement "name" "Craft Beer Map Spain"])
    with (@nil Dom.node).
  apply app_nil_r.
Qed.

Lemma folderNodes_empty (l : list Brewery) (cs : list BreweryCategory) :
  concat (categoryItems l <$> cs) = [] -> folderNodes l cs = [].
Proof.
  induction cs as [|c cs IH]; [done|].
  rewrite fmap_cons. cbn [concat]. intros [Hc Hcs]%app_eq_nil.
  unfold folderNodes in *. cbn [flat_map]. by rewrite Hc, IH.
Qed.

Lemma document_placemarks_none (l : list Brewery) :
  byCategory l = [] -> Dom.documentElementsByTagName [kmlTreeOf l] "Placemark" = [].
Proof.
  intros Hl. unfold kmlTreeOf. by rewrite (folderNodes_empty l allCategories Hl).
Qed.

(** ** Reading the tree of a collection *)

Section DecodeCollection.

Variable anchorHrefs : string -> list (option string).

Lemma parsePlacemark_placemarkNodeOf (newId : string) (v : Brewery) :
  Exportable v ->
  parsePlacemark anchorHrefs newId (placemarkNodeOf v) (category v) = Some (reread newId v).
Proof.
  intros Hv.
  destruct (Exportable_texts v Hv)
    as (Ha & Hw & Hg & (s & Hs & Hsv) & Na & Nw & Ng & _ & _ & _ & _ & Ta & Tw & Tg & Sw).
  destruct Hv as [Hnm _ _ Pd Td _ _ _ _ _ Nlat Nlng Clat Clng Zlat Zlng].
  unfold placemarkNodeOf. rewrite Hsv.
  rewrite parsePlacemark_exported; try done.
  - unfold reread. by rewrite <- Ha, <- Hw, <- Hg, <- Hs.
  - by apply cleanDescription_plain.
  - by apply parseFloat_numberToString.
  - by apply parseFloat_numberToString.
Qed.

Lemma parsePlacemarks_exported (ids : nat -> string) (used : nat) (items : list Brewery)
    (c : BreweryCategory) :
  Forall Exportable items -> Forall (fun v => category v = c) items ->
  parsePlacemarks anchorHrefs ids used (placemarkNodeOf <$> items) c
  = rereadFrom ids used items.
Proof.
  intros Hitems Hc. revert used.
  induction Hitems as [|v items Hv Hitems IH]; intros used; [done|].
  apply Forall_cons in Hc as [Hcv Hc]. rewrite fmap_cons. cbn [parsePlacemarks].
  rewrite <- Hcv at 1. rewrite parsePlacemark_placemarkNodeOf by done.
  rewrite IH by done. reflexivity.
Qed.

Lemma rereadFrom_length ids used items : length (rereadFrom ids used items) = length items.
Proof.
  unfold rereadFrom. rewrite length_zip_with, length_fmap, length_seq. lia.
Qed.

Lemma rereadFrom_app ids used (items1 items2 : list Brewery) :
  rereadFrom ids used (items1 ++ items2)
  = rereadFrom ids used items1 ++ rereadFrom ids (used + length items1) items2.
Proof.
  unfold rereadFrom. rewrite length_app, seq_app, fmap_app.
  apply zip_with_app. by rewrite length_fmap, length_seq.
Qed.

Lemma Forall_categoryItems (l : list Brewery) (c : BreweryCategory) :
  Forall (fun v => category v = c) (categoryItems l c).
Proof.
  apply Forall_forall. intros v [_ Hv]%elem_of_filter_bool.
  by apply bool_decide_eq_true in Hv.
Qed.

Lemma parseFolders_exported (l : list Brewery) ids used (cs : list BreweryCategory) :
  Forall Exportable l ->
  parseFolders anchorHrefs ids used (folderList l cs)
  = (rereadFrom ids used (concat (categoryItems l <$> cs)),
     negb (length (concat (categoryItems l <$> cs)) =? 0)).
Proof.
  intros Hl. revert used. induction cs as [|c cs IH]; intros used; [done|].
  rewrite fmap_cons. cbn [concat]. unfold folderList in *. cbn [flat_map].
  pose proof (Forall_categoryItems l c) as Hc.
  assert (Forall Exportable (categoryItems l c)) as Hitems by (by apply Forall_filter_bool).
  destruct (categoryItems l c) as [|v items] eqn:Hitemsc; [apply IH|].
  rewrite <- Hitemsc in *. cbn [app parseFolders].
  rewrite folder_name, folder_placemarks. cbn [fmap option_fmap option_map].
  rewrite textContent_textElement.
  destruct (categoryValue_facts c) as (Hcv & _ & Ccv).
  unfold orElse. rewrite truthy_true, Ccv by done.
  rewrite parsePlacemarks_exported, rereadFrom_length, IH by done.
  rewrite rereadFrom_app, !length_app, length_fmap. f_equal.
  rewrite Hitemsc. reflexivity.
Qed.

Lemma decodeKML_exportKML (ids : nat -> string) (l : list Brewery) :
  Forall Exportable l ->
  decodeKML anchorHrefs ids (exportKML l) = rereadFrom ids 0 (byCategory l).
Proof.
  intros Hl. unfold decodeKML.
  rewrite parseFromString_exportKML, document_folders, parseFolders_exported by done.
  fold (byCategory l). destruct (byCategory l) as [|v vs] eqn:Hvs; [|done].
  cbn [length Nat.eqb negb]. by rewrite document_placemarks_none.
Qed.

End DecodeCollection.

(** ** The round trip of a collection *)

Lemma byCategory_Permutation (l : list Brewery) : byCategory l ≡ₚ l.
Proof.
  unfold byCategory. rewrite groups_Permutation.
  - apply reflexive_eq, filter_all_categories. by intros [].
  - apply (bool_decide_unpack _). by vm_compute.
Qed.

Lemma naparbier_exportable : Exportable naparbier.
Proof.
  constructor; try reflexivity; try discriminate.
  - exists "Poligono Talluntxe, Noain". by repeat split.
  - exists "https://example.com/naparbier". by repeat split.
  - by intros w [= <-].
  - exists "https://maps.google.com/?q=naparbier". by repeat split.
  - by exists unknown.
Defined.

Lemma sample_exportable : Forall Exportable [laVirgen; naparbier].
Proof.
  apply Forall_cons. split; [apply laVirgen_exportable|].
  apply Forall_cons. split; [apply naparbier_exportable|apply Forall_nil_2].
Defined.

(** The file that [exportKML] writes for a collection of exportable
    records is read back as the same records, category by category in the
    order of the enum and within a category in their order: each comes back
    with the next generated id and without the date of its last health
    check, and with every other field as it was.  The records read back
    are as many as the collection has. *)
Theorem collection_round_trip anchorHrefs (ids : nat -> string) (l : list Brewery) :
  Forall Exportable l ->
  decodeKML anchorHrefs ids (exportKML l)
  = zip_with reread (ids <$> seq 0 (length (byCategory l))) (byCategory l)
  /\ byCategory l ≡ₚ l
  /\ length (decodeKML anchorHrefs ids (exportKML l)) = length l.
Proof.
  intros Hl. rewrite (decodeKML_exportKML anchorHrefs ids l Hl).
  split; [done|split; [apply byCategory_Permutation|]].
  by rewrite rereadFrom_length, byCategory_Permutation.
Qed.

Lemma collection_round_trip_witness :
  decodeKML noAnchors (fun k => pretty k) (exportKML [laVirgen; naparbier])
  = [reread "0" naparbier; reread "1" laVirgen].
Proof.
  exact (proj1 (collection_round_trip noAnchors (fun k => pretty k) [laVirgen; naparbier]
                  sample_exportable)).
Defined.

Lemma written_rereadFrom ids used (items : list Brewery) :
  written <$> rereadFrom ids used items = written <$> items.
Proof.
  unfold rereadFrom. revert used. induction items as [|v items IH]; intros used; [done|].
  cbn [length seq]. rewrite fmap_cons. cbn [zip_with]. rewrite !fmap_cons.
  by rewrite (IH (S used)).
Qed.

Lemma categoryItems_app (l1 l2 : list Brewery) (c : BreweryCategory) :
  categoryItems (l1 ++ l2) c = categoryItems l1 c ++ categoryItems l2 c.
Proof. unfold categoryItems. apply List.filter_app. Qed.

Lemma categoryItems_twice (l : list Brewery) (c c' : BreweryCategory) :
  categoryItems (categoryItems l c') c = if bool_decide (c' = c) then categoryItems l c else [].
Proof.
  unfold categoryItems. rewrite filter_filter_bool.
  destruct (bool_decide (c' = c)) eqn:Hc.
  - apply bool_decide_eq_true in Hc as ->. apply List.filter_ext. intros b.
    apply andb_diag.
  - apply bool_decide_eq_false in Hc. apply filter_none. intros b _.
    destruct (bool_decide (category b = c')) eqn:Hb; [|done].
    apply bool_decide_eq_true in Hb. simpl. apply bool_decide_eq_false. congruence.
Qed.

Lemma categoryItems_groups (l : list Brewery) (cs : list BreweryCategory)
    (c : BreweryCategory) :
  NoDup cs ->
  categoryItems (concat (categoryItems l <$> cs)) c
  = if includesCategory cs c then categoryItems l c else [].
Proof.
  induction 1 as [|c' cs Hc' Hcs IH]; [done|].
  rewrite fmap_cons. cbn [concat]. rewrite categoryItems_app, IH, categoryItems_twice.
  change (includesCategory (c' :: cs) c) with (bool_decide (c' = c) || includesCategory cs c).
  destruct (bool_decide (c' = c)) eqn:Hc; [|done].
  apply bool_decide_eq_true in Hc as ->.
  assert (includesCategory cs c = false) as ->.
  { apply not_true_iff_false. by rewrite includesCategory_elem. }
  apply app_nil_r.
Qed.

Lemma categoryItems_byCategory (l : list Brewery) (c : BreweryCategory) :
  categoryItems (byCategory l) c = categoryItems l c.
Proof.
  unfold byCategory. rewrite categoryItems_groups.
  - by destruct c.
  - apply (bool_decide_unpack _). by vm_compute.
Qed.

Lemma folderText_byCategory (l : list Brewery) (c : BreweryCategory) :
  folderText (byCategory l) c = folderText l c.
Proof.
  unfold folderText. cbv zeta. fold (categoryItems (byCategory l) c) (categoryItems l c).
  by rewrite categoryItems_byCategory.
Qed.

Lemma exportKML_byCategory (l : list Brewery) : exportKML (byCategory l) = exportKML l.
Proof.
  unfold exportKML, allCategories. cbn [foldr]. by rewrite !folderText_byCategory.
Qed.

(** Exporting what an import of a file reads gives the same file again,
    when the file was exported from exportable records. *)
Theorem export_of_import_is_same_file anchorHrefs (ids : nat -> string) (l : list Brewery) :
  Forall Exportable l ->
  exportKML (decodeKML anchorHrefs ids (exportKML l)) = exportKML l.
Proof.
  intros Hl. rewrite decodeKML_exportKML by done.
  rewrite <- exportKML_written, written_rereadFrom, exportKML_written.
  apply exportKML_byCategory.
Qed.

Lemma export_of_import_is_same_file_witness :
  exportKML (decodeKML noAnchors (fun k => pretty k) (exportKML [laVirgen; naparbier]))
  = exportKML [laVirgen; naparbier].
Proof.
  exact (export_of_import_is_same_file noAnchors (fun k => pretty k) [laVirgen; naparbier]
           sample_exportable).
Defined.

Lemma lowerNames_rereadFrom ids used (items : list Brewery) :
  lowerNames (rereadFrom ids used items) = lowerNames items.
Proof.
  unfold lowerNames.
  change (fun b => Js.toLowerCase (name b))
    with ((fun b => Js.toLowerCase (name b)) ∘ written).
  by rewrite !list_fmap_compose, written_rereadFrom.
Qed.

Lemma mergeImported_known (prev incoming : list Brewery) :
  (forall x, x ∈ lowerNames incoming -> x ∈ lowerNames prev) ->
  mergeImported prev incoming = prev.
Proof.
  intros Hsub. rewrite mergeImported_refines. unfold mergeImported_spec.
  rewrite filter_none; [apply app_nil_r|].
  intros b Hb. apply negb_false_iff, collides_lowerNames, Hsub.
  unfold lowerNames. apply list_elem_of_fmap. by exists b.
Qed.

Lemma mergeImported_nil (incoming : list Brewery) : mergeImported [] incoming = incoming.
Proof.
  rewrite mergeImported_refines. unfold mergeImported_spec. cbn [app].
  induction incoming as [|b incoming IH]; [done|].
  change (List.filter ?f (b :: incoming)) with (b :: List.filter f incoming).
  by rewrite IH.
Qed.

(** Importing the file exported from the committed collection adds
    nothing to it, when its records are exportable: every record of the
    file has the name of a committed record. *)
Theorem own_export_adds_nothing anchorHrefs (ids : nat -> string) (silent : bool)
    (st : AppState) :
  Forall Exportable (breweries st) ->
  breweries (fst (parseKML anchorHrefs ids (exportKML (breweries st)) silent st))
  = breweries st.
Proof.
  intros Hl. rewrite (parseKML_breweries anchorHrefs), decodeKML_exportKML by done.
  apply mergeImported_known. intros x. rewrite lowerNames_rereadFrom.
  unfold lowerNames. by rewrite byCategory_Permutation.
Qed.

Lemma own_export_adds_nothing_witness :
  let st := mkApp [laVirgen; naparbier] [] None false None in
  breweries (fst (parseKML noAnchors (fun k => pretty k) (exportKML (breweries st)) true st))
  = breweries st.
Proof.
  exact (own_export_adds_nothing noAnchors (fun k => pretty k) true
           (mkApp [laVirgen; naparbier] [] None false None) sample_exportable).
Defined.

(** Export, clear the map, import the file: the committed collection is
    the one that was exported, category by category, with new ids and
    without the dates of the health checks. *)
Theorem backup_restores_collection anchorHrefs (ids : nat -> string) (silent : bool)
    (st : AppState) :
  Forall Exportable (breweries st) ->
  let file := exportKML (breweries st) in
  let st' := perform anchorHrefs (ImportKML ids file silent)
               (perform anchorHrefs (ClearAll true) st) in
  breweries st'
  = zip_with reread (ids <$> seq 0 (length (breweries st))) (byCategory (breweries st))
  /\ written <$> breweries st' = written <$> byCategory (breweries st)
  /\ foundBreweries st' = foundBreweries st.
Proof.
  intros Hl. cbv zeta. cbn [perform].
  pose proof (decodeKML_exportKML anchorHrefs ids (breweries st) Hl) as Hd.
  assert (breweries (parseKML anchorHrefs ids (exportKML (breweries st)) silent
                       (handleClearAll true st)).1
          = rereadFrom ids 0 (byCategory (breweries st))) as Hb.
  { rewrite (parseKML_breweries anchorHrefs), Hd. apply mergeImported_nil. }
  rewrite Hb. split; [|split].
  - unfold rereadFrom. by rewrite (Permutation_length (byCategory_Permutation _)).
  - apply written_rereadFrom.
  - unfold parseKML. by case_match.
Qed.

Lemma backup_restores_collection_witness :
  let st := mkApp [laVirgen; naparbier] [] None false None in
  let st' := perform noAnchors (ImportKML (fun k => pretty k) (exportKML (breweries st)) true)
               (perform noAnchors (ClearAll true) st) in
  breweries st' = [reread "0" naparbier; reread "1" laVirgen].
Proof.
  exact (proj1 (backup_restores_collection noAnchors (fun k => pretty k) true
                  (mkApp [laVirgen; naparbier] [] None false None) sample_exportable)).
Defined.

(** ** One health check after another *)





(** ** Editing a found record *)

Lemma length_replaceById (updated : Brewery) (l : list Brewery) :
  length (replaceById updated l) = length l.
Proof. unfold replaceById. apply length_fmap. Qed.

Lemma ids_replaceById (updated : Brewery) (l : list Brewery) :
  id <$> replaceById updated l = id <$> l.
Proof.
  unfold replaceById. rewrite <- list_fmap_compose. apply list_fmap_ext.
  intros _ b _. cbn [compose]. destruct (hasId (id updated) b) eqn:Hb; [|done].
  by apply String.eqb_eq in Hb.
Qed.

(** Saving an edit of a found record changes the found list only, keeps
    the record there under its id, and commits nothing, when no committed
    record has the same id; when one has, it is the committed collection
    that is changed, and the found list is left as it was. *)
Theorem found_edit_stays_found (i : string) (changes : list Change) (st : AppState)
    (target : Brewery) :
  List.find (hasId i) (foundBreweries st) = Some target ->
  let st' := saveChanges changes (handleEditFound i st) in
  id <$> breweries st' = id <$> breweries st
  /\ id <$> foundBreweries st' = id <$> foundBreweries st
  /\ (if existsb (hasId i) (breweries st)
      then foundBreweries st' = foundBreweries st
      else breweries st' = breweries st).
Proof.
  intros Hfind. destruct (find_hasId _ _ _ Hfind) as [Hid Hex]. cbv zeta.
  unfold handleEditFound. rewrite Hfind. unfold saveChanges.
  cbn [editModalOpen editingBrewery setEditModalOpen setEditingBrewery].
  destruct (modalSave target _) as [updated|] eqn:Hsave;
    [|by destruct (existsb (hasId i) (breweries st))].
  destruct (edit_form_keeps target changes updated Hsave) as [Hu _].
  unfold handleSave. cbn [breweries foundBreweries setEditModalOpen setEditingBrewery].
  rewrite Hu, Hid.
  destruct (existsb (hasId i) (breweries st)) eqn:Hb.
  - unfold setBreweries. cbn [breweries foundBreweries]. by rewrite ids_replaceById.
  - rewrite Hex. unfold setFoundBreweries. cbn [breweries foundBreweries].
    by rewrite ids_replaceById.
Qed.

Lemma found_edit_stays_found_witness :
  let st := mkApp [venue "1" "Row 44"] [venue "f1" "Cervezas La Virgen"] None false None in
  let st' := saveChanges [ChangeName "La Virgen"] (handleEditFound "f1" st) in
  id <$> breweries st' = ["1"] /\ id <$> foundBreweries st' = ["f1"]
  /\ breweries st' = breweries st.
Proof.
  exact (found_edit_stays_found "f1" [ChangeName "La Virgen"]
           (mkApp [venue "1" "Row 44"] [venue "f1" "Cervezas La Virgen"] None false None)
           (venue "f1" "Cervezas La Virgen") eq_refl).
Defined.

(** ** Folders and categories *)

Section Folders.

Variable anchorHrefs : string -> list (option string).

Lemma parseFolders_found ids used folders :
  (parseFolders anchorHrefs ids used folders).2 = existsb holdsPlacemark folders.
Proof.
  revert used. induction folders as [|f folders IH]; intros used; [done|].
  cbn [parseFolders existsb].
  specialize (IH (used + length (parsePlacemarks anchorHrefs ids used
    (Dom.getElementsByTagName f "Placemark")
    (getCategoryFromFolder
       (orElse (Dom.textContent <$> head (Dom.getElementsByTagName f "name")) ""))))).
  destruct (parseFolders anchorHrefs ids _ folders) as [later found].
  cbn [snd] in *. by rewrite IH.
Qed.

Lemma parseFolders_none ids used folders :
  existsb holdsPlacemark folders = false ->
  (parseFolders anchorHrefs ids used folders).1 = [].
Proof.
  revert used. induction folders as [|f folders IH]; intros used; [done|].
  cbn [existsb]. intros [Hf Hfolders]%orb_false_iff.
  unfold holdsPlacemark in Hf. apply negb_false_iff, Nat.eqb_eq, length_zero_iff_nil in Hf.
  cbn [parseFolders]. rewrite Hf. cbn [parsePlacemarks length].
  specialize (IH (used + 0) Hfolders).
  destruct (parseFolders anchorHrefs ids _ folders) as [later found].
  cbn [fst] in *. by rewrite IH.
Qed.

Lemma parseFolders_from ids used folders b :
  b ∈ (parseFolders anchorHrefs ids used folders).1 ->
  exists f p newId,
    f ∈ folders /\ p ∈ Dom.getElementsByTagName f "Placemark"
    /\ parsePlacemark anchorHrefs newId p (folderCategory f) = Some b.
Proof.
  revert used. induction folders as [|f folders IH]; intros used.
  - by intros ?%not_elem_of_nil.
  - cbn [parseFolders].
    destruct (parseFolders anchorHrefs ids _ folders) as [later found] eqn:Hlater.
    cbn [fst]. intros [Hin|Hin]%elem_of_app.
    + apply parsePlacemarks_elem in Hin as (newId & p & Hp & Hb).
      exists f, p, newId. split; [by left|done].
    + destruct (IH _ ltac:(by erewrite Hlater)) as (f' & p & newId & Hf' & Hp).
      exists f', p, newId. split; [by right|done].
Qed.

(** When no folder of the file holds a placemark, every placemark of the
    file is read, as Lúpulo Común.  When one does, only the placemarks in
    folders are read: every record comes from a placemark in a folder and
    has the category read off that folder's name, and a placemark outside
    every folder gives nothing. *)
Theorem folders_decide_categories (ids : nat -> string) (xmlString : string) :
  let xmlDoc := Dom.parseFromString xmlString in
  let folders := Dom.documentElementsByTagName xmlDoc "Folder" in
  if existsb holdsPlacemark folders then
    decodeKML anchorHrefs ids xmlString = (parseFolders anchorHrefs ids 0 folders).1
    /\ forall b, b ∈ decodeKML anchorHrefs ids xmlString ->
         exists f p newId,
           f ∈ folders /\ p ∈ Dom.getElementsByTagName f "Placemark"
           /\ parsePlacemark anchorHrefs newId p (folderCategory f) = Some b
           /\ category b = folderCategory f
  else
    decodeKML anchorHrefs ids xmlString
    = parsePlacemarks anchorHrefs ids 0
        (Dom.documentElementsByTagName xmlDoc "Placemark") COMMON
    /\ Forall (fun b => category b = COMMON) (decodeKML anchorHrefs ids xmlString).
Proof.
  cbv zeta. unfold decodeKML.
  pose proof (parseFolders_found ids 0
    (Dom.documentElementsByTagName (Dom.parseFromString xmlString) "Folder")) as Hfound.
  pose proof (parseFolders_none ids 0
    (Dom.documentElementsByTagName (Dom.parseFromString xmlString) "Folder")) as Hnone.
  pose proof (parseFolders_from ids 0
    (Dom.documentElementsByTagName (Dom.parseFromString xmlString) "Folder")) as Hfrom.
  destruct (parseFolders anchorHrefs ids 0 _) as [inFolders found].
  cbn [fst snd] in *. subst found.
  destruct (existsb holdsPlacemark _).
  - split; [done|]. intros b (f & p & newId & Hf & Hp & Hb)%Hfrom.
    exists f, p, newId. repeat split; try done.
    by apply parsePlacemark_fields in Hb as (_ & Hc & _).
  - rewrite Hnone by done. cbn [app length]. split; [done|].
    apply Forall_forall. intros b (newId & p & _ & Hb)%parsePlacemarks_elem.
    by apply parsePlacemark_fields in Hb as (_ & Hc & _).
Qed.

Lemma parsePlacemark_placed (newId newId' : string) (p : Dom.node)
    (c c' : BreweryCategory) (b : Brewery) :
  parsePlacemark anchorHrefs newId p c = Some b ->
  parsePlacemark anchorHrefs newId' p c' = Some (placed newId' c' b).
Proof.
  unfold parsePlacemark.
  destruct (Js.trim <$> _) as [raw|]; [|done].
  destruct (Js.truthy raw); [|done].
  destruct (negb (isNaN _) && negb (isNaN _)); [|done].
  by intros [= <-].
Qed.

Lemma getElementsByTagName_folder (tag nm : string) (kid : Dom.node) :
  Dom.getElementsByTagName (Dom.Element "Folder" [] [textElement "name" nm; kid]) tag
  = (if String.eqb "name" tag then [textElement "name" nm] else []) ++ under tag kid.
Proof.
  rewrite getElementsByTagName_Element. cbn [flat_map]. unfold textElement at 1.
  rewrite under_Element. cbn [flat_map]. by rewrite !app_nil_r.
Qed.

Lemma under_folder (tag nm : string) (kid : Dom.node) :
  under tag (Dom.Element "Folder" [] [textElement "name" nm; kid])
  = (if String.eqb "Folder" tag
     then [Dom.Element "Folder" [] [textElement "name" nm; kid]] else [])
    ++ Dom.getElementsByTagName (Dom.Element "Folder" [] [textElement "name" nm; kid]) tag.
Proof. by rewrite under_Element, getElementsByTagName_Element. Qed.

(** A placemark in a folder that lies in another folder is read twice,
    once for each folder: the two records differ in their ids and have the
    categories of the outer and of the inner folder. *)
Theorem nested_folder_read_twice (ids : nat -> string) (nameA nameB : string)
    (p : Dom.node) (b : Brewery) :
  under "Folder" p = [] -> under "Placemark" p = [p] ->
  parsePlacemark anchorHrefs "" p COMMON = Some b ->
  parseFolders anchorHrefs ids 0
    (Dom.documentElementsByTagName (nestedFolders nameA nameB p) "Folder")
  = ([placed (ids 0) (getCategoryFromFolder nameA) b;
      placed (ids 1) (getCategoryFromFolder nameB) b], true).
Proof.
  intros HpF HpP Hb. unfold nestedFolders.
  set (inner := Dom.Element "Folder" [] [textElement "name" nameB; p]).
  set (outer := Dom.Element "Folder" [] [textElement "name" nameA; inner]).
  assert (Dom.getElementsByTagName inner "Placemark" = [p]) as HinnerP.
  { unfold inner. by rewrite getElementsByTagName_folder, HpP. }
  assert (Dom.getElementsByTagName outer "Placemark" = [p]) as HouterP.
  { unfold outer. rewrite getElementsByTagName_folder. unfold inner at 1.
    rewrite under_folder. fold inner. by rewrite HinnerP. }
  assert (Dom.documentElementsByTagName [Dom.Element "kml" [] [outer]] "Folder"
          = [outer; inner]) as ->.
  { rewrite documentElementsByTagName_under. cbn [flat_map]. rewrite under_Element.
    cbn [flat_map String.eqb Ascii.eqb Bool.eqb app]. rewrite !app_nil_r.
    assert (under "Folder" inner = [inner]) as HinnerF.
    { unfold inner. by rewrite under_folder, getElementsByTagName_folder, HpF. }
    unfold outer. rewrite under_folder, getElementsByTagName_folder. by rewrite HinnerF. }
  assert (forall nm kid,
            orElse (Dom.textContent <$>
                      head (Dom.getElementsByTagName
                              (Dom.Element "Folder" [] [textElement "name" nm; kid]) "name")) ""
            = nm) as Hname.
  { intros nm kid. rewrite getElementsByTagName_folder.
    cbn [String.eqb Ascii.eqb Bool.eqb app head fmap option_fmap option_map].
    rewrite textContent_textElement. unfold orElse. apply truthy_or_empty. }
  cbn [parseFolders]. rewrite HouterP, HinnerP.
  unfold outer, inner. rewrite !Hname.
  cbn [parsePlacemarks].
  rewrite (parsePlacemark_placed "" (ids 0) p COMMON (getCategoryFromFolder nameA) b Hb).
  cbn [length Nat.add].
  rewrite (parsePlacemark_placed "" (ids 1) p COMMON (getCategoryFromFolder nameB) b Hb).
  reflexivity.
Qed.

End Folders.

Lemma nested_folder_read_twice_witness :
  parseFolders noAnchors (fun k => pretty k) 0
    (Dom.documentElementsByTagName
       (nestedFolders "Lupulo de Oro" "Lupulo de Plata" barPlacemark) "Folder")
  = ([placed "0" GOLD bar; placed "1" SILVER bar], true)
  /\ (fun r => (id r, name r, category r))
       <$> decodeKML noAnchors (fun k => pretty k) nestedText
     = [("0", "Bar", GOLD); ("1", "Bar", SILVER)].
Proof.
  split; [|vm_compute; reflexivity].
  exact (nested_folder_read_twice noAnchors (fun k => pretty k)
           "Lupulo de Oro" "Lupulo de Plata" barPlacemark bar eq_refl eq_refl eq_refl).
Defined.

(** ** The text of a response *)

Lemma fenceLength_other (c : ascii) (s : string) :
  Ascii.eqb c "`" = false -> fenceLength (String c s) = None.
Proof.
  intros Hc. unfold fenceLength. rewrite startsWith_cons, (Ascii.eqb_sym "`" c), Hc.
  reflexivity.
Qed.

Lemma jsonFenceLength_other (c : ascii) (s : string) :
  Ascii.eqb c "`" = false -> jsonFenceLength (String c s) = None.
Proof. destruct c as [[] [] [] [] [] [] [] []]; try reflexivity. discriminate. Qed.

(** Three steps of look-ahead: what the text without fences starts
    with. *)
Lemma unfenced_start1 (x : string) :
  Js.startsWith x "`" = false ->
  Js.startsWith (Js.replaceAll fenceLength "" 0 x) "`" = false.
Proof.
  destruct x as [|c x]; [done|].
  rewrite startsWith_cons, startsWith_nil, andb_true_r, Ascii.eqb_sym. intros Hc.
  cbn [Js.replaceAll]. rewrite fenceLength_other by done.
  by rewrite startsWith_cons, startsWith_nil, andb_true_r, Ascii.eqb_sym.
Qed.

Lemma unfenced_start2 (x : string) :
  Js.startsWith x "``" = false ->
  Js.startsWith (Js.replaceAll fenceLength "" 0 x) "``" = false.
Proof.
  destruct x as [|c x]; [done|]. rewrite startsWith_cons.
  destruct (Ascii.eqb "`" c) eqn:Hc; cbn [andb].
  - intros Hx. apply Ascii.eqb_eq in Hc as <-.
    cbn [Js.replaceAll]. unfold fenceLength at 1.
    rewrite startsWith_cons, Ascii.eqb_refl. cbn [andb].
    assert (Js.startsWith x "``" = false) as ->.
    { destruct x as [|d x]; [done|]. rewrite startsWith_cons.
      change (Js.startsWith (String d x) "`") with (Ascii.eqb "`" d && Js.startsWith x "") in Hx.
      rewrite startsWith_nil, andb_true_r in Hx. by rewrite Hx. }
    rewrite startsWith_cons, Ascii.eqb_refl. cbn [andb]. by apply unfenced_start1.
  - intros _. rewrite Ascii.eqb_sym in Hc. cbn [Js.replaceAll].
    rewrite fenceLength_other by done.
    by rewrite startsWith_cons, Ascii.eqb_sym, Hc.
Qed.

Lemma unfenced_start3 (c : ascii) (x : string) :
  fenceLength (String c x) = None ->
  Js.startsWith (String c (Js.replaceAll fenceLength "" 0 x)) "```" = false.
Proof.
  unfold fenceLength. rewrite !startsWith_cons.
  destruct (Ascii.eqb "`" c); cbn [andb]; [|done].
  destruct (Js.startsWith x "``") eqn:Hx; [done|]. intros _. by apply unfenced_start2.
Qed.

Lemma includes_unfenced (skip : nat) (x : string) :
  Js.includes (Js.replaceAll fenceLength "" skip x) "```" = false.
Proof.
  revert skip. induction x as [|c x IH]; intros skip; [done|].
  cbn [Js.replaceAll]. destruct skip as [|k]; [|apply IH].
  destruct (fenceLength (String c x)) eqn:Hf; [apply IH|].
  rewrite includes_cons, IH, orb_false_r. by apply unfenced_start3.
Qed.

(** [trimEnd] gives a string that the argument starts with. *)
Lemma startsWith_trimEnd_prefix (s p : string) :
  Js.startsWith (Js.trimEnd s) p = true -> Js.startsWith s p = true.
Proof.
  revert p. induction s as [|c s IH]; intros p; [done|].
  destruct p as [|a p]; [by rewrite !startsWith_nil|].
  cbn [Js.trimEnd]. destruct (Js.trimEnd s) as [|d r] eqn:Hr.
  - destruct (Js.isWhiteSpace c); [done|].
    rewrite !startsWith_cons. intros [Ha Hp]%andb_true_iff. rewrite Ha. cbn [andb].
    destruct p; [apply startsWith_nil|done].
  - rewrite !startsWith_cons. intros [Ha Hp]%andb_true_iff. rewrite Ha. cbn [andb].
    by apply IH.
Qed.

Lemma includes_trimEnd (s needle : string) :
  Js.includes s needle = false -> Js.includes (Js.trimEnd s) needle = false.
Proof.
  induction s as [|c s IH]; [done|].
  rewrite includes_cons. intros [Hs Hi]%orb_false_iff. specialize (IH Hi).
  assert (Js.startsWith (Js.trimEnd (String c s)) needle = false) as Hstart.
  { destruct (Js.startsWith (Js.trimEnd (String c s)) needle) eqn:E; [|done].
    apply startsWith_trimEnd_prefix in E. congruence. }
  cbn [Js.trimEnd] in *. destruct (Js.trimEnd s) as [|d r].
  - destruct (Js.isWhiteSpace c).
    + cbn [Js.includes]. by rewrite Hstart.
    + by rewrite includes_cons, Hstart, IH.
  - by rewrite includes_cons, Hstart, IH.
Qed.

Lemma includes_trimStart (s needle : string) :
  Js.includes s needle = false -> Js.includes (Js.trimStart s) needle = false.
Proof.
  induction s as [|c s IH]; [done|]. intros Hs. cbn [Js.trimStart].
  destruct (Js.isWhiteSpace c); [|done]. apply IH. by apply includes_tail in Hs.
Qed.

Lemma replaceAll_no_tick (matchLength : string -> option nat) (by_ s : string) :
  (forall c r, Ascii.eqb c "`" = false -> matchLength (String c r) = None) ->
  without "`" s = true -> Js.replaceAll matchLength by_ 0 s = s.
Proof.
  intros Hm. unfold without. induction s as [|c s IH]; [done|]. cbn [Js.every Js.replaceAll].
  intros [Hc Hs]%andb_true_iff. apply negb_true_iff in Hc. by rewrite Hm, IH.
Qed.

Lemma replaceAll_body (matchLength : string -> option nat) (by_ body rest : string) :
  (forall c r, Ascii.eqb c "`" = false -> matchLength (String c r) = None) ->
  without "`" body = true ->
  Js.replaceAll matchLength by_ 0 (body +:+ rest)
  = body +:+ Js.replaceAll matchLength by_ 0 rest.
Proof.
  intros Hm. unfold without. induction body as [|c body IH]; [done|].
  cbn [Js.every]. intros [Hc Hs]%andb_true_iff. apply negb_true_iff in Hc.
  rewrite append_cons. cbn [Js.replaceAll]. by rewrite Hm, IH.
Qed.

(** The text that goes to [JSON.parse] holds no code fence.  A response
    without a backtick is only trimmed, and a response that is a text
    without a backtick between a [json] fence and a closing fence is that
    text, trimmed. *)
Theorem cleanResponse_strips_fences :
  (forall text : option string, Js.includes (cleanResponse text) "```" = false)
  /\ (forall t : string, t <> "" -> without "`" t = true -> cleanResponse (Some t) = Js.trim t)
  /\ (forall body : string, without "`" body = true ->
        cleanResponse (Some ("```json" +:+ body +:+ "```")) = Js.trim body).
Proof.
  split; [|split].
  - intros text. unfold cleanResponse, Js.trim. cbv zeta.
    apply includes_trimEnd, includes_trimStart, includes_unfenced.
  - intros t Ht Hticks. unfold cleanResponse, orElse. cbv zeta.
    rewrite truthy_true by done.
    rewrite (replaceAll_no_tick jsonFenceLength) by (exact jsonFenceLength_other || done).
    by rewrite (replaceAll_no_tick fenceLength) by (exact fenceLength_other || done).
  - intros body Hticks. unfold cleanResponse, orElse. cbv zeta.
    change (Js.truthy ("```json" +:+ body +:+ "```")) with true. cbv iota.
    change (Js.replaceAll jsonFenceLength "" 0 ("```json" +:+ body +:+ "```"))
      with (Js.replaceAll jsonFenceLength "" 0 (body +:+ "```")).
    rewrite (replaceAll_body jsonFenceLength) by (exact jsonFenceLength_other || done).
    change (Js.replaceAll jsonFenceLength "" 0 "```") with "```".
    rewrite (replaceAll_body fenceLength) by (exact fenceLength_other || done).
    change (Js.replaceAll fenceLength "" 0 "```") with "".
    by rewrite append_nil_r.
Qed.

(** ** What an import reports and what it adds *)

Lemma length_filter_split {A : Type} (f : A -> bool) (l : list A) :
  length (List.filter f l) + length (List.filter (fun x => negb (f x)) l) = length l.
Proof.
  induction l as [|x l IH]; [done|]. cbn [List.filter].
  destruct (f x); cbn [negb length]; lia.
Qed.

(** An import shows no alert when it is silent.  Otherwise the alert
    tells the number of records decoded from the file, or that none was
    found; the number of records added is that number less the decoded
    records whose name is committed already.  The found list, the selection
    and the editor are left as they were. *)
Theorem import_alert_counts_decoded anchorHrefs (ids : nat -> string) (xmlString : string)
    (silent : bool) (st : AppState) :
  let decoded := decodeKML anchorHrefs ids xmlString in
  let result := parseKML anchorHrefs ids xmlString silent st in
  snd result
  = (if silent then None
     else Some (match decoded with
                | [] => "No valid locations found in KML file."
                | _ => "Successfully imported " +:+ pretty (length decoded)
                       +:+ " locations from KML."
                end))
  /\ length (breweries (fst result))
       + length (List.filter (collides (breweries st)) decoded)
     = length (breweries st) + length decoded
  /\ foundBreweries (fst result) = foundBreweries st
  /\ selectedBreweryId (fst result) = selectedBreweryId st
  /\ editModalOpen (fst result) = editModalOpen st
  /\ editingBrewery (fst result) = editingBrewery st.
Proof.
  cbv zeta. split; [|split].
  - unfold parseKML. by destruct (decodeKML anchorHrefs ids xmlString).
  - rewrite (parseKML_breweries anchorHrefs), mergeImported_refines.
    unfold mergeImported_spec. rewrite length_app.
    pose proof (length_filter_split (collides (breweries st))
                  (decodeKML anchorHrefs ids xmlString)). lia.
  - unfold parseKML. by destruct (decodeKML anchorHrefs ids xmlString).
Qed.

(** ** Promotion after a search *)


